(** * FishEngine [Vector3]: a shallow embedding of
    [Engine/Source/Runtime/Vector3.hpp] and the properties of its
    operations.

    The C++ type [float] is IEEE-754 binary32.  It is modelled with the
    Standard Library's executable specification of binary floating point
    ([SpecFloat], precision 24, maximal exponent 128, round to nearest,
    ties to even), every C++ operator being one correctly rounded
    operation, in the order the source writes them.

    [Assert] is the engine's debug assertion: an operation whose assertion
    is violated stops, which the model renders as the result [None].

    The accuracy statements, at the end, measure a finite float against
    the real number it stands for ([Exact.B2R]). *)

From Stdlib Require Import ZArith Bool Lia List.
From Stdlib Require Import Reals Lra.
From Stdlib Require Import Floats.SpecFloat.
Import ListNotations.

Local Open Scope Z_scope.

(** ** binary32 arithmetic *)

Module Float32.

Definition prec : Z := 24.
Definition emax : Z := 128.

Definition float : Type := spec_float.

Definition add : float -> float -> float := SFadd prec emax.
Definition sub : float -> float -> float := SFsub prec emax.
Definition mul : float -> float -> float := SFmul prec emax.
Definition div : float -> float -> float := SFdiv prec emax.
Definition sqrtf : float -> float := SFsqrt prec emax.
Definition neg : float -> float := SFopp.

(** The C++ comparisons: every ordered comparison with a NaN is false. *)
Definition ltb : float -> float -> bool := SFltb.
Definition leb : float -> float -> bool := SFleb.
Definition eqb : float -> float -> bool := SFeqb.
Definition gtb (a b : float) : bool := ltb b a.
Definition geb (a b : float) : bool := leb b a.
(** [a != b] on floats: true as soon as one side is a NaN. *)
Definition neb (a b : float) : bool := negb (eqb a b).

Definition isnan (a : float) : bool :=
  match a with S754_nan => true | _ => false end.

Definition is_finite (a : float) : bool :=
  match a with S754_zero _ | S754_finite _ _ _ => true | _ => false end.

Definition is_inf (a : float) : bool :=
  match a with S754_infinity _ => true | _ => false end.

Definition is_zero (a : float) : bool :=
  match a with S754_zero _ => true | _ => false end.

(** The sign bit; a NaN carries none. *)
Definition signbit (a : float) : bool :=
  match a with
  | S754_zero s | S754_infinity s | S754_finite s _ _ => s
  | S754_nan => false
  end.

(** A value of the type: a canonical binary32 datum. *)
Definition valid (a : float) : bool := valid_binary prec emax a.

(** Literals.  [of_Z n] is the integer [n]; [dec m k] is the decimal
    literal [m]e-[k] ([m] times ten to the minus [k]), correctly rounded as
    a C++ compiler rounds a literal with the suffix [f]. *)
Definition of_Z (n : Z) : float := binary_normalize prec emax n 0 false.

Definition dec (m : positive) (k : positive) : float :=
  div (S754_finite false m 0) (S754_finite false (Pos.pow 10 k) 0).

Definition pzero : float := S754_zero false.
Definition nzero : float := S754_zero true.
Definition pinf : float := S754_infinity false.
Definition ninf : float := S754_infinity true.
Definition nan : float := S754_nan.
Definition one : float := of_Z 1.

End Float32.

Import Float32.

(** ** Assertions

    [Assert(c)] stops the program when [c] is false.  A computation that may
    stop is an [option]; [None] is the failed assertion. *)

Definition Assert (c : bool) : option unit :=
  if c then Some tt else None.

Definition bind {A B : Type} (c : option A) (k : A -> option B) : option B :=
  match c with
  | Some a => k a
  | None => None
  end.

Notation "x <- c ;; k" := (bind c (fun x => k))
  (at level 61, c at next level, right associativity).
Notation "c ;;; k" := (bind c (fun _ => k))
  (at level 61, right associativity).

(** ** The collaborator [Mathf] *)

Module Mathf.

(** Modelled from the spec: [Mathf::Clamp01] (Mathf.hpp is not part of the
    sources); "t clamped to [0,1]": a value below 0 becomes 0, a value above
    1 becomes 1, any other value is returned as it is. *)
Definition Clamp01 (value : float) : float :=
  if ltb value pzero then pzero
  else if gtb value one then one
  else value.

End Mathf.

(** ** The class [Vector3] *)

Module Vector3.

(** [struct { float x, y, z; }] (the union with [float m[3]] gives the same
    three floats a second name). *)
Record Vector3 : Type := mk { x : float; y : float; z : float }.

(** [hasNaNs]: [isnan(x) || isnan(y) || isnan(z)]. *)
Definition hasNaNs (v : Vector3) : bool :=
  isnan v.(x) || isnan v.(y) || isnan v.(z).

(** *** Constructors *)

(** [Vector3(float x, float y, float z)]: stores, then [Assert(!hasNaNs())]. *)
Definition Vector3_xyz (x0 y0 z0 : float) : option Vector3 :=
  let this := mk x0 y0 z0 in
  Assert (negb (hasNaNs this)) ;;; Some this.

(** [Vector3(float x, float y)]: [z(0)], then [Assert(!hasNaNs())]. *)
Definition Vector3_xy (x0 y0 : float) : option Vector3 :=
  let this := mk x0 y0 pzero in
  Assert (negb (hasNaNs this)) ;;; Some this.

(** [Vector3(float* array)]: copies [array[0]], [array[1]], [array[2]];
    the body is empty.  The buffer is a map from indices to floats. *)
Definition Vector3_array (array : nat -> float) : Vector3 :=
  mk (array 0%nat) (array 1%nat) (array 2%nat).

(** [Vector3()]: delegates to [Vector3(0, 0, 0)]. *)
Definition Vector3_default : option Vector3 :=
  Vector3_xyz pzero pzero pzero.

(** [Vector3::zero], "Shorthand for writing Vector3(0, 0, 0)". *)
Definition zero : Vector3 := mk pzero pzero pzero.

(** *** Magnitudes *)

Definition sqrMagnitude (this : Vector3) : float :=
  add (add (mul this.(x) this.(x)) (mul this.(y) this.(y)))
      (mul this.(z) this.(z)).

Definition magnitude (this : Vector3) : float :=
  sqrtf (add (add (mul this.(x) this.(x)) (mul this.(y) this.(y)))
             (mul this.(z) this.(z))).

Definition SqrMagnitude (a : Vector3) : float :=
  add (add (mul a.(x) a.(x)) (mul a.(y) a.(y))) (mul a.(z) a.(z)).

Definition Magnitude (a : Vector3) : float :=
  sqrtf (add (add (mul a.(x) a.(x)) (mul a.(y) a.(y))) (mul a.(z) a.(z))).

(** *** Operators

    A member operator takes the receiver [this] first.  A [void] compound
    assignment returns the receiver as it leaves it. *)

(** [operator=(const Vector3& v)] *)
Definition op_assign (this v : Vector3) : option Vector3 :=
  Assert (negb (hasNaNs v)) ;;; Some (mk v.(x) v.(y) v.(z)).

(** unary [operator-()] *)
Definition op_neg (this : Vector3) : option Vector3 :=
  Vector3_xyz (neg this.(x)) (neg this.(y)) (neg this.(z)).

(** [operator+(const Vector3& v)] *)
Definition op_add (this v : Vector3) : option Vector3 :=
  Assert (negb (hasNaNs v)) ;;;
  Vector3_xyz (add this.(x) v.(x)) (add this.(y) v.(y)) (add this.(z) v.(z)).

(** [operator-(const Vector3& v)] *)
Definition op_sub (this v : Vector3) : option Vector3 :=
  Assert (negb (hasNaNs v)) ;;;
  Vector3_xyz (sub this.(x) v.(x)) (sub this.(y) v.(y)) (sub this.(z) v.(z)).

(** [operator*(const Vector3& v)] *)
Definition op_mul (this v : Vector3) : option Vector3 :=
  Assert (negb (hasNaNs v)) ;;;
  Vector3_xyz (mul this.(x) v.(x)) (mul this.(y) v.(y)) (mul this.(z) v.(z)).

(** [operator+=(const Vector3& v)] *)
Definition op_add_assign (this v : Vector3) : option Vector3 :=
  Assert (negb (hasNaNs v)) ;;;
  Some (mk (add this.(x) v.(x)) (add this.(y) v.(y)) (add this.(z) v.(z))).

(** [operator-=(const Vector3& v)] *)
Definition op_sub_assign (this v : Vector3) : option Vector3 :=
  Assert (negb (hasNaNs v)) ;;;
  Some (mk (sub this.(x) v.(x)) (sub this.(y) v.(y)) (sub this.(z) v.(z))).

(** [operator+(const float f)] *)
Definition op_addf (this : Vector3) (f : float) : option Vector3 :=
  Assert (negb (isnan f)) ;;;
  Vector3_xyz (add this.(x) f) (add this.(y) f) (add this.(z) f).

(** [operator-(const float f)] *)
Definition op_subf (this : Vector3) (f : float) : option Vector3 :=
  Assert (negb (isnan f)) ;;;
  Vector3_xyz (sub this.(x) f) (sub this.(y) f) (sub this.(z) f).

(** [operator*(const float f)] *)
Definition op_mulf (this : Vector3) (f : float) : option Vector3 :=
  Assert (negb (isnan f)) ;;;
  Vector3_xyz (mul this.(x) f) (mul this.(y) f) (mul this.(z) f).

(** [operator/(const float f)]: [Assert(!isnan(f) && f != 0.f)] *)
Definition op_divf (this : Vector3) (f : float) : option Vector3 :=
  Assert (negb (isnan f) && neb f pzero) ;;;
  Vector3_xyz (div this.(x) f) (div this.(y) f) (div this.(z) f).

(** [operator+=(const float f)] *)
Definition op_addf_assign (this : Vector3) (f : float) : option Vector3 :=
  Assert (negb (isnan f)) ;;;
  Some (mk (add this.(x) f) (add this.(y) f) (add this.(z) f)).

(** [operator-=(const float f)] *)
Definition op_subf_assign (this : Vector3) (f : float) : option Vector3 :=
  Assert (negb (isnan f)) ;;;
  Some (mk (sub this.(x) f) (sub this.(y) f) (sub this.(z) f)).

(** [operator*=(const float f)] *)
Definition op_mulf_assign (this : Vector3) (f : float) : option Vector3 :=
  Assert (negb (isnan f)) ;;;
  Some (mk (mul this.(x) f) (mul this.(y) f) (mul this.(z) f)).

(** [operator/=(const float f)]: [Assert(!isnan(f))] *)
Definition op_divf_assign (this : Vector3) (f : float) : option Vector3 :=
  Assert (negb (isnan f)) ;;;
  Some (mk (div this.(x) f) (div this.(y) f) (div this.(z) f)).

(** friend [operator*(const float f, const Vector3& v)] *)
Definition op_fmul (f : float) (v : Vector3) : option Vector3 :=
  Assert (negb (isnan f) && negb (hasNaNs v)) ;;;
  Vector3_xyz (mul v.(x) f) (mul v.(y) f) (mul v.(z) f).

(** friend [operator/(const float f, const Vector3& v)] *)
Definition op_fdiv (f : float) (v : Vector3) : option Vector3 :=
  Assert (negb (isnan f) && negb (hasNaNs v)) ;;;
  Vector3_xyz (div f v.(x)) (div f v.(y)) (div f v.(z)).

(** The constant of [operator==] and [operator!=], [9.99999944E-11f]. *)
Definition kEqualityEpsilon : float := dec 999999944 19.

(** friend [operator==]: [SqrMagnitude(lhs - rhs) < 9.99999944E-11f] *)
Definition op_eq (lhs rhs : Vector3) : option bool :=
  d <- op_sub lhs rhs ;; Some (ltb (SqrMagnitude d) kEqualityEpsilon).

(** friend [operator!=]: [SqrMagnitude(lhs - rhs) >= 9.99999944E-11f] *)
Definition op_ne (lhs rhs : Vector3) : option bool :=
  d <- op_sub lhs rhs ;; Some (geb (SqrMagnitude d) kEqualityEpsilon).

(** *** Normalization *)

(** static [Normalize(const Vector3& value)] *)
Definition Normalize (value : Vector3) : option Vector3 :=
  let num := magnitude value in
  if gtb num (dec 1 5) then op_divf value num
  else Some zero.

(** [normalized()]: delegates to the static [Normalize]. *)
Definition normalized (this : Vector3) : option Vector3 :=
  Normalize this.

(** [void Normalize()]: the receiver after the call. *)
Definition Normalize_inplace (this : Vector3) : Vector3 :=
  let len := magnitude this in
  if gtb len (dec 1 5) then
    mk (div this.(x) len) (div this.(y) len) (div this.(z) len)
  else
    mk pzero pzero pzero.

(** *** Geometry *)

Definition Dot (lhs rhs : Vector3) : float :=
  add (add (mul lhs.(x) rhs.(x)) (mul lhs.(y) rhs.(y)))
      (mul lhs.(z) rhs.(z)).

Definition Cross (lhs rhs : Vector3) : option Vector3 :=
  Vector3_xyz
    (sub (mul lhs.(y) rhs.(z)) (mul lhs.(z) rhs.(y)))
    (sub (mul lhs.(z) rhs.(x)) (mul lhs.(x) rhs.(z)))
    (sub (mul lhs.(x) rhs.(y)) (mul lhs.(y) rhs.(x))).

Definition ClampMagnitude (vector : Vector3) (maxLength : float)
  : option Vector3 :=
  if gtb (sqrMagnitude vector) (mul maxLength maxLength) then
    n <- normalized vector ;; op_mulf n maxLength
  else Some vector.

Definition LerpUnClamped (a b : Vector3) (t : float) : option Vector3 :=
  Vector3_xyz (add a.(x) (mul (sub b.(x) a.(x)) t))
              (add a.(y) (mul (sub b.(y) a.(y)) t))
              (add a.(z) (mul (sub b.(z) a.(z)) t)).

Definition Lerp (a b : Vector3) (t : float) : option Vector3 :=
  let t := Mathf.Clamp01 t in
  Vector3_xyz (add a.(x) (mul (sub b.(x) a.(x)) t))
              (add a.(y) (mul (sub b.(y) a.(y)) t))
              (add a.(z) (mul (sub b.(z) a.(z)) t)).

(** [Angle] calls the C library's [acosf] and multiplies by
    [Mathf::Rad2Deg]; neither is part of the sources, so both are
    parameters of the definition.  The two [Normalize] calls are the
    arguments of [Dot]: both are evaluated before it. *)
Section Angle.

Variable acosf : float -> float.
Variable Rad2Deg : float.

Definition Angle (from to : Vector3) : option float :=
  nf <- Normalize from ;;
  nt <- Normalize to ;;
  Some (mul (acosf (Dot nf nt)) Rad2Deg).

End Angle.

(** *** The other inline functions of the header *)

(** [std::max(a, b)] is [(a < b) ? b : a] and [std::min(a, b)] is
    [(b < a) ? b : a] (the C++ standard library's definitions). *)
Definition std_max (a b : float) : float := if ltb a b then b else a.
Definition std_min (a b : float) : float := if ltb b a then b else a.

Definition Max (lhs rhs : Vector3) : option Vector3 :=
  Vector3_xyz (std_max lhs.(x) rhs.(x)) (std_max lhs.(y) rhs.(y))
              (std_max lhs.(z) rhs.(z)).

Definition Min (lhs rhs : Vector3) : option Vector3 :=
  Vector3_xyz (std_min lhs.(x) rhs.(x)) (std_min lhs.(y) rhs.(y))
              (std_min lhs.(z) rhs.(z)).

(** [void Scale(const Vector3& scale)]: the receiver after the call. *)
Definition Scale_inplace (this scale : Vector3) : Vector3 :=
  mk (mul this.(x) scale.(x)) (mul this.(y) scale.(y))
     (mul this.(z) scale.(z)).

(** static [Scale(a, b)] *)
Definition Scale (a b : Vector3) : option Vector3 :=
  Vector3_xyz (mul a.(x) b.(x)) (mul a.(y) b.(y)) (mul a.(z) b.(z)).

(** [Distance(a, b)]: [Magnitude(a - b)] *)
Definition Distance (a b : Vector3) : option float :=
  d <- op_sub a b ;; Some (Magnitude d).

(** [DistanceSquared(a, b)]: [SqrMagnitude(a - b)] *)
Definition DistanceSquared (a b : Vector3) : option float :=
  d <- op_sub a b ;; Some (SqrMagnitude d).

(** [Reflect]: [-2.0f * Dot(inNormal, inDirection) * inNormal + inDirection],
    that is a product of two floats, then the friend [float * Vector3],
    then the member [operator+]. *)
Definition Reflect (inDirection inNormal : Vector3) : option Vector3 :=
  t <- op_fmul (mul (neg (of_Z 2)) (Dot inNormal inDirection)) inNormal ;;
  op_add t inDirection.

(** *** Vocabulary of the statements *)

(** No field is a NaN or an infinity. *)
Definition finiteV (v : Vector3) : bool :=
  is_finite v.(x) && is_finite v.(y) && is_finite v.(z).

(** Some field is an infinity. *)
Definition hasInfs (v : Vector3) : bool :=
  is_inf v.(x) || is_inf v.(y) || is_inf v.(z).

(** Every field is a datum of binary32. *)
Definition validV (v : Vector3) : bool :=
  valid v.(x) && valid v.(y) && valid v.(z).

(** Field by field equality of floats ([==] of C++ on each field: the two
    zeros are equal). *)
Definition eqV (a b : Vector3) : bool :=
  eqb a.(x) b.(x) && eqb a.(y) b.(y) && eqb a.(z) b.(z).

(** The outcome of an operation is acceptable for the no-NaN invariant:
    the operation stopped, or the vector it left has no NaN field. *)
Definition NaNfree (o : option Vector3) : bool :=
  match o with
  | Some r => negb (hasNaNs r)
  | None => true
  end.

(** The constructors, the assignment and the arithmetic and compound
    assignment operators of the class, each with its operands. *)
Inductive call : Type :=
| CtorXYZ (x0 y0 z0 : float)
| CtorXY (x0 y0 : float)
| CtorArray (array : nat -> float)
| CtorDefault
| Assign (this v : Vector3)
| Neg (this : Vector3)
| Add (this v : Vector3)
| Sub (this v : Vector3)
| Mul (this v : Vector3)
| AddAssign (this v : Vector3)
| SubAssign (this v : Vector3)
| AddF (this : Vector3) (f : float)
| SubF (this : Vector3) (f : float)
| MulF (this : Vector3) (f : float)
| DivF (this : Vector3) (f : float)
| AddFAssign (this : Vector3) (f : float)
| SubFAssign (this : Vector3) (f : float)
| MulFAssign (this : Vector3) (f : float)
| DivFAssign (this : Vector3) (f : float)
| FMul (f : float) (v : Vector3)
| FDiv (f : float) (v : Vector3).

(** What the call leaves: the constructed vector, the returned vector, or
    the receiver after a compound assignment. *)
Definition run (c : call) : option Vector3 :=
  match c with
  | CtorXYZ x0 y0 z0 => Vector3_xyz x0 y0 z0
  | CtorXY x0 y0 => Vector3_xy x0 y0
  | CtorArray array => Some (Vector3_array array)
  | CtorDefault => Vector3_default
  | Assign this v => op_assign this v
  | Neg this => op_neg this
  | Add this v => op_add this v
  | Sub this v => op_sub this v
  | Mul this v => op_mul this v
  | AddAssign this v => op_add_assign this v
  | SubAssign this v => op_sub_assign this v
  | AddF this f => op_addf this f
  | SubF this f => op_subf this f
  | MulF this f => op_mulf this f
  | DivF this f => op_divf this f
  | AddFAssign this f => op_addf_assign this f
  | SubFAssign this f => op_subf_assign this f
  | MulFAssign this f => op_mulf_assign this f
  | DivFAssign this f => op_divf_assign this f
  | FMul f v => op_fmul f v
  | FDiv f v => op_fdiv f v
  end.




(** The calls that build their result with [Vector3(x, y, z)] or
    [Vector3(x, y)], or copy an operand they have asserted. *)
Definition checked (c : call) : bool :=
  match c with
  | CtorXYZ _ _ _ | CtorXY _ _ | CtorDefault | Assign _ _ | Neg _
  | Add _ _ | Sub _ _ | Mul _ _
  | AddF _ _ | SubF _ _ | MulF _ _ | DivF _ _ | FMul _ _ | FDiv _ _ => true
  | _ => false
  end.


(** Field by field order: every field of [a] is at most the field of
    [b]. *)
Definition leV (a b : Vector3) : bool :=
  leb a.(x) b.(x) && leb a.(y) b.(y) && leb a.(z) b.(z).

(** Some field is a zero, of either sign. *)
Definition hasZeros (v : Vector3) : bool :=
  is_zero v.(x) || is_zero v.(y) || is_zero v.(z).

(** Every field is a zero, of either sign. *)
Definition zeroV (v : Vector3) : bool :=
  is_zero v.(x) && is_zero v.(y) && is_zero v.(z).

(** The vector of three integers. *)
Definition ofZ3 (a b c : Z) : Vector3 := mk (of_Z a) (of_Z b) (of_Z c).

End Vector3.

Import Vector3.

(** ** Exact values

    The real number a float stands for, and the exact quantities that the
    operations of the header approximate.  The accuracy statements compare
    the two. *)

Module Exact.

Local Open Scope R_scope.

(** [2^e] *)
Definition bpow (e : Z) : R := powerRZ 2 e.

Definition sgn (s : bool) : R := if s then -1 else 1.

(** The value of a float; a zero, and by convention an infinity or a NaN,
    has the value 0. *)
Definition B2R (a : float) : R :=
  match a with
  | S754_finite s m e => IZR (cond_Zopp s (Zpos m)) * bpow e
  | _ => 0
  end.

(** The unit roundoff of binary32 and half its smallest positive
    datum. *)
Definition u : R := bpow (-24).
Definition eta : R := bpow (-150).

(** The position of a real [t] relative to the integer mantissa of a
    shift record: equal to it, strictly in the first half of the unit above
    it, at the middle, or strictly in the second half. *)
Definition inb (mrs : shr_record) (t : R) : Prop :=
  match shr_r mrs, shr_s mrs with
  | false, false => t = IZR (shr_m mrs)
  | false, true => IZR (shr_m mrs) < t < IZR (shr_m mrs) + / 2
  | true, false => t = IZR (shr_m mrs) + / 2
  | true, true => IZR (shr_m mrs) + / 2 < t < IZR (shr_m mrs) + 1
  end.

(** What a location says of [t], for a mantissa [m]. *)
Definition located (m : Z) (l : location) (t : R) : Prop :=
  match l with
  | loc_Exact => t = IZR m
  | loc_Inexact Lt => IZR m < t < IZR m + / 2
  | loc_Inexact Eq => t = IZR m + / 2
  | loc_Inexact Gt => IZR m + / 2 < t < IZR m + 1
  end.

(** The exact squared length of a vector of floats. *)
Definition sqrLength (v : Vector3) : R :=
  B2R v.(x) * B2R v.(x) + B2R v.(y) * B2R v.(y) + B2R v.(z) * B2R v.(z).

(** The exact squared distance of two vectors of floats. *)
Definition sqrDistance (a b : Vector3) : R :=
  (B2R a.(x) - B2R b.(x)) * (B2R a.(x) - B2R b.(x))
  + (B2R a.(y) - B2R b.(y)) * (B2R a.(y) - B2R b.(y))
  + (B2R a.(z) - B2R b.(z)) * (B2R a.(z) - B2R b.(z)).

(** The exact dot product of two vectors of floats, and the sum of the
    absolute values of its three terms. *)
Definition dot (a b : Vector3) : R :=
  B2R a.(x) * B2R b.(x) + B2R a.(y) * B2R b.(y) + B2R a.(z) * B2R b.(z).

Definition absDot (a b : Vector3) : R :=
  Rabs (B2R a.(x) * B2R b.(x)) + Rabs (B2R a.(y) * B2R b.(y))
  + Rabs (B2R a.(z) * B2R b.(z)).

(** [b - a] is computed without rounding. *)
Definition exact_difference (b a : float) : Prop :=
  is_finite (sub b a) = true /\ B2R (sub b a) = B2R b - B2R a.

(** Every field is below [c] in absolute value. *)
Definition boundedV (c : R) (v : Vector3) : Prop :=
  Rabs (B2R v.(x)) < c /\ Rabs (B2R v.(y)) < c /\ Rabs (B2R v.(z)) < c.

(** Every field of [r] is the exact interpolation [a + (b - a) * T] to
    within [2^-22] of [|a| + |(b - a) * T|], and [2^-147]. *)
Definition interpolates (a b r : Vector3) (T : R) : Prop :=
  Rabs (B2R r.(x) - (B2R a.(x) + (B2R b.(x) - B2R a.(x)) * T))
  <= bpow (-22) * (Rabs (B2R a.(x))
                   + Rabs ((B2R b.(x) - B2R a.(x)) * T)) + bpow (-147)
  /\ Rabs (B2R r.(y) - (B2R a.(y) + (B2R b.(y) - B2R a.(y)) * T))
     <= bpow (-22) * (Rabs (B2R a.(y))
                      + Rabs ((B2R b.(y) - B2R a.(y)) * T)) + bpow (-147)
  /\ Rabs (B2R r.(z) - (B2R a.(z) + (B2R b.(z) - B2R a.(z)) * T))
     <= bpow (-22) * (Rabs (B2R a.(z))
                      + Rabs ((B2R b.(z) - B2R a.(z)) * T)) + bpow (-147).

End Exact.

(** * Properties *)

(** ** binary32 arithmetic: algebraic facts

    These hold for every datum of [spec_float], canonical or not. *)

Module Float32Facts.

Lemma mul_comm (a b : float) : mul a b = mul b a.
Proof.
  destruct a as [sa|sa| |sa ma ea], b as [sb|sb| |sb mb eb]; simpl;
    try reflexivity; try (now rewrite xorb_comm).
  unfold mul, SFmul.
  now rewrite xorb_comm, Pos.mul_comm, Z.add_comm.
Qed.

Lemma add_comm (a b : float) : add a b = add b a.
Proof.
  destruct a as [[|]|[|]| |sa ma ea], b as [[|]|[|]| |sb mb eb]; simpl;
    try reflexivity.
  unfold add, SFadd.
  now rewrite Z.add_comm, (Z.min_comm ea eb).
Qed.

(** Negating a rounded value is rounding with the other sign. *)
Lemma opp_binary_round_aux (s : bool) (m e : Z) (l : location) :
  SFopp (binary_round_aux prec emax s m e l)
  = binary_round_aux prec emax (negb s) m e l.
Proof.
  unfold binary_round_aux.
  destruct (shr_fexp prec emax m e l) as [mrs1 e1].
  destruct (shr_fexp prec emax _ e1 loc_Exact) as [mrs2 e2].
  destruct (shr_m mrs2); try reflexivity.
  now destruct (e2 <=? emax - prec).
Qed.

Lemma opp_binary_round (s : bool) (m : positive) (e : Z) :
  SFopp (binary_round prec emax s m e) = binary_round prec emax (negb s) m e.
Proof.
  unfold binary_round.
  destruct (shl_align m e _) as [mz ez].
  apply opp_binary_round_aux.
Qed.

(** *** No operation invents a NaN out of a non-negative mantissa *)

Lemma shr_1_nonneg (mrs : shr_record) :
  0 <= shr_m mrs -> 0 <= shr_m (shr_1 mrs).
Proof.
  destruct mrs as [[|[p|p|]|p] r s]; simpl; intros H; lia.
Qed.

Lemma iter_pos_shr_1_nonneg (n : positive) (mrs : shr_record) :
  0 <= shr_m mrs -> 0 <= shr_m (iter_pos shr_1 n mrs).
Proof.
  revert mrs.
  induction n as [n IH|n IH|]; intros mrs H; simpl.
  - apply IH, IH, shr_1_nonneg, H.
  - apply IH, IH, H.
  - apply shr_1_nonneg, H.
Qed.

Lemma shr_nonneg (mrs : shr_record) (e n : Z) :
  0 <= shr_m mrs -> 0 <= shr_m (fst (shr mrs e n)).
Proof.
  intros H. destruct n as [|p|p]; simpl; auto.
  now apply iter_pos_shr_1_nonneg.
Qed.

Lemma shr_record_of_loc_m (m : Z) (l : location) :
  shr_m (shr_record_of_loc m l) = m.
Proof. now destruct l as [|[| |]]. Qed.

Lemma shr_fexp_nonneg (m e : Z) (l : location) :
  0 <= m -> 0 <= shr_m (fst (shr_fexp prec emax m e l)).
Proof.
  intros H. unfold shr_fexp.
  apply shr_nonneg. now rewrite shr_record_of_loc_m.
Qed.

Lemma round_nearest_even_nonneg (m : Z) (l : location) :
  0 <= m -> 0 <= round_nearest_even m l.
Proof.
  intros H. destruct l as [|[| |]]; simpl; try lia.
  destruct (Z.even m); lia.
Qed.

Lemma binary_round_aux_not_nan (s : bool) (m e : Z) (l : location) :
  0 <= m -> isnan (binary_round_aux prec emax s m e l) = false.
Proof.
  intros H. unfold binary_round_aux.
  pose proof (shr_fexp_nonneg m e l H) as H1.
  destruct (shr_fexp prec emax m e l) as [mrs1 e1]; simpl in H1.
  pose proof (shr_fexp_nonneg _ e1 loc_Exact
                (round_nearest_even_nonneg _ (loc_of_shr_record mrs1) H1)) as H2.
  destruct (shr_fexp prec emax _ e1 loc_Exact) as [mrs2 e2]; simpl in H2.
  destruct (shr_m mrs2) as [|p|p]; try reflexivity.
  - now destruct (e2 <=? emax - prec).
  - lia.
Qed.

Lemma binary_round_not_nan (s : bool) (m : positive) (e : Z) :
  isnan (binary_round prec emax s m e) = false.
Proof.
  unfold binary_round.
  destruct (shl_align m e _) as [mz ez].
  now apply binary_round_aux_not_nan.
Qed.

Lemma binary_normalize_not_nan (m e : Z) (sz : bool) :
  isnan (binary_normalize prec emax m e sz) = false.
Proof.
  destruct m; simpl; auto using binary_round_not_nan.
Qed.

(** *** When an operation returns a NaN *)

Lemma mul_isnan (a b : float) :
  isnan (mul a b)
  = isnan a || isnan b || (is_inf a && is_zero b) || (is_zero a && is_inf b).
Proof.
  destruct a as [sa|sa| |sa ma ea], b as [sb|sb| |sb mb eb]; try reflexivity.
  unfold mul, SFmul. now rewrite binary_round_aux_not_nan.
Qed.

Lemma add_isnan (a b : float) :
  isnan (add a b)
  = isnan a || isnan b
    || (is_inf a && is_inf b && xorb (signbit a) (signbit b)).
Proof.
  destruct a as [[|]|[|]| |sa ma ea], b as [[|]|[|]| |sb mb eb];
    try reflexivity.
  unfold add, SFadd. now rewrite binary_normalize_not_nan.
Qed.

Lemma sub_isnan (a b : float) :
  isnan (sub a b)
  = isnan a || isnan b
    || (is_inf a && is_inf b && negb (xorb (signbit a) (signbit b))).
Proof.
  destruct a as [[|]|[|]| |sa ma ea], b as [[|]|[|]| |sb mb eb];
    try reflexivity.
  unfold sub, SFsub. now rewrite binary_normalize_not_nan.
Qed.

Lemma div_core_nonneg (m1 m2 : positive) (e1 e2 : Z) :
  0 <= fst (fst (SFdiv_core_binary prec emax (Zpos m1) e1 (Zpos m2) e2)).
Proof.
  unfold SFdiv_core_binary.
  set (s := _ - _ - _).
  set (m' := match s with Z0 => Zpos m1 | Zpos _ => _ | Zneg _ => _ end).
  assert (Hm : 0 <= m').
  { subst m'. destruct s; try lia. apply Z.shiftl_nonneg. lia. }
  pose proof (Z_div_mod m' (Zpos m2) eq_refl) as H.
  destruct (Z.div_eucl m' (Zpos m2)) as [q r]; simpl.
  nia.
Qed.

Lemma div_isnan (a b : float) :
  isnan (div a b)
  = isnan a || isnan b || (is_inf a && is_inf b) || (is_zero a && is_zero b).
Proof.
  destruct a as [sa|sa| |sa ma ea], b as [sb|sb| |sb mb eb]; try reflexivity.
  unfold div, SFdiv.
  pose proof (div_core_nonneg ma mb ea eb) as H.
  destruct (SFdiv_core_binary prec emax (Zpos ma) ea (Zpos mb) eb)
    as [[mz ez] lz]; simpl in H.
  now rewrite binary_round_aux_not_nan.
Qed.

Lemma sqrt_core_nonneg (m : positive) (e : Z) :
  0 <= fst (fst (SFsqrt_core_binary prec emax (Zpos m) e)).
Proof.
  unfold SFsqrt_core_binary.
  set (s := e - _).
  set (m' := match s with Z0 => Zpos m | Zpos _ => _ | Zneg _ => _ end).
  pose proof (Z.sqrtrem_sqrt m') as H.
  destruct (Z.sqrtrem m') as [q r]; simpl in *.
  subst q. apply Z.sqrt_nonneg.
Qed.

Lemma sqrtf_isnan (a : float) :
  isnan (sqrtf a) = isnan a || (signbit a && negb (is_zero a)).
Proof.
  destruct a as [[|]|[|]| |[|] ma ea]; try reflexivity.
  unfold sqrtf, SFsqrt.
  pose proof (sqrt_core_nonneg ma ea) as H.
  destruct (SFsqrt_core_binary prec emax (Zpos ma) ea) as [[mz ez] lz];
    simpl in H.
  now rewrite binary_round_aux_not_nan.
Qed.

(** *** Signs *)

Lemma binary_round_aux_sign (s : bool) (m e : Z) (l : location) :
  isnan (binary_round_aux prec emax s m e l) = false ->
  signbit (binary_round_aux prec emax s m e l) = s.
Proof.
  unfold binary_round_aux.
  destruct (shr_fexp prec emax m e l) as [mrs1 e1].
  destruct (shr_fexp prec emax _ e1 loc_Exact) as [mrs2 e2].
  destruct (shr_m mrs2); try reflexivity; try discriminate.
  now destruct (e2 <=? emax - prec).
Qed.

Lemma binary_round_sign (s : bool) (m : positive) (e : Z) :
  signbit (binary_round prec emax s m e) = s.
Proof.
  pose proof (binary_round_not_nan s m e) as H. revert H.
  unfold binary_round.
  destruct (shl_align m e _) as [mz ez].
  apply binary_round_aux_sign.
Qed.

Lemma mul_self_sign (a : float) : signbit (mul a a) = false.
Proof.
  destruct a as [[|]|[|]| |sa ma ea]; try reflexivity.
  unfold mul, SFmul.
  rewrite binary_round_aux_sign by (apply binary_round_aux_not_nan; lia).
  apply xorb_nilpotent.
Qed.

Lemma add_nonneg_sign (a b : float) :
  signbit a = false -> signbit b = false -> signbit (add a b) = false.
Proof.
  destruct a as [sa|sa| |sa ma ea], b as [sb|sb| |sb mb eb]; simpl;
    intros Ha Hb; subst; try reflexivity.
  unfold add, SFadd. simpl. apply binary_round_sign.
Qed.

(** *** Comparisons *)

Lemma SFcompare_antisym (a b : float) :
  SFcompare b a = option_map CompOpp (SFcompare a b).
Proof.
  destruct a as [sa|[|]| |[|] ma ea], b as [sb|[|]| |[|] mb eb];
    try reflexivity; try (now destruct sa); try (now destruct sb); simpl;
    rewrite (Z.compare_antisym ea eb : (eb ?= ea) = CompOpp (ea ?= eb));
    destruct (ea ?= eb); simpl; try reflexivity;
    rewrite (ZC4 mb ma); try reflexivity.
Qed.

Lemma SFcompare_not_nan (a b : float) :
  isnan a = false -> isnan b = false -> exists c, SFcompare a b = Some c.
Proof.
  destruct a, b; simpl; try discriminate; eexists; reflexivity.
Qed.

(** [a >= b] is the negation of [a < b] as long as no NaN is compared. *)
Lemma geb_negb_ltb (a b : float) :
  isnan a = false -> isnan b = false -> geb a b = negb (ltb a b).
Proof.
  intros Ha Hb. unfold geb, leb, ltb, SFleb, SFltb.
  rewrite (SFcompare_antisym a b).
  destruct (SFcompare_not_nan a b Ha Hb) as [c ->].
  now destruct c.
Qed.

Lemma eqb_refl (a : float) : isnan a = false -> eqb a a = true.
Proof.
  destruct a as [sa|[|]| |[|] ma ea]; try reflexivity; try discriminate;
    intros _; unfold eqb, SFeqb; simpl;
    now rewrite Z.compare_refl, Pcompare_refl.
Qed.

Lemma ltb_not_nan_r (a b : float) : ltb a b = true -> isnan b = false.
Proof. destruct a, b; simpl; try reflexivity; discriminate. Qed.

(** *** Differences *)

Lemma sub_diag (a : float) : is_finite a = true -> sub a a = pzero.
Proof.
  destruct a as [[|]|[|]| |sa ma ea]; try reflexivity; try discriminate.
  intros _. unfold sub, SFsub. now rewrite Z.sub_diag.
Qed.

Lemma binary_normalize_opp (m e : Z) :
  m <> 0 ->
  SFopp (binary_normalize prec emax m e false)
  = binary_normalize prec emax (- m) e false.
Proof.
  destruct m; simpl; intros H; try easy; apply opp_binary_round.
Qed.

(** [-(b - a)] and [a - b] are the same float, or two zeros. *)
Lemma neg_sub (a b : float) :
  neg (sub b a) = sub a b
  \/ (is_zero (sub b a) = true /\ is_zero (sub a b) = true).
Proof.
  destruct a as [[|]|[|]| |sa ma ea], b as [[|]|[|]| |sb mb eb];
    try (left; reflexivity); try (right; split; reflexivity);
    try (left; simpl; now rewrite negb_involutive).
  unfold neg, sub, SFsub.
  rewrite (Z.min_comm eb ea).
  set (A := cond_Zopp sa _). set (B := cond_Zopp sb _).
  destruct (Z.eq_dec (B - A) 0) as [E|E].
  - right. rewrite E. replace (A - B) with 0 by lia. now split.
  - left. rewrite binary_normalize_opp by assumption.
    f_equal. lia.
Qed.

Lemma is_finite_not_nan (a : float) : is_finite a = true -> isnan a = false.
Proof. now destruct a. Qed.

(** *** Squares and their sums *)

Lemma mul_self_isnan (a : float) : isnan (mul a a) = isnan a.
Proof. rewrite mul_isnan. now destruct a. Qed.

Lemma mul_self_inf (a : float) : is_inf a = true -> mul a a = pinf.
Proof. now destruct a as [|[|]| |]. Qed.

Lemma add_pinf_l (b : float) :
  isnan b = false -> signbit b = false -> add pinf b = pinf.
Proof. now destruct b as [|[|]| |]. Qed.

Lemma add_pinf_r (a : float) :
  isnan a = false -> signbit a = false -> add a pinf = pinf.
Proof. rewrite add_comm. apply add_pinf_l. Qed.

Lemma add_nonneg_isnan (a b : float) :
  signbit a = false -> signbit b = false ->
  isnan (add a b) = isnan a || isnan b.
Proof.
  intros Ha Hb. rewrite add_isnan, Ha, Hb. simpl.
  now rewrite andb_false_r, orb_false_r.
Qed.

(** The literals of the source, as binary32 data. *)
Lemma lit_1e_5 : dec 1 5 = S754_finite false 10995116 (-40).
Proof. reflexivity. Qed.

Lemma lit_one : one = S754_finite false 8388608 (-23).
Proof. reflexivity. Qed.

(** A float above [1E-05f] is [+inf] or a positive finite float. *)
Lemma gt_1e_5_inv (num : float) :
  gtb num (dec 1 5) = true ->
  num = pinf \/ exists m e, num = S754_finite false m e.
Proof.
  rewrite lit_1e_5.
  destruct num as [s|[|]| |[|] m e]; simpl; try discriminate; eauto.
Qed.


(** *** Digits and shifts *)

Lemma fexp_eq (z : Z) : fexp prec emax z = Z.max (z - 24) (-149).
Proof. reflexivity. Qed.

Lemma fexp_mono (u w : Z) : u <= w -> fexp prec emax u <= fexp prec emax w.
Proof. rewrite !fexp_eq. lia. Qed.

Lemma digits2_pos_bounds (p : positive) :
  2 ^ (Z.pos (digits2_pos p) - 1) <= Z.pos p < 2 ^ Z.pos (digits2_pos p).
Proof.
  induction p as [p IH|p IH|]; simpl digits2_pos.
  - rewrite Pos2Z.inj_succ.
    replace (Z.succ (Z.pos (digits2_pos p)) - 1)
      with (Z.succ (Z.pos (digits2_pos p) - 1)) by lia.
    rewrite !Z.pow_succ_r by lia. lia.
  - rewrite Pos2Z.inj_succ.
    replace (Z.succ (Z.pos (digits2_pos p)) - 1)
      with (Z.succ (Z.pos (digits2_pos p) - 1)) by lia.
    rewrite !Z.pow_succ_r by lia. lia.
  - simpl. lia.
Qed.

Lemma Zdigits2_nonneg (m : Z) : 0 <= Zdigits2 m.
Proof. destruct m; simpl; lia. Qed.

Lemma Zdigits2_pos (m : Z) : 0 < m -> 0 < Zdigits2 m.
Proof. destruct m; simpl; lia. Qed.

Lemma Zdigits2_bounds (m : Z) :
  0 < m -> 2 ^ (Zdigits2 m - 1) <= m < 2 ^ Zdigits2 m.
Proof.
  destruct m as [|p|p]; try lia. intros _. apply digits2_pos_bounds.
Qed.

(** [Zdigits2 m] is the only [d] with [2^(d-1) <= m < 2^d]. *)
Lemma Zdigits2_unique (m d : Z) :
  0 < d -> 2 ^ (d - 1) <= m < 2 ^ d -> Zdigits2 m = d.
Proof.
  intros Hd [H1 H2].
  assert (Hm : 0 < m) by (pose proof (Z.pow_pos_nonneg 2 (d - 1)); lia).
  pose proof (Zdigits2_bounds m Hm) as [B1 B2].
  pose proof (Zdigits2_pos m Hm) as Hp.
  destruct (Z.lt_trichotomy (Zdigits2 m) d) as [L|[E|G]]; [|assumption|].
  - assert (2 ^ Zdigits2 m <= 2 ^ (d - 1))
      by (apply Z.pow_le_mono_r; lia). lia.
  - assert (2 ^ d <= 2 ^ (Zdigits2 m - 1))
      by (apply Z.pow_le_mono_r; lia). lia.
Qed.

Lemma Zdigits2_mono (u w : Z) : 0 <= u <= w -> Zdigits2 u <= Zdigits2 w.
Proof.
  intros [H0 H].
  destruct (Z.eq_dec u 0) as [->|Hu]; [apply Zdigits2_nonneg|].
  assert (Hu' : 0 < u) by lia. assert (Hw : 0 < w) by lia.
  pose proof (Zdigits2_bounds u Hu') as [B1 _].
  pose proof (Zdigits2_bounds w Hw) as [_ B2].
  destruct (Z_lt_le_dec (Zdigits2 w) (Zdigits2 u)) as [L|L]; [|assumption].
  assert (2 ^ Zdigits2 w <= 2 ^ (Zdigits2 u - 1))
    by (apply Z.pow_le_mono_r; lia). lia.
Qed.

Lemma Zdigits2_succ (m : Z) : 0 <= m -> Zdigits2 (m + 1) <= Zdigits2 m + 1.
Proof.
  intros H. destruct (Z.eq_dec m 0) as [->|Hm]; [simpl; lia|].
  assert (Hm' : 0 < m) by lia.
  pose proof (Zdigits2_bounds m Hm') as [_ B2].
  pose proof (Zdigits2_pos m Hm') as Hp.
  assert (Hs : 0 < m + 1) by lia.
  pose proof (Zdigits2_bounds (m + 1) Hs) as [C1 _].
  destruct (Z_lt_le_dec (Zdigits2 m + 1) (Zdigits2 (m + 1))) as [L|L];
    [|assumption].
  assert (2 ^ (Zdigits2 m + 1) <= 2 ^ (Zdigits2 (m + 1) - 1))
    by (apply Z.pow_le_mono_r; lia).
  rewrite Z.pow_add_r in H0 by lia. lia.
Qed.

(** One step of [shr_1] on a non-negative mantissa removes one digit. *)
Lemma shr_1_digits (mrs : shr_record) :
  0 <= shr_m mrs ->
  0 <= shr_m (shr_1 mrs)
  /\ Zdigits2 (shr_m (shr_1 mrs)) = Z.max (Zdigits2 (shr_m mrs) - 1) 0.
Proof.
  destruct mrs as [[|[p|p|]|p] r s];
    cbn [shr_1 shr_m Zdigits2 digits2_pos]; intros H;
    rewrite ?Pos2Z.inj_succ; lia.
Qed.

(** Induction over the iterations of [iter_pos]. *)
Lemma iter_pos_count {A : Type} (f : A -> A) (P : Z -> A -> Prop) :
  (forall k a, 0 <= k -> P k a -> P (k + 1) (f a)) ->
  forall (n : positive) (k : Z) (a : A),
    0 <= k -> P k a -> P (k + Z.pos n) (iter_pos f n a).
Proof.
  intros step. induction n as [n IH|n IH|]; intros k a Hk Ha; simpl.
  - replace (k + Z.pos n~1) with (k + 1 + Z.pos n + Z.pos n) by lia.
    apply IH; [lia|]. apply IH; [lia|]. now apply step.
  - replace (k + Z.pos n~0) with (k + Z.pos n + Z.pos n) by lia.
    apply IH; [lia|]. now apply IH.
  - now apply step.
Qed.

Lemma iter_shr_1_digits (n : positive) (mrs : shr_record) :
  0 <= shr_m mrs ->
  0 <= shr_m (iter_pos shr_1 n mrs)
  /\ Zdigits2 (shr_m (iter_pos shr_1 n mrs))
     = Z.max (Zdigits2 (shr_m mrs) - Z.pos n) 0.
Proof.
  intros H.
  apply (iter_pos_count shr_1
           (fun k r => 0 <= shr_m r
                       /\ Zdigits2 (shr_m r)
                          = Z.max (Zdigits2 (shr_m mrs) - k) 0)
           ) with (k := 0) (n := n) (a := mrs); try lia.
  - intros k a Hk [H0 Hd].
    destruct (shr_1_digits a H0) as [H1 H2]. split; [assumption|].
    rewrite H2, Hd. lia.
  - split; [assumption|]. pose proof (Zdigits2_nonneg (shr_m mrs)). lia.
Qed.

(** What [shr_fexp] leaves of a non-negative mantissa: the exponent of
    the format (or the given one when it is larger), and the digits that
    remain above it. *)
Lemma shr_fexp_digits_gen (m e : Z) (l : location) :
  0 <= m ->
  let mrs := fst (shr_fexp prec emax m e l) in
  let e' := snd (shr_fexp prec emax m e l) in
  e' = Z.max e (fexp prec emax (Zdigits2 m + e))
  /\ 0 <= shr_m mrs <= m
  /\ (0 < shr_m mrs -> Zdigits2 (shr_m mrs) + e' = Zdigits2 m + e)
  /\ (shr_m mrs = 0 -> m = 0 \/ e' = -149).
Proof.
  intros Hm. unfold shr_fexp.
  set (E := fexp prec emax (Zdigits2 m + e)) in *.
  assert (HE : E = Z.max (Zdigits2 m + e - 24) (-149)) by reflexivity.
  pose proof (Zdigits2_nonneg m) as Hd.
  destruct (E - e) as [|n|n] eqn:En; simpl.
  - rewrite shr_record_of_loc_m. repeat split; lia.
  - rewrite <- En.
    destruct (iter_shr_1_digits n (shr_record_of_loc m l)) as [H0 H1];
      rewrite shr_record_of_loc_m in *; [assumption|].
    split; [lia|]. split; [split; [assumption|]|split].
    + destruct (Z.eq_dec (shr_m (iter_pos shr_1 n (shr_record_of_loc m l))) 0)
        as [->|Hn]; [assumption|].
      assert (Hp : 0 < shr_m (iter_pos shr_1 n (shr_record_of_loc m l)))
        by lia.
      pose proof (Zdigits2_pos _ Hp) as Hq.
      destruct (Z_lt_le_dec m
                  (shr_m (iter_pos shr_1 n (shr_record_of_loc m l))))
        as [L|L]; [|assumption].
      pose proof (Zdigits2_mono m _ (conj Hm (Z.lt_le_incl _ _ L))). lia.
    + intros H. pose proof (Zdigits2_pos _ H). lia.
    + intros H. rewrite H in H1. simpl in H1. right. lia.
  - rewrite shr_record_of_loc_m. repeat split; lia.
Qed.

Lemma shr_fexp_digits (m e : Z) (l : location) :
  0 <= m -> e <= fexp prec emax (Zdigits2 m + e) ->
  let mrs := fst (shr_fexp prec emax m e l) in
  let e' := snd (shr_fexp prec emax m e l) in
  e' = fexp prec emax (Zdigits2 m + e)
  /\ 0 <= shr_m mrs
  /\ (0 < shr_m mrs -> Zdigits2 (shr_m mrs) + e' = Zdigits2 m + e)
  /\ (shr_m mrs = 0 -> e' = -149).
Proof.
  intros Hm He.
  destruct (shr_fexp_digits_gen m e l Hm) as (E & P & D & Z0).
  cbv zeta. split; [lia|]. split; [lia|]. split; [assumption|].
  intros H. destruct (Z0 H) as [->|]; [|assumption].
  rewrite E. simpl Zdigits2 in *. rewrite fexp_eq in *. lia.
Qed.

Lemma round_nearest_even_bounds (m : Z) (l : location) :
  m <= round_nearest_even m l <= m + 1.
Proof.
  destruct l as [|[| |]]; simpl; try lia.
  destruct (Z.even m); lia.
Qed.

(** *** Every rounded result is a datum of the format *)

Lemma binary_round_aux_valid (s : bool) (m e : Z) (l : location) :
  0 <= m -> e <= fexp prec emax (Zdigits2 m + e) ->
  valid (binary_round_aux prec emax s m e l) = true.
Proof.
  intros Hm He. unfold binary_round_aux.
  pose proof (shr_fexp_digits m e l Hm He) as (E1 & P1 & D1 & Z1).
  destruct (shr_fexp prec emax m e l) as [mrs1 e1]. simpl in E1, P1, D1, Z1.
  pose proof (round_nearest_even_bounds (shr_m mrs1) (loc_of_shr_record mrs1))
    as [R1 R2].
  set (m1 := round_nearest_even (shr_m mrs1) (loc_of_shr_record mrs1)) in *.
  assert (He1 : e1 <= fexp prec emax (Zdigits2 m1 + e1)).
  { destruct (Z.eq_dec (shr_m mrs1) 0) as [Hz|Hz].
    - rewrite (Z1 Hz), fexp_eq. lia.
    - assert (Hp : 0 < shr_m mrs1) by lia.
      specialize (D1 Hp).
      pose proof (Zdigits2_mono (shr_m mrs1) m1 (conj P1 R1)) as Hd.
      rewrite E1 at 1. rewrite <- D1. apply fexp_mono. lia. }
  assert (Hm1 : 0 <= m1) by lia.
  pose proof (shr_fexp_digits m1 e1 loc_Exact Hm1 He1) as (E2 & P2 & D2 & Z2).
  destruct (shr_fexp prec emax m1 e1 loc_Exact) as [mrs2 e2].
  simpl in E2, P2, D2, Z2.
  destruct (shr_m mrs2) as [|m2|m2] eqn:Em; try reflexivity.
  destruct (e2 <=? emax - prec) eqn:Le; [|reflexivity].
  unfold valid, valid_binary, bounded, canonical_mantissa.
  rewrite Le, andb_true_r. apply Z.eqb_eq.
  specialize (D2 ltac:(lia)). cbn [Zdigits2] in D2. rewrite D2.
  now symmetry.
Qed.

Lemma digits2_pos_iter_xO (m d : positive) :
  Z.pos (digits2_pos (Pos.iter xO m d)) = Z.pos (digits2_pos m) + Z.pos d.
Proof.
  induction d as [|d IH] using Pos.peano_ind.
  - simpl. rewrite Pos2Z.inj_succ. lia.
  - rewrite Pos.iter_succ. cbn [digits2_pos].
    rewrite !Pos2Z.inj_succ, IH. lia.
Qed.

Lemma binary_round_valid (s : bool) (m : positive) (e : Z) :
  valid (binary_round prec emax s m e) = true.
Proof.
  unfold binary_round, shl_align.
  set (E := fexp prec emax (Z.pos (digits2_pos m) + e)).
  destruct (E - e) as [|d|d] eqn:Ed;
    apply binary_round_aux_valid; cbn [Zdigits2]; try lia.
  rewrite digits2_pos_iter_xO.
  replace (Z.pos (digits2_pos m) + Z.pos d + E)
    with (Z.pos (digits2_pos m) + e) by lia.
  fold E. lia.
Qed.

Lemma binary_normalize_valid (m e : Z) (sz : bool) :
  valid (binary_normalize prec emax m e sz) = true.
Proof. destruct m; simpl; auto using binary_round_valid. Qed.

Lemma add_valid (a b : float) :
  valid a = true -> valid b = true -> valid (add a b) = true.
Proof.
  destruct a as [[|]|[|]| |sa ma ea], b as [[|]|[|]| |sb mb eb];
    intros Ha Hb; try reflexivity; try assumption.
  apply binary_normalize_valid.
Qed.

Lemma sub_valid (a b : float) :
  valid a = true -> valid b = true -> valid (sub a b) = true.
Proof.
  destruct a as [[|]|[|]| |sa ma ea], b as [[|]|[|]| |sb mb eb];
    intros Ha Hb; try reflexivity; try assumption.
  apply binary_normalize_valid.
Qed.

(** Multiplying by [1.0f] changes nothing. *)
Lemma mul_one_r (a : float) : valid a = true -> mul a one = a.
Proof.
  destruct a as [s|s| |s m e]; try reflexivity.
  - simpl. now rewrite xorb_false_r.
  - simpl. now rewrite xorb_false_r.
  - unfold valid, valid_binary, bounded, canonical_mantissa.
    intros H. apply andb_true_iff in H. destruct H as [Hc He].
    apply Z.eqb_eq in Hc.
    rewrite lit_one. unfold mul, SFmul. rewrite xorb_false_r.
    rewrite (Pos.mul_comm m 8388608).
    unfold binary_round_aux, shr_fexp.
    cbn [Pos.mul Zdigits2 digits2_pos].
    match goal with |- context [shr _ (e + -23) ?n] =>
      replace n with 23 end.
    2:{ symmetry. rewrite <- Hc at 2.
        match goal with |- fexp _ _ ?u - _ = _ =>
          replace u with (Z.pos (digits2_pos m) + e) by lia end.
        rewrite Hc. lia. }
    cbn [shr shr_record_of_loc iter_pos shr_1 shr_m loc_of_shr_record
         round_nearest_even orb Zdigits2].
    replace (e + -23 + 23) with e by lia.
    rewrite Hc, Z.sub_diag. cbn [shr shr_m]. now rewrite He.
Qed.

(** *** Overflow *)

(** A rounded result is finite as soon as the value has at most 127 binary
    digits before the point. *)
Lemma binary_round_aux_no_overflow (s : bool) (m e : Z) (l : location) :
  0 <= m -> Zdigits2 m + e <= 127 -> e <= 104 ->
  is_finite (binary_round_aux prec emax s m e l) = true.
Proof.
  intros Hm Hd He. unfold binary_round_aux.
  destruct (shr_fexp_digits_gen m e l Hm) as (E1 & P1 & D1 & Z1).
  destruct (shr_fexp prec emax m e l) as [mrs1 e1]. simpl in E1, P1, D1, Z1.
  pose proof (round_nearest_even_bounds (shr_m mrs1) (loc_of_shr_record mrs1))
    as [R1 R2].
  set (m1 := round_nearest_even (shr_m mrs1) (loc_of_shr_record mrs1)) in *.
  assert (Hm1 : 0 <= m1) by lia.
  rewrite fexp_eq in E1.
  assert (B1 : Zdigits2 m1 + e1 <= 128).
  { pose proof (Zdigits2_succ (shr_m mrs1) (proj1 P1)) as S1.
    pose proof (Zdigits2_mono m1 (shr_m mrs1 + 1) (conj Hm1 R2)) as S2.
    destruct (Z.eq_dec (shr_m mrs1) 0) as [Hz|Hz].
    - rewrite Hz in S2. simpl in S2. pose proof (Zdigits2_nonneg m). lia.
    - specialize (D1 ltac:(lia)). lia. }
  destruct (shr_fexp_digits_gen m1 e1 loc_Exact Hm1) as (E2 & P2 & D2 & Z2).
  destruct (shr_fexp prec emax m1 e1 loc_Exact) as [mrs2 e2].
  simpl in E2, P2, D2, Z2. rewrite fexp_eq in E2.
  destruct (shr_m mrs2) as [|m2|m2]; try reflexivity; [|lia].
  replace (e2 <=? emax - prec) with true; [reflexivity|].
  symmetry. apply Z.leb_le. unfold emax, prec.
  pose proof (Zdigits2_nonneg m). lia.
Qed.

(** Conversely a finite result bounds the digits of the value. *)
Lemma binary_round_aux_finite_inv (s : bool) (m e : Z) (l : location) :
  0 < m ->
  is_finite (binary_round_aux prec emax s m e l) = true ->
  Zdigits2 m + e <= 128.
Proof.
  intros Hm. unfold binary_round_aux.
  destruct (shr_fexp_digits_gen m e l (Z.lt_le_incl _ _ Hm))
    as (E1 & P1 & D1 & Z1).
  destruct (shr_fexp prec emax m e l) as [mrs1 e1]. simpl in E1, P1, D1, Z1.
  pose proof (round_nearest_even_bounds (shr_m mrs1) (loc_of_shr_record mrs1))
    as [R1 R2].
  set (m1 := round_nearest_even (shr_m mrs1) (loc_of_shr_record mrs1)) in *.
  assert (Hm1 : 0 <= m1) by lia.
  rewrite fexp_eq in E1.
  destruct (shr_fexp_digits_gen m1 e1 loc_Exact Hm1) as (E2 & P2 & D2 & Z2).
  destruct (shr_fexp prec emax m1 e1 loc_Exact) as [mrs2 e2].
  simpl in E2, P2, D2, Z2. rewrite fexp_eq in E2.
  intros F.
  destruct (Z_le_gt_dec (Zdigits2 m + e) 128) as [L|G]; [assumption|].
  exfalso.
  assert (N1 : 0 < shr_m mrs1).
  { destruct (Z.eq_dec (shr_m mrs1) 0) as [Hz|Hz]; [|lia].
    destruct (Z1 Hz); lia. }
  specialize (D1 N1).
  assert (N2 : 0 < shr_m mrs2).
  { destruct (Z.eq_dec (shr_m mrs2) 0) as [Hz|Hz]; [|lia].
    destruct (Z2 Hz); lia. }
  destruct (shr_m mrs2) as [|m2|m2]; try lia.
  replace (e2 <=? emax - prec) with false in F; [discriminate|].
  symmetry. apply Z.leb_gt. unfold emax, prec. lia.
Qed.

Lemma Zdigits2_mul_ge (a b : Z) :
  0 < a -> 0 < b -> Zdigits2 a + Zdigits2 b - 1 <= Zdigits2 (a * b).
Proof.
  intros Ha Hb.
  pose proof (Zdigits2_bounds a Ha) as [A1 _].
  pose proof (Zdigits2_bounds b Hb) as [B1 _].
  pose proof (Zdigits2_pos a Ha). pose proof (Zdigits2_pos b Hb).
  assert (Hab : 0 < a * b) by nia.
  pose proof (Zdigits2_bounds (a * b) Hab) as [_ C2].
  destruct (Z_le_gt_dec (Zdigits2 a + Zdigits2 b - 1) (Zdigits2 (a * b)))
    as [L|G]; [assumption|].
  assert (P : 2 ^ (Zdigits2 a - 1) * 2 ^ (Zdigits2 b - 1) <= a * b)
    by (apply Z.mul_le_mono_nonneg; lia).
  rewrite <- Z.pow_add_r in P by lia.
  assert (2 ^ Zdigits2 (a * b) <= 2 ^ (Zdigits2 a - 1 + (Zdigits2 b - 1)))
    by (apply Z.pow_le_mono_r; lia).
  lia.
Qed.

(** A float whose square is finite has at most 64 digits before the
    point. *)
Lemma mul_self_finite_inv (s : bool) (m : positive) (e : Z) :
  is_finite (mul (S754_finite s m e) (S754_finite s m e)) = true ->
  Z.pos (digits2_pos m) + e <= 64.
Proof.
  unfold mul, SFmul. intros F.
  apply binary_round_aux_finite_inv in F; [|lia].
  pose proof (Zdigits2_mul_ge (Z.pos m) (Z.pos m)) as G.
  change (Z.pos m * Z.pos m) with (Z.pos (m * m)) in G.
  cbn [Zdigits2] in G, F. specialize (G ltac:(lia) ltac:(lia)). lia.
Qed.

Lemma Zdigits2_shiftl (m s : Z) :
  0 < m -> 0 <= s -> Zdigits2 (Z.shiftl m s) = Zdigits2 m + s.
Proof.
  intros Hm Hs. rewrite Z.shiftl_mul_pow2 by assumption.
  pose proof (Zdigits2_bounds m Hm) as [B1 B2].
  pose proof (Zdigits2_pos m Hm) as Hp.
  pose proof (Z.pow_pos_nonneg 2 s ltac:(lia) Hs) as P.
  apply Zdigits2_unique; [lia|].
  replace (Zdigits2 m + s - 1) with (Zdigits2 m - 1 + s) by lia.
  rewrite !Z.pow_add_r by lia. nia.
Qed.

Lemma Zdigits2_div_le (a b : Z) :
  0 < a -> 0 < b ->
  Zdigits2 (a / b) <= Z.max (Zdigits2 a - Zdigits2 b + 1) 0.
Proof.
  intros Ha Hb.
  pose proof (Zdigits2_bounds a Ha) as [_ A2].
  pose proof (Zdigits2_bounds b Hb) as [B1 _].
  pose proof (Zdigits2_pos a Ha). pose proof (Zdigits2_pos b Hb).
  pose proof (Z.div_pos a b ltac:(lia) Hb) as Q0.
  destruct (Z.eq_dec (a / b) 0) as [->|Q]; [simpl; lia|].
  assert (Hq : 0 < a / b) by lia.
  pose proof (Zdigits2_bounds _ Hq) as [C1 _].
  pose proof (Zdigits2_pos _ Hq).
  pose proof (Z.mul_div_le a b Hb) as M.
  destruct (Z_le_gt_dec (Zdigits2 (a / b))
              (Z.max (Zdigits2 a - Zdigits2 b + 1) 0)) as [L|G];
    [assumption|].
  assert (P : 2 ^ (Zdigits2 b - 1) * 2 ^ (Zdigits2 (a / b) - 1) <= b * (a / b))
    by (apply Z.mul_le_mono_nonneg; lia).
  rewrite <- Z.pow_add_r in P by lia.
  assert (2 ^ Zdigits2 a
          <= 2 ^ (Zdigits2 b - 1 + (Zdigits2 (a / b) - 1)))
    by (apply Z.pow_le_mono_r; lia).
  lia.
Qed.

(** The quotient of a float of at most 64 digits before the point by a
    float of at least [2^-40] is finite. *)
Lemma div_no_overflow (sx sy : bool) (mx my : positive) (ex ey : Z) :
  Z.pos (digits2_pos mx) + ex <= 64 ->
  -39 <= Z.pos (digits2_pos my) + ey ->
  is_finite (div (S754_finite sx mx ex) (S754_finite sy my ey)) = true.
Proof.
  intros Hx Hy. unfold div, SFdiv, SFdiv_core_binary.
  cbn [Zdigits2].
  set (d1 := Z.pos (digits2_pos mx)) in *.
  set (d2 := Z.pos (digits2_pos my)) in *.
  set (e' := Z.min (fexp prec emax (d1 + ex - (d2 + ey))) (ex - ey)).
  assert (He : e' <= Z.max (d1 + ex - (d2 + ey) - 24) (-149)
               /\ e' <= ex - ey).
  { subst e'. rewrite fexp_eq. lia. }
  set (s := ex - ey - e').
  set (m' := match s with Z0 => Z.pos mx | Z.pos _ => _ | Z.neg _ => _ end).
  assert (Hm : 0 < m' /\ Zdigits2 m' = d1 + s).
  { subst m'. destruct s as [|p|p] eqn:Es; try lia.
    - split; [lia|]. cbn [Zdigits2]. fold d1. lia.
    - rewrite Zdigits2_shiftl by lia. cbn [Zdigits2]. fold d1.
      split; [|lia]. rewrite Z.shiftl_mul_pow2 by lia.
      pose proof (Z.pow_pos_nonneg 2 (Z.pos p)). nia. }
  destruct Hm as [Hm Hd].
  pose proof (Zdigits2_div_le m' (Z.pos my) Hm ltac:(lia)) as Q.
  pose proof (Z.div_pos m' (Z.pos my) ltac:(lia) ltac:(lia)) as Q0.
  unfold Z.div in Q, Q0.
  destruct (Z.div_eucl m' (Z.pos my)) as [q r].
  cbn [Zdigits2] in Q. fold d2 in Q.
  apply binary_round_aux_no_overflow; lia.
Qed.

Lemma add_finite_inv (a b : float) :
  is_finite (add a b) = true -> is_finite a = true /\ is_finite b = true.
Proof.
  destruct a as [[|]|[|]| |sa ma ea], b as [[|]|[|]| |sb mb eb];
    try discriminate; auto.
Qed.

Lemma sqrtf_finite_inv (a : float) :
  is_finite (sqrtf a) = true -> is_finite a = true.
Proof. destruct a as [|[|]| |]; try discriminate; auto. Qed.

(** A finite float above [1E-05f] has its leading digit above [2^-40]. *)
Lemma gt_1e_5_digits (m : positive) (e : Z) :
  gtb (S754_finite false m e) (dec 1 5) = true ->
  -39 <= Z.pos (digits2_pos m) + e.
Proof.
  rewrite lit_1e_5. unfold gtb, ltb, SFltb. cbn [SFcompare].
  destruct (-40 ?= e) eqn:C; try discriminate; intros _.
  - apply Z.compare_eq in C. lia.
  - change (-40 < e) in C. lia.
Qed.

End Float32Facts.

(** ** The no-NaN invariant (claims C1, C2) *)

Module Invariant.

Import Float32Facts.

Lemma Vector3_xyz_NaNfree (a b c : float) :
  NaNfree (Vector3_xyz a b c) = true.
Proof.
  unfold Vector3_xyz, bind, Assert.
  destruct (hasNaNs (mk a b c)) eqn:E; simpl; [reflexivity|].
  now rewrite E.
Qed.

Lemma Vector3_xyz_nan (a b c : float) :
  isnan a || isnan b || isnan c = true -> Vector3_xyz a b c = None.
Proof.
  unfold Vector3_xyz, bind, Assert, hasNaNs. simpl. now intros ->.
Qed.

Lemma guarded_NaNfree (g : bool) (a b c : float) :
  NaNfree (Assert g ;;; Vector3_xyz a b c) = true.
Proof.
  destruct g; simpl; [apply Vector3_xyz_NaNfree | reflexivity].
Qed.

Lemma guarded_nan (g : bool) (a b c : float) :
  isnan a || isnan b || isnan c = true ->
  Assert g ;;; Vector3_xyz a b c = None.
Proof.
  intros H. destruct g; simpl; [now apply Vector3_xyz_nan | reflexivity].
Qed.

Lemma neg_isnan (a : float) : isnan (neg a) = isnan a.
Proof. now destruct a. Qed.



Lemma checked_NaNfree (c : call) :
  checked c = true -> NaNfree (run c) = true.
Proof.
  destruct c; simpl; try discriminate; intros _;
    try apply guarded_NaNfree; try apply Vector3_xyz_NaNfree.
  reflexivity.
Qed.



Lemma finiteV_fields (v : Vector3) :
  finiteV v = true ->
  is_finite v.(x) = true /\ is_finite v.(y) = true /\ is_finite v.(z) = true.
Proof.
  unfold finiteV. intros H.
  apply andb_true_iff in H. destruct H as [H Hz].
  apply andb_true_iff in H. now destruct H as [Hx Hy].
Qed.

Lemma finiteV_not_nan (v : Vector3) : finiteV v = true -> hasNaNs v = false.
Proof.
  intros H. destruct (finiteV_fields v H) as (Hx & Hy & Hz).
  unfold hasNaNs. now rewrite !is_finite_not_nan.
Qed.




(** The array constructor asserts nothing: it copies a NaN it is given. *)
Lemma Vector3_array_copies_NaN :
  run (CtorArray (fun _ => nan)) = Some (mk nan nan nan).
Proof. reflexivity. Qed.

(** Claim C2 on the code: [operator/] stops on the divisor 0, [operator/=]
    does not, and leaves [(1, 0, 0) /= 0] as [(+inf, NaN, NaN)]. *)
Theorem div_assign_by_zero_not_asserted :
  op_divf (ofZ3 1 0 0) pzero = None
  /\ op_divf_assign (ofZ3 1 0 0) pzero = Some (mk pinf nan nan).
Proof. split; reflexivity. Qed.

(** What [operator/=] does assert: the divisor is not a NaN. *)
Lemma div_assign_nan_divisor (this : Vector3) :
  op_divf_assign this nan = None.
Proof. reflexivity. Qed.

(** [operator/] asserts both conditions of claim C2. *)
Lemma div_asserts_divisor (this : Vector3) (f : float) :
  isnan f = true \/ is_zero f = true -> op_divf this f = None.
Proof.
  intros [H|H]; destruct f; try discriminate H; reflexivity.
Qed.

End Invariant.

(** ** Magnitude and normalization (claims C3, C4)

    The theorem of claim C3 measures lengths: it is in [ExactTerms]. *)

Module Normalization.

Import Float32Facts.

Lemma sum_squares_sign (a b c : float) :
  signbit (add (add (mul a a) (mul b b)) (mul c c)) = false.
Proof. auto using add_nonneg_sign, mul_self_sign. Qed.

Lemma sum_squares_isnan (a b c : float) :
  isnan (add (add (mul a a) (mul b b)) (mul c c))
  = isnan a || isnan b || isnan c.
Proof.
  rewrite !add_nonneg_isnan, !mul_self_isnan;
    auto using add_nonneg_sign, mul_self_sign.
Qed.

Lemma sqrMagnitude_isnan (v : Vector3) : isnan (sqrMagnitude v) = hasNaNs v.
Proof. apply sum_squares_isnan. Qed.

Lemma SqrMagnitude_isnan (v : Vector3) : isnan (SqrMagnitude v) = hasNaNs v.
Proof. apply sum_squares_isnan. Qed.

Lemma magnitude_isnan (v : Vector3) : isnan (magnitude v) = hasNaNs v.
Proof.
  unfold magnitude. rewrite sqrtf_isnan, sum_squares_sign. simpl.
  rewrite orb_false_r. apply sum_squares_isnan.
Qed.

(** A vector with an infinite field and no NaN has magnitude [+inf]. *)
Lemma magnitude_inf (v : Vector3) :
  hasNaNs v = false -> hasInfs v = true -> magnitude v = pinf.
Proof.
  destruct v as [a b c]. unfold hasNaNs, hasInfs, magnitude. simpl.
  intros Hn Hi.
  apply orb_false_iff in Hn. destruct Hn as [Hn Hc].
  apply orb_false_iff in Hn. destruct Hn as [Ha Hb].
  assert (S : add (add (mul a a) (mul b b)) (mul c c) = pinf).
  { apply orb_true_iff in Hi. destruct Hi as [Hi|Hi];
      [apply orb_true_iff in Hi; destruct Hi as [Hi|Hi]|];
      rewrite (mul_self_inf _ Hi).
    - rewrite add_pinf_l, add_pinf_l;
        rewrite ?mul_self_isnan; auto using mul_self_sign.
    - rewrite add_pinf_r, add_pinf_l;
        rewrite ?mul_self_isnan; auto using mul_self_sign.
    - rewrite add_pinf_r; auto using add_nonneg_sign, mul_self_sign.
      rewrite add_nonneg_isnan, !mul_self_isnan, Ha, Hb;
        auto using mul_self_sign. }
  now rewrite S.
Qed.

Lemma gtb_nan_l (b : float) : gtb nan b = false.
Proof. now destruct b. Qed.

(** Above [1E-05f] the divisor passes the assertion of [operator/]. *)
Lemma gt_1e_5_divisor (num : float) :
  gtb num (dec 1 5) = true -> negb (isnan num) && neb num pzero = true.
Proof.
  intros H. destruct (gt_1e_5_inv num H) as [->|(m & e & ->)]; reflexivity.
Qed.

Lemma Normalize_fields (v : Vector3) :
  Normalize v
  = if gtb (magnitude v) (dec 1 5) then
      Vector3_xyz (div v.(x) (magnitude v)) (div v.(y) (magnitude v))
                  (div v.(z) (magnitude v))
    else Some zero.
Proof.
  unfold Normalize, op_divf.
  destruct (gtb (magnitude v) (dec 1 5)) eqn:E; [|reflexivity].
  now rewrite (gt_1e_5_divisor _ E).
Qed.

(** The static [Normalize] is the member [Normalize()] followed by the
    assertion of the constructor. *)
Lemma Normalize_inplace_checked (v : Vector3) :
  Normalize v
  = if hasNaNs (Normalize_inplace v) then None
    else Some (Normalize_inplace v).
Proof.
  rewrite Normalize_fields. unfold Normalize_inplace.
  destruct (gtb (magnitude v) (dec 1 5)); [|reflexivity].
  unfold Vector3_xyz, bind, Assert.
  now destruct (hasNaNs (mk _ _ _)).
Qed.

Lemma div_by_gt_1e_5_isnan (a num : float) :
  gtb num (dec 1 5) = true ->
  isnan (div a num) = isnan a || (is_inf a && is_inf num).
Proof.
  intros H. rewrite div_isnan.
  destruct (gt_1e_5_inv num H) as [->|(m & e & ->)]; simpl;
    now rewrite ?andb_false_r, ?orb_false_r.
Qed.

(** The member [Normalize()] leaves a NaN exactly in a vector that has an
    infinite field and no NaN field. *)
Lemma Normalize_inplace_hasNaNs (v : Vector3) :
  hasNaNs (Normalize_inplace v) = hasInfs v && negb (hasNaNs v).
Proof.
  unfold Normalize_inplace.
  destruct (hasNaNs v) eqn:Hn.
  - pose proof (magnitude_isnan v) as H. rewrite Hn in H.
    destruct (magnitude v); try discriminate H.
    rewrite gtb_nan_l. now rewrite andb_false_r.
  - rewrite andb_true_r.
    assert (D : forall num, gtb num (dec 1 5) = true ->
              hasNaNs (mk (div (x v) num) (div (y v) num) (div (z v) num))
              = hasInfs v && is_inf num).
    { intros num E. unfold hasNaNs. cbn [x y z].
      rewrite !(div_by_gt_1e_5_isnan _ _ E).
      unfold hasInfs. unfold hasNaNs in Hn.
      destruct (is_inf num);
        destruct (x v) as [|[|]| |], (y v) as [|[|]| |], (z v) as [|[|]| |];
        try discriminate Hn; reflexivity. }
    destruct (hasInfs v) eqn:Hi.
    + rewrite (magnitude_inf v Hn Hi).
      change (gtb pinf (dec 1 5)) with true. cbv iota.
      now rewrite D.
    + destruct (gtb (magnitude v) (dec 1 5)) eqn:E; [|reflexivity].
      now rewrite (D _ E).
Qed.

Lemma div_finite_pinf (a : float) :
  is_finite a = true -> div a pinf = S754_zero (signbit a).
Proof.
  destruct a as [s|s| |s m e]; try discriminate; intros _; simpl;
    now rewrite xorb_false_r.
Qed.

(** When the squared magnitude of a finite vector overflows, the quotient
    is a vector of zeros. *)
Lemma Normalize_overflow (v : Vector3) :
  finiteV v = true -> magnitude v = pinf ->
  Normalize v
  = Some (mk (S754_zero (signbit v.(x))) (S754_zero (signbit v.(y)))
             (S754_zero (signbit v.(z)))).
Proof.
  intros Hf Hm. rewrite Normalize_fields, Hm.
  change (gtb pinf (dec 1 5)) with true. cbv iota.
  unfold finiteV in Hf.
  apply andb_true_iff in Hf. destruct Hf as [Hf Hz].
  apply andb_true_iff in Hf. destruct Hf as [Hx Hy].
  now rewrite !div_finite_pinf.
Qed.

Lemma div_field_finite (f : float) (m : positive) (e : Z) :
  is_finite f = true -> is_finite (mul f f) = true ->
  -39 <= Z.pos (digits2_pos m) + e ->
  is_finite (div f (S754_finite false m e)) = true.
Proof.
  destruct f as [s|s| |s mf ef]; try discriminate; intros _ F H.
  - reflexivity.
  - apply div_no_overflow; [|assumption].
    now apply (mul_self_finite_inv s).
Qed.

Lemma Vector3_xyz_finite (a b c : float) :
  is_finite a = true -> is_finite b = true -> is_finite c = true ->
  Vector3_xyz a b c = Some (mk a b c).
Proof.
  intros Ha Hb Hc. unfold Vector3_xyz, bind, Assert, hasNaNs. simpl.
  now rewrite !is_finite_not_nan.
Qed.

(** [Normalize] never stops on a finite vector, and returns a finite
    vector: the quotients cannot overflow. *)
Lemma Normalize_finite (v : Vector3) :
  finiteV v = true -> exists r, Normalize v = Some r /\ finiteV r = true.
Proof.
  intros Hf. destruct (Invariant.finiteV_fields v Hf) as (Hx & Hy & Hz).
  rewrite Normalize_fields.
  destruct (gtb (magnitude v) (dec 1 5)) eqn:E; [|now exists zero].
  destruct (gt_1e_5_inv _ E) as [Hi|(m & e & Hn)].
  - rewrite Hi, !div_finite_pinf by assumption.
    eexists. split; reflexivity.
  - pose proof E as G. rewrite Hn in G. apply gt_1e_5_digits in G.
    assert (S : is_finite (magnitude v) = true) by now rewrite Hn.
    unfold magnitude in S. apply sqrtf_finite_inv in S.
    apply add_finite_inv in S. destruct S as [S Sz].
    apply add_finite_inv in S. destruct S as [Sx Sy].
    rewrite Hn.
    pose proof (div_field_finite _ m e Hx Sx G) as Dx.
    pose proof (div_field_finite _ m e Hy Sy G) as Dy.
    pose proof (div_field_finite _ m e Hz Sz G) as Dz.
    rewrite Vector3_xyz_finite by assumption.
    eexists. split; [reflexivity|].
    unfold finiteV. simpl. now rewrite Dx, Dy, Dz.
Qed.

(** Claim C3 as stated fails on [v = (1e20, 0, 0)]: the squared magnitude
    overflows, [magnitude(v)] is [+inf], which is above [1E-05f], and the
    result is the zero vector, of magnitude 0. *)
Lemma Normalize_large_is_zero :
  valid (of_Z (10 ^ 20)) = true
  /\ gtb (magnitude (mk (of_Z (10 ^ 20)) pzero pzero)) (dec 1 5) = true
  /\ Normalize (mk (of_Z (10 ^ 20)) pzero pzero) = Some zero
  /\ option_map magnitude (Normalize (mk (of_Z (10 ^ 20)) pzero pzero))
     = Some pzero.
Proof. repeat split; reflexivity. Qed.

(** Claim C4, as amended.  The static [Normalize(v)] is the member
    [v.Normalize()] followed by the NaN assertion of the constructor: on a
    vector with no infinite field, or with a NaN field, the call returns
    what the member leaves in [v]; on a vector with an infinite field and no
    NaN the static form stops, and the member silently leaves a NaN. *)
Theorem Normalize_member_agrees (v : Vector3) :
  (hasInfs v && negb (hasNaNs v) = false ->
     Normalize v = Some (Normalize_inplace v))
  /\ (hasInfs v && negb (hasNaNs v) = true ->
      Normalize v = None /\ hasNaNs (Normalize_inplace v) = true)
  /\ (gtb (magnitude v) (dec 1 5) = false ->
      Normalize_inplace v = mk pzero pzero pzero).
Proof.
  rewrite Normalize_inplace_checked, Normalize_inplace_hasNaNs.
  split; [|split]; intros H; try now rewrite H.
  unfold Normalize_inplace. now rewrite H.
Qed.

(** The theorem of claim C4 at [(3, 4, 0)]. *)
Lemma Normalize_member_agrees_witness :
  Normalize (ofZ3 3 4 0) = Some (Normalize_inplace (ofZ3 3 4 0)).
Proof.
  exact (proj1 (Normalize_member_agrees (ofZ3 3 4 0)) eq_refl).
Defined.

(** Claim C4 as stated fails on [(+inf, 0, 0)]: the static form stops on
    the assertion, the member leaves [(NaN, 0, 0)]. *)
Lemma Normalize_member_differs :
  Normalize (mk pinf pzero pzero) = None
  /\ Normalize_inplace (mk pinf pzero pzero) = mk nan pzero pzero.
Proof. split; reflexivity. Qed.

End Normalization.

(** ** Equality (claims C5, C10)

    The theorem of claim C5 gives the value of the threshold: it is in
    [ExactTerms]. *)

Module Equality.

Import Float32Facts.

(** [9.99999944E-11f] is the square of [1E-05f], as a binary32 datum. *)
Lemma kEqualityEpsilon_bits :
  kEqualityEpsilon = S754_finite false 14411518 (-57)
  /\ kEqualityEpsilon = mul (dec 1 5) (dec 1 5)
  /\ valid kEqualityEpsilon = true.
Proof. repeat split; reflexivity. Qed.

Lemma op_sub_NaNfree (a b d : Vector3) :
  op_sub a b = Some d -> hasNaNs d = false.
Proof.
  intros E.
  pose proof (Invariant.checked_NaNfree (Sub a b) eq_refl) as H.
  simpl in H. rewrite E in H. simpl in H.
  now apply negb_true_iff in H.
Qed.

Lemma sub_finite_not_nan (a b : float) :
  is_finite a = true -> is_finite b = true -> isnan (sub a b) = false.
Proof.
  intros Ha Hb. rewrite sub_isnan.
  destruct a, b; try discriminate; reflexivity.
Qed.

(** The difference of two finite vectors passes every assertion. *)
Lemma op_sub_finite (a b : Vector3) :
  finiteV a = true -> finiteV b = true ->
  op_sub a b
  = Some (mk (sub a.(x) b.(x)) (sub a.(y) b.(y)) (sub a.(z) b.(z))).
Proof.
  intros Ha Hb. unfold op_sub, Vector3_xyz, bind, Assert.
  rewrite (Invariant.finiteV_not_nan b Hb). simpl.
  destruct (Invariant.finiteV_fields a Ha) as (Hx & Hy & Hz).
  destruct (Invariant.finiteV_fields b Hb) as (Hx' & Hy' & Hz').
  unfold hasNaNs. simpl.
  now rewrite !sub_finite_not_nan.
Qed.

(** Claim C10, as amended.  [a != b] is the negation of [a == b] whenever
    the difference [a - b] is built without failing an assertion, which is
    the case for all finite vectors; when the difference fails (a NaN in
    [b], or [inf - inf] in some field) both comparisons stop. *)
Theorem ne_complements_eq (a b : Vector3) :
  op_ne a b = option_map negb (op_eq a b)
  /\ (forall d, op_sub a b = Some d ->
       exists t, op_eq a b = Some t /\ op_ne a b = Some (negb t))
  /\ (op_sub a b = None -> op_eq a b = None /\ op_ne a b = None)
  /\ (finiteV a = true -> finiteV b = true ->
      exists t, op_eq a b = Some t /\ op_ne a b = Some (negb t)).
Proof.
  assert (N : forall d, op_sub a b = Some d ->
            geb (SqrMagnitude d) kEqualityEpsilon
            = negb (ltb (SqrMagnitude d) kEqualityEpsilon)).
  { intros d E. apply geb_negb_ltb; [|reflexivity].
    rewrite Normalization.SqrMagnitude_isnan.
    now apply (op_sub_NaNfree a b). }
  assert (S : forall d, op_sub a b = Some d ->
            exists t, op_eq a b = Some t /\ op_ne a b = Some (negb t)).
  { intros d E. unfold op_eq, op_ne. rewrite E. simpl.
    rewrite (N d E). eauto. }
  split; [|split; [|split]].
  - unfold op_ne, op_eq.
    destruct (op_sub a b) as [d|] eqn:E; simpl; [|reflexivity].
    now rewrite (N d eq_refl).
  - exact S.
  - intros E. unfold op_eq, op_ne. now rewrite E.
  - intros Ha Hb. eapply S. now apply op_sub_finite.
Qed.

(** The theorem of claim C10 at [(1, 0, 0)] and [(0, 0, 0)]. *)
Lemma ne_complements_eq_witness :
  exists t, op_eq (ofZ3 1 0 0) zero = Some t
            /\ op_ne (ofZ3 1 0 0) zero = Some (negb t).
Proof.
  apply (proj2 (proj2 (proj2 (ne_complements_eq (ofZ3 1 0 0) zero))));
    reflexivity.
Defined.

(** Claim C10 as stated fails on [a = b = (+inf, 0, 0)]: neither vector
    holds a NaN, [a - b] has the field [inf - inf], and neither [a == b]
    nor [a != b] returns. *)
Lemma eq_ne_both_stop :
  hasNaNs (mk pinf pzero pzero) = false
  /\ op_eq (mk pinf pzero pzero) (mk pinf pzero pzero) = None
  /\ op_ne (mk pinf pzero pzero) (mk pinf pzero pzero) = None.
Proof. repeat split; reflexivity. Qed.

End Equality.

(** ** Dot and cross products (claim C8) *)

Module Products.

Import Float32Facts.

Lemma Dot_comm (a b : Vector3) : Dot a b = Dot b a.
Proof.
  unfold Dot.
  now rewrite (mul_comm (x a)), (mul_comm (y a)), (mul_comm (z a)).
Qed.

Lemma sub_isnan_swap (p q : float) : isnan (sub q p) = isnan (sub p q).
Proof.
  rewrite !sub_isnan.
  destruct p as [|[|]| |], q as [|[|]| |]; reflexivity.
Qed.

Lemma is_zero_eqb (a b : float) :
  is_zero a = true -> is_zero b = true -> eqb a b = true.
Proof. destruct a, b; try discriminate; reflexivity. Qed.

Lemma is_zero_neg (a : float) : is_zero (neg a) = is_zero a.
Proof. now destruct a. Qed.

(** [p - q] and [-(q - p)] compare equal. *)
Lemma eqb_sub_neg_sub (p q : float) :
  isnan (sub p q) = false -> eqb (sub p q) (neg (sub q p)) = true.
Proof.
  intros H. destruct (neg_sub p q) as [->|[Hz Hz']].
  - now apply eqb_refl.
  - apply is_zero_eqb; [assumption|]. now rewrite is_zero_neg.
Qed.

(** The fields of [Cross(b, a)], written with the products of
    [Cross(a, b)]. *)
Lemma Cross_swap (a b : Vector3) :
  Cross b a
  = Vector3_xyz
      (sub (mul a.(z) b.(y)) (mul a.(y) b.(z)))
      (sub (mul a.(x) b.(z)) (mul a.(z) b.(x)))
      (sub (mul a.(y) b.(x)) (mul a.(x) b.(y))).
Proof.
  unfold Cross.
  now rewrite (mul_comm (y b) (z a)), (mul_comm (z b) (y a)),
    (mul_comm (z b) (x a)), (mul_comm (x b) (z a)),
    (mul_comm (x b) (y a)), (mul_comm (y b) (x a)).
Qed.

(** [Cross(a, b)] and [-Cross(b, a)] stop together, and otherwise agree
    field by field. *)
Lemma Cross_antisym (a b : Vector3) :
  match Cross a b, (c <- Cross b a ;; op_neg c) with
  | Some u, Some w => eqV u w = true
  | None, None => True
  | _, _ => False
  end.
Proof.
  rewrite (Cross_swap a b).
  unfold Cross, op_neg, Vector3_xyz, bind, Assert, hasNaNs.
  simpl.
  set (p1 := mul (y a) (z b)). set (q1 := mul (z a) (y b)).
  set (p2 := mul (z a) (x b)). set (q2 := mul (x a) (z b)).
  set (p3 := mul (x a) (y b)). set (q3 := mul (y a) (x b)).
  rewrite (sub_isnan_swap p1 q1), (sub_isnan_swap p2 q2),
    (sub_isnan_swap p3 q3).
  destruct (isnan (sub p1 q1)) eqn:E1; simpl; [exact I|].
  destruct (isnan (sub p2 q2)) eqn:E2; simpl; [exact I|].
  destruct (isnan (sub p3 q3)) eqn:E3; simpl; [exact I|].
  rewrite !Invariant.neg_isnan.
  rewrite (sub_isnan_swap p1 q1), (sub_isnan_swap p2 q2),
    (sub_isnan_swap p3 q3), E1, E2, E3. simpl.
  unfold eqV. simpl.
  now rewrite !eqb_sub_neg_sub.
Qed.

Lemma sub_self_not_finite (p : float) :
  is_finite p = false -> isnan (sub p p) = true.
Proof. now destruct p as [|[|]| |]. Qed.

(** [Cross(a, a)] is the zero vector when its three products are finite,
    and stops otherwise. *)
Lemma Cross_self (a : Vector3) :
  Cross a a
  = if is_finite (mul a.(y) a.(z)) && is_finite (mul a.(z) a.(x))
       && is_finite (mul a.(x) a.(y))
    then Some zero else None.
Proof.
  unfold Cross.
  rewrite (mul_comm (z a) (y a)), (mul_comm (x a) (z a)),
    (mul_comm (y a) (x a)).
  destruct (is_finite (mul (y a) (z a))) eqn:E1; simpl.
  - destruct (is_finite (mul (z a) (x a))) eqn:E2; simpl.
    + destruct (is_finite (mul (x a) (y a))) eqn:E3; simpl.
      * now rewrite !sub_diag.
      * apply Invariant.Vector3_xyz_nan.
        rewrite (sub_self_not_finite _ E3). now rewrite !orb_true_r.
    + apply Invariant.Vector3_xyz_nan.
      rewrite (sub_self_not_finite _ E2). now rewrite !orb_true_r.
  - apply Invariant.Vector3_xyz_nan.
    now rewrite (sub_self_not_finite _ E1).
Qed.

Lemma is_zero_not_nan (a : float) : is_zero a = true -> isnan a = false.
Proof. now destruct a. Qed.

Lemma mul_self_zero (a : float) : is_zero a = true -> mul a a = pzero.
Proof. now destruct a as [[|]| | |]. Qed.

(** Two vectors whose field by field differences are zeros are equal for
    [operator==]. *)
Lemma op_eq_zero_difference (u w : Vector3) :
  hasNaNs w = false ->
  is_zero (sub u.(x) w.(x)) = true ->
  is_zero (sub u.(y) w.(y)) = true ->
  is_zero (sub u.(z) w.(z)) = true ->
  op_eq u w = Some true.
Proof.
  intros Hw Hx Hy Hz.
  unfold op_eq, op_sub, Vector3_xyz, bind, Assert, hasNaNs in *.
  rewrite Hw. simpl.
  rewrite !is_zero_not_nan by assumption. simpl.
  unfold SqrMagnitude. simpl.
  now rewrite !mul_self_zero.
Qed.

Lemma sub_neg_sub_zero (p q : float) :
  is_finite (sub p q) = true -> is_zero (sub (sub p q) (neg (sub q p))) = true.
Proof.
  intros H. destruct (neg_sub p q) as [->|[Hz Hz']].
  - now rewrite sub_diag.
  - destruct (sub p q) as [[|]| | |], (sub q p) as [[|]| | |];
      try discriminate; reflexivity.
Qed.

(** When [Cross(a, b)] is finite, [Cross(a, b) == -Cross(b, a)] holds for
    the [operator==] of the class. *)
Lemma Cross_antisym_op_eq (a b u : Vector3) :
  Cross a b = Some u -> finiteV u = true ->
  exists w, (c <- Cross b a ;; op_neg c) = Some w /\ op_eq u w = Some true.
Proof.
  intros Hu Hf.
  pose proof (Cross_antisym a b) as H. rewrite Hu in H.
  destruct (c <- Cross b a ;; op_neg c) as [w|] eqn:Hw; [|contradiction].
  exists w. split; [reflexivity|].
  assert (Nw : hasNaNs w = false).
  { destruct (Cross b a) as [c|]; [|discriminate Hw]. simpl in Hw.
    pose proof (Invariant.checked_NaNfree (Neg c) eq_refl) as N.
    simpl in N. rewrite Hw in N. now apply negb_true_iff in N. }
  revert Hw. rewrite (Cross_swap a b). revert Hu.
  unfold Cross, op_neg, Vector3_xyz, bind, Assert.
  destruct (negb (hasNaNs _)); [|discriminate].
  intros Hu. injection Hu as <-.
  destruct (negb (hasNaNs _)); [|discriminate]. simpl.
  destruct (negb (hasNaNs _)); [|discriminate].
  intros Hw. injection Hw as <-.
  destruct (Invariant.finiteV_fields _ Hf) as (Hx & Hy & Hz). simpl in *.
  apply op_eq_zero_difference; simpl; auto using sub_neg_sub_zero.
Qed.

(** Claim C8, as amended.  [Dot] is symmetric.  [Cross(a, b)] and
    [-Cross(b, a)] stop on the NaN assertion together and otherwise agree
    field by field (they differ at most in the sign of a zero), and are
    equal for [operator==] when their fields are finite.  [Cross(a, a)] is
    the zero vector when the three products [a.y*a.z], [a.z*a.x], [a.x*a.y]
    are finite; when one of them overflows or is a NaN, [Cross(a, a)] stops
    on the NaN assertion. *)
Theorem Dot_Cross_symmetries (a b : Vector3) :
  Dot a b = Dot b a
  /\ match Cross a b, (c <- Cross b a ;; op_neg c) with
     | Some u, Some w => eqV u w = true
     | None, None => True
     | _, _ => False
     end
  /\ (forall u, Cross a b = Some u -> finiteV u = true ->
       exists w, (c <- Cross b a ;; op_neg c) = Some w
                 /\ op_eq u w = Some true)
  /\ Cross a a
     = if is_finite (mul a.(y) a.(z)) && is_finite (mul a.(z) a.(x))
          && is_finite (mul a.(x) a.(y))
       then Some zero else None.
Proof.
  split; [|split; [|split]].
  - apply Dot_comm.
  - apply Cross_antisym.
  - apply Cross_antisym_op_eq.
  - apply Cross_self.
Qed.

(** The theorem of claim C8 at [a = (1, 2, 3)], [b = (4, 5, 6)]. *)
Lemma Dot_Cross_symmetries_witness :
  exists w, (c <- Cross (ofZ3 4 5 6) (ofZ3 1 2 3) ;; op_neg c) = Some w
            /\ op_eq (ofZ3 (-3) 6 (-3)) w = Some true.
Proof.
  apply (proj1 (proj2 (proj2
           (Dot_Cross_symmetries (ofZ3 1 2 3) (ofZ3 4 5 6)))));
    reflexivity.
Defined.

(** Claim C8 as stated fails on [a = (0, 1e20, 1e20)], a finite vector:
    the two products of the first field overflow, their difference is
    [inf - inf], and [Cross(a, a)] stops instead of returning the zero
    vector.  The same happens on [(0, +inf, 1)]. *)
Lemma Cross_self_overflow :
  finiteV (mk pzero (of_Z (10 ^ 20)) (of_Z (10 ^ 20))) = true
  /\ valid (of_Z (10 ^ 20)) = true
  /\ Cross (mk pzero (of_Z (10 ^ 20)) (of_Z (10 ^ 20)))
           (mk pzero (of_Z (10 ^ 20)) (of_Z (10 ^ 20))) = None
  /\ Cross (mk pzero pinf one) (mk pzero pinf one) = None.
Proof. repeat split; reflexivity. Qed.

End Products.

(** ** Linear interpolation (claim C7)

    The theorem of claim C7 is in [ExactTerms]. *)

Module Interpolation.

Import Float32Facts.

Lemma Lerp_LerpUnClamped (a b : Vector3) (t : float) :
  Lerp a b t = LerpUnClamped a b (Mathf.Clamp01 t).
Proof. reflexivity. Qed.

Lemma Clamp01_below (t : float) :
  ltb t pzero = true -> Mathf.Clamp01 t = pzero.
Proof. unfold Mathf.Clamp01. now intros ->. Qed.

Lemma Clamp01_above (t : float) :
  gtb t one = true -> Mathf.Clamp01 t = one.
Proof.
  unfold Mathf.Clamp01. intros H. rewrite H.
  destruct (ltb t pzero) eqn:E; [|reflexivity].
  destruct t as [|[|]| |[|]]; discriminate.
Qed.

Lemma Clamp01_inside (t : float) :
  ltb t pzero = false -> gtb t one = false -> Mathf.Clamp01 t = t.
Proof. unfold Mathf.Clamp01. now intros -> ->. Qed.

(** The clamped value lies in [[0, 1]] unless [t] is a NaN. *)
Lemma Clamp01_range (t : float) :
  isnan t = false ->
  leb pzero (Mathf.Clamp01 t) = true /\ leb (Mathf.Clamp01 t) one = true.
Proof.
  intros Ht. unfold Mathf.Clamp01.
  destruct (ltb t pzero) eqn:E0; [split; reflexivity|].
  destruct (gtb t one) eqn:E1; [split; reflexivity|].
  split.
  - change (geb t pzero = true). rewrite geb_negb_ltb, E0; auto.
  - change (geb one t = true). unfold gtb in E1.
    rewrite geb_negb_ltb, E1; auto.
Qed.

(** One field of [Lerp(a, b, 0)]: [a + (b - a) * 0] is [a], or a zero where
    [a] is a zero, as long as [b - a] is finite. *)
Lemma lerp_field_0 (a b : float) :
  is_finite (sub b a) = true ->
  is_finite a = true
  /\ (add a (mul (sub b a) pzero) = a
      \/ (is_zero (add a (mul (sub b a) pzero)) = true
          /\ is_zero a = true)).
Proof.
  intros H.
  destruct a as [sa|sa| |sa ma ea].
  - split; [reflexivity|]. right.
    destruct (sub b (S754_zero sa)) as [s0|s0| |s0 m0 e0];
      try discriminate H; simpl; split; try reflexivity;
      now destruct sa, s0.
  - destruct b as [|[|]| |], sa; discriminate H.
  - destruct b; discriminate H.
  - split; [reflexivity|]. left.
    destruct (sub b (S754_finite sa ma ea)) as [s0|s0| |s0 m0 e0];
      try discriminate H; reflexivity.
Qed.

Lemma same_or_zeros_sub (r a : float) :
  is_finite a = true ->
  r = a \/ (is_zero r = true /\ is_zero a = true) ->
  is_zero (sub r a) = true /\ eqb r a = true /\ isnan r = false.
Proof.
  intros Ha [->|[Hr Hz]].
  - rewrite sub_diag by assumption.
    rewrite eqb_refl; destruct a; try discriminate; auto.
  - destruct r as [[|]| | |], a as [[|]| | |]; try discriminate; auto.
Qed.

(** [Lerp(a, b, 0) == a] when every field of [b - a] is finite. *)
Lemma Lerp_0 (a b : Vector3) :
  is_finite (sub b.(x) a.(x)) = true ->
  is_finite (sub b.(y) a.(y)) = true ->
  is_finite (sub b.(z) a.(z)) = true ->
  exists r, Lerp a b pzero = Some r
            /\ eqV r a = true /\ op_eq r a = Some true.
Proof.
  intros Hx Hy Hz.
  destruct (lerp_field_0 _ _ Hx) as [Fx Sx].
  destruct (lerp_field_0 _ _ Hy) as [Fy Sy].
  destruct (lerp_field_0 _ _ Hz) as [Fz Sz].
  destruct (same_or_zeros_sub _ _ Fx Sx) as (Zx & Ex & Nx).
  destruct (same_or_zeros_sub _ _ Fy Sy) as (Zy & Ey & Ny).
  destruct (same_or_zeros_sub _ _ Fz Sz) as (Zz & Ez & Nz).
  unfold Lerp. change (Mathf.Clamp01 pzero) with pzero.
  unfold Vector3_xyz, bind, Assert, hasNaNs. simpl.
  rewrite Nx, Ny, Nz. simpl.
  eexists. split; [reflexivity|]. split.
  - unfold eqV. simpl. now rewrite Ex, Ey, Ez.
  - apply Products.op_eq_zero_difference; simpl; auto.
    unfold hasNaNs.
    now rewrite !is_finite_not_nan.
Qed.

Lemma validV_fields (v : Vector3) :
  validV v = true ->
  valid v.(x) = true /\ valid v.(y) = true /\ valid v.(z) = true.
Proof.
  unfold validV. intros H.
  apply andb_true_iff in H. destruct H as [H Hz].
  apply andb_true_iff in H. now destruct H as [Hx Hy].
Qed.

(** At [t = 1] the product by [t] is exact: what is left is the rounding
    of [b - a] and of the sum. *)
Lemma Lerp_1 (a b : Vector3) :
  validV a = true -> validV b = true ->
  Lerp a b one
  = Vector3_xyz (add a.(x) (sub b.(x) a.(x))) (add a.(y) (sub b.(y) a.(y)))
                (add a.(z) (sub b.(z) a.(z))).
Proof.
  intros Ha Hb.
  destruct (validV_fields a Ha) as (Ax & Ay & Az).
  destruct (validV_fields b Hb) as (Bx & By & Bz).
  unfold Lerp. change (Mathf.Clamp01 one) with one.
  now rewrite !mul_one_r by auto using sub_valid.
Qed.

(** Claim C7 as stated fails at both ends.

    - [t = 1]: with [a = (1e10, 0, 0)] and [b = (1, 0, 0)], [b - a] is
      rounded to [-1e10] (the floats near 1e10 are 1024 apart), so
      [Lerp(a, b, 1)] is [(0, 0, 0)], and [(0, 0, 0) == (1, 0, 0)] is false.
    - [t = 0]: with [a = (-3e38, 0, 0)] and [b = (3e38, 0, 0)], both
      finite, [b - a] overflows to [+inf], [inf * 0] is a NaN and the call
      stops; so it does with [a = (0, 0, 0)] and [b = (+inf, 0, 0)]. *)
Lemma Lerp_endpoints :
  (validV (mk (of_Z (10 ^ 10)) pzero pzero) = true
   /\ Lerp (mk (of_Z (10 ^ 10)) pzero pzero) (ofZ3 1 0 0) one = Some zero
   /\ op_eq zero (ofZ3 1 0 0) = Some false)
  /\ (finiteV (mk (of_Z (-3 * 10 ^ 38)) pzero pzero) = true
      /\ finiteV (mk (of_Z (3 * 10 ^ 38)) pzero pzero) = true
      /\ Lerp (mk (of_Z (-3 * 10 ^ 38)) pzero pzero)
              (mk (of_Z (3 * 10 ^ 38)) pzero pzero) pzero = None)
  /\ Lerp zero (mk pinf pzero pzero) pzero = None.
Proof. repeat split; reflexivity. Qed.

End Interpolation.

(** ** Clamping the magnitude (claim C6)

    The theorem of claim C6 measures lengths: it is in [ExactTerms]. *)

Module Clamping.

Import Float32Facts.

Lemma leb_not_gtb (a b : float) : leb a b = true -> gtb a b = false.
Proof.
  unfold leb, gtb, ltb, SFleb, SFltb. rewrite (SFcompare_antisym a b).
  destruct (SFcompare a b) as [[| |]|]; simpl; try discriminate; reflexivity.
Qed.

(** Nothing is below a square: [0 > L * L] is false. *)
Lemma zero_not_gt_square (L : float) : gtb pzero (mul L L) = false.
Proof.
  pose proof (mul_self_sign L) as S.
  unfold gtb, ltb, SFltb.
  destruct (mul L L) as [s|s| |s m e]; simpl in *; subst; reflexivity.
Qed.

Lemma sqrMagnitude_zero : sqrMagnitude zero = pzero.
Proof. reflexivity. Qed.

(** A float whose square is below some float is finite. *)
Lemma square_below_finite (L S : float) :
  gtb S (mul L L) = true -> is_finite L = true.
Proof.
  unfold gtb, ltb, SFltb.
  destruct L as [s|[|]| |s m e]; try reflexivity; simpl;
    destruct S as [|[|]| |[|]]; discriminate.
Qed.

Lemma mul_finite_not_nan (a b : float) :
  is_finite a = true -> is_finite b = true -> isnan (mul a b) = false.
Proof.
  intros Ha Hb. rewrite mul_isnan.
  destruct a, b; try discriminate; reflexivity.
Qed.

(** [ClampMagnitude] never stops on a finite vector. *)
Lemma ClampMagnitude_finite (v : Vector3) (L : float) :
  finiteV v = true -> exists r, ClampMagnitude v L = Some r.
Proof.
  intros Hf. unfold ClampMagnitude, normalized.
  destruct (gtb (sqrMagnitude v) (mul L L)) eqn:E; [|eauto].
  pose proof (square_below_finite _ _ E) as HL.
  destruct (Normalization.Normalize_finite v Hf) as (n & -> & Hn).
  destruct (Invariant.finiteV_fields n Hn) as (Hx & Hy & Hz).
  simpl. unfold op_mulf, Vector3_xyz, bind, Assert, hasNaNs.
  rewrite (is_finite_not_nan L HL). simpl.
  rewrite !mul_finite_not_nan by assumption. simpl. eauto.
Qed.

(** Claim C6 as stated fails in both consequences.

    - [ClampMagnitude((3, 3, 3), 1)] is [(m, m, m) * 2^-24] with
      [m = 9686331]: its magnitude as [magnitude()] computes it is above 1,
      and so is its exact length, since [3 * m^2 > 2^48].
    - For [v = (1/11, 2/13, 0)] (the binary32 quotients) and
      [L = magnitude(v)], [magnitude(v) <= L] holds, also exactly (the last
      inequality compares the exact squares, scaled by [2^54]), yet
      [v.sqrMagnitude() > L * L] holds in binary32 and the result differs
      from [v] in the last bit of [x]. *)
Lemma ClampMagnitude_rounding :
  (ClampMagnitude (ofZ3 3 3 3) one
   = Some (mk (S754_finite false 9686331 (-24))
              (S754_finite false 9686331 (-24))
              (S754_finite false 9686331 (-24)))
   /\ option_map (fun r => gtb (magnitude r) one)
        (ClampMagnitude (ofZ3 3 3 3) one) = Some true
   /\ 3 * 9686331 ^ 2 > 2 ^ 48)
  /\ (let v := mk (div one (of_Z 11)) (div (of_Z 2) (of_Z 13)) pzero in
      v = mk (S754_finite false 12201612 (-27))
             (S754_finite false 10324441 (-26)) pzero
      /\ magnitude v = S754_finite false 11992244 (-26)
      /\ leb (magnitude v) (magnitude v) = true
      /\ ClampMagnitude v (magnitude v)
         = Some (mk (S754_finite false 12201611 (-27))
                    (S754_finite false 10324441 (-26)) pzero)
      /\ 12201612 ^ 2 + 4 * 10324441 ^ 2 <= 4 * 11992244 ^ 2).
Proof. repeat split; try reflexivity; vm_compute; congruence. Qed.

End Clamping.

(** ** The angle between two vectors (claim C9) *)

Module Angles.

Import Float32Facts.

Lemma Normalize_zero : Normalize zero = Some zero.
Proof. reflexivity. Qed.

Lemma mul_pzero_finite (a : float) :
  is_finite a = true -> is_zero (mul pzero a) = true.
Proof. destruct a; try discriminate; reflexivity. Qed.

Lemma add_zeros (a b : float) :
  is_zero a = true -> is_zero b = true -> is_zero (add a b) = true.
Proof. destruct a as [[|]| | |], b as [[|]| | |]; try discriminate; reflexivity. Qed.

(** The dot product of the zero vector with a finite vector is a zero. *)
Lemma Dot_zero_l (n : Vector3) :
  finiteV n = true -> is_zero (Dot zero n) = true.
Proof.
  intros H. destruct (Invariant.finiteV_fields n H) as (Hx & Hy & Hz).
  unfold Dot, zero. cbn [x y z].
  repeat apply add_zeros; now apply mul_pzero_finite.
Qed.

Lemma Dot_zero_r (n : Vector3) :
  finiteV n = true -> is_zero (Dot n zero) = true.
Proof. rewrite Products.Dot_comm. apply Dot_zero_l. Qed.

(** [Normalize] returns, with a finite vector, unless its argument has an
    infinite field and no NaN. *)
Lemma Normalize_returns (v : Vector3) :
  hasInfs v && negb (hasNaNs v) = false ->
  exists n, Normalize v = Some n /\ finiteV n = true.
Proof.
  intros H. destruct (hasNaNs v) eqn:Hn.
  - exists zero. split; [|reflexivity].
    rewrite Normalization.Normalize_fields.
    pose proof (Normalization.magnitude_isnan v) as M. rewrite Hn in M.
    destruct (magnitude v); try discriminate M.
    now rewrite Normalization.gtb_nan_l.
  - rewrite andb_true_r in H. apply Normalization.Normalize_finite.
    unfold hasNaNs in Hn. unfold hasInfs in H. unfold finiteV.
    destruct (x v), (y v), (z v); try discriminate; reflexivity.
Qed.

Section Libm.

(** The C library's [acosf] and the constant [Mathf::Rad2Deg]. *)
Variable acosf : float -> float.
Variable Rad2Deg : float.

(** The arc cosine of a zero, converted to degrees, is rounded to 90: this
    is so when [acosf(0)] is the binary32 nearest to pi/2 and [Rad2Deg] is
    [57.29578f]. *)
Hypothesis right_angle :
  forall s, mul (acosf (S754_zero s)) Rad2Deg = of_Z 90.

Lemma right_angle_of_zero (c : float) :
  is_zero c = true -> mul (acosf c) Rad2Deg = of_Z 90.
Proof. destruct c; try discriminate. intros _. apply right_angle. Qed.

(** Claim C9, as amended.  [Angle(from, to)] is
    [acosf(Dot(Normalize(from), Normalize(to))) * Rad2Deg].  When one input
    is the zero vector and the other has no infinite field (or has a NaN
    field), the call returns exactly 90; when the other input has an
    infinite field and no NaN, [Normalize] stops on its NaN assertion, and
    so does [Angle]. *)
Theorem Angle_zero_vector (v : Vector3) :
  (forall from to,
     Angle acosf Rad2Deg from to
     = (nf <- Normalize from ;; nt <- Normalize to ;;
        Some (mul (acosf (Dot nf nt)) Rad2Deg)))
  /\ (hasInfs v && negb (hasNaNs v) = false ->
      Angle acosf Rad2Deg zero v = Some (of_Z 90)
      /\ Angle acosf Rad2Deg v zero = Some (of_Z 90))
  /\ (hasInfs v && negb (hasNaNs v) = true ->
      Angle acosf Rad2Deg zero v = None
      /\ Angle acosf Rad2Deg v zero = None).
Proof.
  split; [reflexivity|]. split; intros H; unfold Angle.
  - destruct (Normalize_returns v H) as (n & -> & Hn).
    rewrite Normalize_zero. simpl.
    now rewrite !right_angle_of_zero by auto using Dot_zero_l, Dot_zero_r.
  - apply andb_true_iff in H. destruct H as [Hi Hn].
    apply negb_true_iff in Hn.
    rewrite (Normalization.Normalize_inplace_checked v),
      (Normalization.Normalize_inplace_hasNaNs v), Hi, Hn.
    split; reflexivity.
Qed.

End Libm.

(** The theorem of claim C9 with an [acosf] that returns the binary32
    nearest to pi/2 at the zeros, and [Rad2Deg = 57.29578f]:
    [Angle((0, 0, 0), (1, 2, 3))] is 90. *)
Lemma Angle_zero_vector_witness :
  Angle (fun c => if is_zero c then S754_finite false 13176795 (-23) else nan)
        (dec 5729578 5) zero (ofZ3 1 2 3)
  = Some (of_Z 90).
Proof.
  apply (Angle_zero_vector
           (fun c => if is_zero c then S754_finite false 13176795 (-23)
                     else nan)
           (dec 5729578 5) (fun _ => eq_refl) (ofZ3 1 2 3));
    reflexivity.
Defined.

(** Claim C9 as stated fails when the other input is [(+inf, 0, 0)]:
    [Normalize] divides [inf] by [inf], the constructor's assertion stops
    it, and [Angle] never reaches [acosf], whatever [acosf] and [Rad2Deg]
    are. *)
Lemma Angle_zero_infinite_stops :
  hasNaNs (mk pinf pzero pzero) = false
  /\ Normalize (mk pinf pzero pzero) = None
  /\ (forall acosf Rad2Deg,
        Angle acosf Rad2Deg zero (mk pinf pzero pzero) = None
        /\ Angle acosf Rad2Deg (mk pinf pzero pzero) zero = None).
Proof. repeat split; reflexivity. Qed.

End Angles.

(** * Further properties of the header

    The operators as a whole, and the inline functions the claims do not
    reach: [Scale], [Distance], [DistanceSquared], [Min], [Max],
    [Reflect]. *)

(** ** More binary32 facts *)

Module Float32Algebra.

Import Float32Facts.

Lemma neg_involutive (a : float) : neg (neg a) = a.
Proof. destruct a; simpl; now rewrite ?negb_involutive. Qed.

(** [a - b] is [a + (-b)], bit for bit. *)
Lemma sub_add_neg (a b : float) : sub a b = add a (neg b).
Proof.
  destruct a as [[|]|[|]| |sa ma ea], b as [[|]|[|]| |sb mb eb];
    try reflexivity.
  unfold sub, add, neg, SFsub, SFadd, SFopp.
  f_equal. destruct sb; simpl; lia.
Qed.

Lemma mul_neg_l (a b : float) : mul (neg a) b = neg (mul a b).
Proof.
  destruct a as [sa|sa| |sa ma ea], b as [sb|sb| |sb mb eb];
    try reflexivity; simpl; try (now destruct sa, sb).
  unfold mul, SFmul. rewrite opp_binary_round_aux.
  now destruct sa, sb.
Qed.

Lemma mul_neg_r (a b : float) : mul a (neg b) = neg (mul a b).
Proof. now rewrite (mul_comm a), mul_neg_l, (mul_comm b). Qed.

Lemma mul_neg_neg (a : float) : mul (neg a) (neg a) = mul a a.
Proof. now rewrite mul_neg_l, mul_neg_r, neg_involutive. Qed.

Lemma mul_zeros (a b : float) :
  is_zero a = true -> is_zero b = true -> mul a a = mul b b.
Proof. destruct a as [[|]| | |], b as [[|]| | |]; try discriminate; reflexivity. Qed.

(** The square of a difference does not depend on the order. *)
Lemma sq_sub_swap (a b : float) :
  mul (sub a b) (sub a b) = mul (sub b a) (sub b a).
Proof.
  destruct (neg_sub a b) as [<-|[Hz Hz']].
  - now rewrite mul_neg_neg.
  - now apply mul_zeros.
Qed.

Lemma leb_refl (a : float) : isnan a = false -> leb a a = true.
Proof.
  intros H. pose proof (eqb_refl a H) as E.
  unfold eqb, SFeqb in E. unfold leb, SFleb.
  now destruct (SFcompare a a) as [[| |]|].
Qed.

Lemma ltb_leb (a b : float) : ltb a b = true -> leb a b = true.
Proof.
  unfold ltb, leb, SFltb, SFleb.
  now destruct (SFcompare a b) as [[| |]|].
Qed.

Lemma ltb_not_nan_l (a b : float) : ltb a b = true -> isnan a = false.
Proof. destruct a, b; simpl; try reflexivity; discriminate. Qed.

(** Without a NaN, [a < b] or [b <= a]. *)
Lemma not_ltb_geb (a b : float) :
  isnan a = false -> isnan b = false -> ltb a b = false -> leb b a = true.
Proof.
  intros Ha Hb H. change (geb a b = true).
  now rewrite geb_negb_ltb, H.
Qed.

End Float32Algebra.

(** ** The arithmetic operators together *)

Module Operators.

Import Float32Facts Float32Algebra.

(** An assertion that the constructor repeats changes nothing. *)
Lemma guard_redundant (g : bool) (a b c : float) :
  (g = false -> isnan a || isnan b || isnan c = true) ->
  Assert g ;;; Vector3_xyz a b c = Vector3_xyz a b c.
Proof.
  destruct g; [reflexivity|]. intros H. simpl.
  symmetry. now apply Invariant.Vector3_xyz_nan, H.
Qed.

Lemma hasNaNs_false_fields (v : Vector3) :
  hasNaNs v = false ->
  isnan v.(x) = false /\ isnan v.(y) = false /\ isnan v.(z) = false.
Proof.
  unfold hasNaNs. intros H.
  apply orb_false_iff in H. destruct H as [H Hz].
  apply orb_false_iff in H. now destruct H as [Hx Hy].
Qed.

(** Decides [g = false -> isnan ... = true] where [g] is the negated
    [hasNaNs] of an operand. *)
Ltac operand_nan :=
  unfold hasNaNs; cbn [x y z];
  rewrite ?add_isnan, ?sub_isnan, ?mul_isnan, ?div_isnan,
    ?Invariant.neg_isnan;
  repeat match goal with
    | |- context [isnan ?a] => is_var a; destruct (isnan a)
    end;
  simpl; rewrite ?orb_true_r; simpl;
  try reflexivity; try discriminate; try (intros; reflexivity).

Lemma op_add_fields (a b : Vector3) :
  op_add a b
  = Vector3_xyz (add a.(x) b.(x)) (add a.(y) b.(y)) (add a.(z) b.(z)).
Proof.
  unfold op_add. apply guard_redundant.
  destruct a as [ax ay az], b as [bx by_ bz]. operand_nan.
Qed.

Lemma op_sub_fields (a b : Vector3) :
  op_sub a b
  = Vector3_xyz (sub a.(x) b.(x)) (sub a.(y) b.(y)) (sub a.(z) b.(z)).
Proof.
  unfold op_sub. apply guard_redundant.
  destruct a as [ax ay az], b as [bx by_ bz]. operand_nan.
Qed.

Lemma op_mul_fields (a b : Vector3) :
  op_mul a b
  = Vector3_xyz (mul a.(x) b.(x)) (mul a.(y) b.(y)) (mul a.(z) b.(z)).
Proof.
  unfold op_mul. apply guard_redundant.
  destruct a as [ax ay az], b as [bx by_ bz]. operand_nan.
Qed.

Lemma op_mulf_fields (v : Vector3) (f : float) :
  op_mulf v f = Vector3_xyz (mul v.(x) f) (mul v.(y) f) (mul v.(z) f).
Proof.
  unfold op_mulf. apply guard_redundant.
  destruct v as [vx vy vz]. operand_nan.
Qed.

Lemma op_fmul_fields (f : float) (v : Vector3) :
  op_fmul f v = Vector3_xyz (mul v.(x) f) (mul v.(y) f) (mul v.(z) f).
Proof.
  unfold op_fmul. apply guard_redundant.
  destruct v as [vx vy vz]. operand_nan.
Qed.

(** The sum and the field by field product of two vectors do not depend
    on the order of the operands, failed assertions included; the member
    [operator*] and the static [Scale] are the same function. *)
Theorem sum_and_product_commute (a b : Vector3) :
  op_add a b = op_add b a
  /\ op_mul a b = op_mul b a
  /\ Scale a b = Scale b a
  /\ op_mul a b = Scale a b.
Proof.
  rewrite !op_add_fields, !op_mul_fields. unfold Scale.
  rewrite (add_comm (x a)), (add_comm (y a)), (add_comm (z a)),
    (mul_comm (x a)), (mul_comm (y a)), (mul_comm (z a)).
  repeat split.
Qed.

(** [a - b] is [a + (-b)]: the same vector, or the same failed
    assertion. *)
Theorem difference_is_sum_with_opposite (a b : Vector3) :
  op_sub a b = (nb <- op_neg b ;; op_add a nb).
Proof.
  rewrite op_sub_fields. unfold op_neg, Vector3_xyz at 2, bind at 1, Assert.
  destruct (hasNaNs (mk (neg (x b)) (neg (y b)) (neg (z b)))) eqn:E; simpl.
  - apply Invariant.Vector3_xyz_nan.
    revert E. destruct a as [ax ay az], b as [bx by_ bz]. operand_nan.
  - rewrite op_add_fields. cbn [x y z]. now rewrite !sub_add_neg.
Qed.

(** The friend [f * v] and the member [v * f] are the same function. *)
Theorem scalar_product_either_side (f : float) (v : Vector3) :
  op_fmul f v = op_mulf v f.
Proof. now rewrite op_fmul_fields, op_mulf_fields. Qed.

Lemma stored_when_returned (g g' : bool) (a b c : float) (r : Vector3) :
  (g = true -> g' = true) ->
  Assert g ;;; Vector3_xyz a b c = Some r ->
  Assert g' ;;; Some (mk a b c) = Some r.
Proof.
  intros G. destruct g; [|discriminate]. rewrite (G eq_refl). simpl.
  unfold Vector3_xyz, bind, Assert.
  now destruct (negb (hasNaNs (mk a b c))).
Qed.

(** Whenever a value-returning operator returns a vector, the compound
    assignment with the same operands leaves that vector in the receiver;
    so does the member [Scale] for the static [Scale]. *)
Theorem compound_assignment_agrees (this v r : Vector3) (f : float) :
  (op_add this v = Some r -> op_add_assign this v = Some r)
  /\ (op_sub this v = Some r -> op_sub_assign this v = Some r)
  /\ (op_addf this f = Some r -> op_addf_assign this f = Some r)
  /\ (op_subf this f = Some r -> op_subf_assign this f = Some r)
  /\ (op_mulf this f = Some r -> op_mulf_assign this f = Some r)
  /\ (op_divf this f = Some r -> op_divf_assign this f = Some r)
  /\ (Scale this v = Some r -> Scale_inplace this v = r).
Proof.
  repeat match goal with |- _ /\ _ => split end;
    try (apply stored_when_returned; tauto).
  - apply stored_when_returned. intros H.
    apply andb_true_iff in H. tauto.
  - unfold Scale, Scale_inplace, Vector3_xyz, bind, Assert.
    destruct (negb (hasNaNs _)); [|discriminate]. now intros [= <-].
Qed.

(** The theorem at [(1, 2, 3) + (4, 5, 6)]. *)
Lemma compound_assignment_agrees_witness :
  op_add_assign (ofZ3 1 2 3) (ofZ3 4 5 6) = Some (ofZ3 5 7 9).
Proof.
  apply (proj1 (compound_assignment_agrees
                  (ofZ3 1 2 3) (ofZ3 4 5 6) (ofZ3 5 7 9) pzero)).
  reflexivity.
Defined.

(** Negating twice gives the vector back, and negation keeps the
    magnitude, bit for bit; on a vector with a NaN field unary minus
    stops. *)
Theorem negation_involutive (v : Vector3) :
  (n <- op_neg v ;; op_neg n) = (if hasNaNs v then None else Some v)
  /\ option_map magnitude (op_neg v)
     = (if hasNaNs v then None else Some (magnitude v))
  /\ option_map sqrMagnitude (op_neg v)
     = (if hasNaNs v then None else Some (sqrMagnitude v)).
Proof.
  destruct v as [a b c].
  unfold op_neg, Vector3_xyz, bind, Assert, hasNaNs. cbn [x y z].
  rewrite !Invariant.neg_isnan.
  destruct (isnan a || isnan b || isnan c) eqn:E; simpl;
    [repeat split|].
  rewrite !Invariant.neg_isnan, E. simpl.
  unfold magnitude, sqrMagnitude. cbn [x y z].
  now rewrite !neg_involutive, !mul_neg_neg.
Qed.

(** Multiplying by [1.0f] gives the vector back, on either side of the
    product, with [*=], and through [Scale] by [(1, 1, 1)], as long as the
    fields are binary32 data other than NaN. *)
Theorem product_by_one (v : Vector3) :
  validV v = true -> hasNaNs v = false ->
  op_mulf v one = Some v
  /\ op_fmul one v = Some v
  /\ op_mulf_assign v one = Some v
  /\ op_mul v (mk one one one) = Some v
  /\ Scale v (mk one one one) = Some v
  /\ Scale_inplace v (mk one one one) = v.
Proof.
  intros Hv Hn.
  destruct (Interpolation.validV_fields v Hv) as (Vx & Vy & Vz).
  rewrite op_fmul_fields, op_mulf_fields, op_mul_fields.
  unfold op_mulf_assign, Scale, Scale_inplace. cbn [x y z bind Assert isnan one].
  rewrite !mul_one_r by assumption.
  assert (E : Vector3_xyz (x v) (y v) (z v) = Some v).
  { unfold Vector3_xyz, bind, Assert.
    replace (hasNaNs (mk (x v) (y v) (z v))) with (hasNaNs v)
      by now destruct v.
    rewrite Hn. now destruct v. }
  rewrite E. repeat split; now destruct v.
Qed.

(** The theorem at [(1, 2, 3)]. *)
Lemma product_by_one_witness : op_mulf (ofZ3 1 2 3) one = Some (ofZ3 1 2 3).
Proof.
  apply (proj1 (product_by_one (ofZ3 1 2 3) eq_refl eq_refl)).
Defined.

End Operators.

(** ** Distances and the symmetry of equality *)

Module Distances.

Import Float32Facts Float32Algebra.

(** A function of the difference [a - b], written on the three
    subtractions. *)
Lemma of_difference {A : Type} (F : Vector3 -> A) (a b : Vector3) :
  (d <- op_sub a b ;; Some (F d))
  = if isnan (sub a.(x) b.(x)) || isnan (sub a.(y) b.(y))
       || isnan (sub a.(z) b.(z))
    then None
    else Some (F (mk (sub a.(x) b.(x)) (sub a.(y) b.(y)) (sub a.(z) b.(z)))).
Proof.
  rewrite Operators.op_sub_fields.
  unfold Vector3_xyz, bind, Assert, hasNaNs. cbn [x y z].
  now destruct (isnan _ || isnan _ || isnan _).
Qed.

Lemma sum_squares_swap (a b : Vector3) :
  SqrMagnitude (mk (sub a.(x) b.(x)) (sub a.(y) b.(y)) (sub a.(z) b.(z)))
  = SqrMagnitude (mk (sub b.(x) a.(x)) (sub b.(y) a.(y)) (sub b.(z) a.(z))).
Proof.
  unfold SqrMagnitude. cbn [x y z].
  now rewrite (sq_sub_swap (x a)), (sq_sub_swap (y a)), (sq_sub_swap (z a)).
Qed.

(** [Distance] and [DistanceSquared] are symmetric, and so are
    [operator==] and [operator!=]: swapping the operands gives the same
    float, the same truth value, or the same failed assertion. *)
Theorem distance_symmetric (a b : Vector3) :
  DistanceSquared a b = DistanceSquared b a
  /\ Distance a b = Distance b a
  /\ op_eq a b = op_eq b a
  /\ op_ne a b = op_ne b a.
Proof.
  unfold DistanceSquared, Distance, op_eq, op_ne.
  rewrite !(of_difference _ a b), !(of_difference _ b a).
  rewrite (Products.sub_isnan_swap (x a)), (Products.sub_isnan_swap (y a)),
    (Products.sub_isnan_swap (z a)).
  destruct (isnan _ || isnan _ || isnan _); [repeat split|].
  pose proof (sum_squares_swap a b) as E.
  assert (M : Magnitude (mk (sub (x a) (x b)) (sub (y a) (y b))
                            (sub (z a) (z b)))
              = Magnitude (mk (sub (x b) (x a)) (sub (y b) (y a))
                              (sub (z b) (z a)))).
  { unfold Magnitude. unfold SqrMagnitude in E. cbn [x y z] in *.
    now rewrite E. }
  rewrite E, M. repeat split.
Qed.

Lemma finiteV_false (a : Vector3) :
  finiteV a = false ->
  isnan (sub a.(x) a.(x)) || isnan (sub a.(y) a.(y))
  || isnan (sub a.(z) a.(z)) = true.
Proof.
  unfold finiteV. intros H.
  apply andb_false_iff in H. destruct H as [H|H];
    [apply andb_false_iff in H; destruct H as [H|H]|];
    rewrite (Products.sub_self_not_finite _ H);
    now rewrite ?orb_true_r.
Qed.

(** The distance of a vector to itself is [+0], and [a == a] holds,
    exactly when every field of [a] is finite; when a field is an infinity
    or a NaN, [a - a] has a NaN field and all four functions stop on the
    assertion. *)
Theorem distance_to_itself (a : Vector3) :
  DistanceSquared a a = (if finiteV a then Some pzero else None)
  /\ Distance a a = (if finiteV a then Some pzero else None)
  /\ op_eq a a = (if finiteV a then Some true else None)
  /\ op_ne a a = (if finiteV a then Some false else None).
Proof.
  unfold DistanceSquared, Distance, op_eq, op_ne.
  rewrite !(of_difference _ a a).
  destruct (finiteV a) eqn:F.
  - destruct (Invariant.finiteV_fields a F) as (Hx & Hy & Hz).
    rewrite !sub_diag by assumption. repeat split.
  - rewrite (finiteV_false a F). repeat split.
Qed.

End Distances.

(** ** Field by field minimum and maximum *)

Module Extrema.

Import Float32Facts Float32Algebra.

Lemma std_max_spec (a b : float) :
  isnan a = false -> isnan b = false ->
  leb a (std_max a b) = true /\ leb b (std_max a b) = true.
Proof.
  intros Ha Hb. unfold std_max.
  destruct (ltb a b) eqn:L.
  - split; [now apply ltb_leb | now apply leb_refl].
  - split; [now apply leb_refl | now apply not_ltb_geb].
Qed.

Lemma std_min_spec (a b : float) :
  isnan a = false -> isnan b = false ->
  leb (std_min a b) a = true /\ leb (std_min a b) b = true.
Proof.
  intros Ha Hb. unfold std_min.
  destruct (ltb b a) eqn:L.
  - split; [now apply ltb_leb | now apply leb_refl].
  - split; [now apply leb_refl | now apply not_ltb_geb].
Qed.

(** The result of [std::max] or [std::min] is a NaN exactly when the
    first argument is. *)
Lemma std_max_isnan (a b : float) : isnan (std_max a b) = isnan a.
Proof.
  unfold std_max. destruct (ltb a b) eqn:L; [|reflexivity].
  now rewrite (ltb_not_nan_l _ _ L), (ltb_not_nan_r _ _ L).
Qed.

Lemma std_min_isnan (a b : float) : isnan (std_min a b) = isnan a.
Proof.
  unfold std_min. destruct (ltb b a) eqn:L; [|reflexivity].
  now rewrite (ltb_not_nan_l _ _ L), (ltb_not_nan_r _ _ L).
Qed.

Lemma Max_fields (a b : Vector3) :
  Max a b
  = if hasNaNs a then None
    else Some (mk (std_max a.(x) b.(x)) (std_max a.(y) b.(y))
                  (std_max a.(z) b.(z))).
Proof.
  unfold Max, Vector3_xyz, bind, Assert, hasNaNs. cbn [x y z].
  rewrite !std_max_isnan. now destruct (isnan _ || isnan _ || isnan _).
Qed.

Lemma Min_fields (a b : Vector3) :
  Min a b
  = if hasNaNs a then None
    else Some (mk (std_min a.(x) b.(x)) (std_min a.(y) b.(y))
                  (std_min a.(z) b.(z))).
Proof.
  unfold Min, Vector3_xyz, bind, Assert, hasNaNs. cbn [x y z].
  rewrite !std_min_isnan. now destruct (isnan _ || isnan _ || isnan _).
Qed.

(** On two vectors without NaN, [Max] and [Min] return, every field of
    [Max(a, b)] is at least the fields of [a] and of [b], and every field
    of [Min(a, b)] is at most them. *)
Theorem Max_Min_bounds (a b : Vector3) :
  hasNaNs a = false -> hasNaNs b = false ->
  exists r s,
    Max a b = Some r /\ Min a b = Some s
    /\ leV a r = true /\ leV b r = true
    /\ leV s a = true /\ leV s b = true.
Proof.
  intros Ha Hb. rewrite Max_fields, Min_fields, Ha.
  destruct (Operators.hasNaNs_false_fields a Ha) as (Ax & Ay & Az).
  destruct (Operators.hasNaNs_false_fields b Hb) as (Bx & By & Bz).
  destruct (std_max_spec _ _ Ax Bx) as [X1 X2].
  destruct (std_max_spec _ _ Ay By) as [Y1 Y2].
  destruct (std_max_spec _ _ Az Bz) as [Z1 Z2].
  destruct (std_min_spec _ _ Ax Bx) as [X3 X4].
  destruct (std_min_spec _ _ Ay By) as [Y3 Y4].
  destruct (std_min_spec _ _ Az Bz) as [Z3 Z4].
  eexists. eexists. split; [reflexivity|]. split; [reflexivity|].
  unfold leV. cbn [x y z].
  rewrite X1, X2, X3, X4, Y1, Y2, Y3, Y4, Z1, Z2, Z3, Z4.
  repeat split.
Qed.

(** The theorem at [(1, 5, 3)] and [(4, 2, 6)]. *)
Lemma Max_Min_bounds_witness :
  exists r s,
    Max (ofZ3 1 5 3) (ofZ3 4 2 6) = Some r
    /\ Min (ofZ3 1 5 3) (ofZ3 4 2 6) = Some s
    /\ leV (ofZ3 1 5 3) r = true /\ leV (ofZ3 4 2 6) r = true
    /\ leV s (ofZ3 1 5 3) = true /\ leV s (ofZ3 4 2 6) = true.
Proof.
  apply (Max_Min_bounds (ofZ3 1 5 3) (ofZ3 4 2 6)); reflexivity.
Defined.

(** [Max] and [Min] stop exactly when the first operand has a NaN field.
    A NaN in the second operand is never reported: the field of the first
    operand is returned in its place, so that against a vector of NaNs the
    first operand comes back unchanged. *)
Theorem Max_Min_NaN_operand (a b : Vector3) :
  (Max a b = None <-> hasNaNs a = true)
  /\ (Min a b = None <-> hasNaNs a = true)
  /\ (hasNaNs a = false ->
      Max a (mk nan nan nan) = Some a /\ Min a (mk nan nan nan) = Some a).
Proof.
  rewrite Max_fields, Min_fields.
  split; [|split].
  - destruct (hasNaNs a); split; try reflexivity; discriminate.
  - destruct (hasNaNs a); split; try reflexivity; discriminate.
  - intros Ha. rewrite Max_fields, Min_fields, Ha.
    unfold std_max, std_min, ltb, SFltb.
    destruct a as [[| | |] [| | |] [| | |]]; try discriminate Ha;
      split; reflexivity.
Qed.

(** The theorem at [(1, 2, 3)]. *)
Lemma Max_Min_NaN_operand_witness :
  Max (ofZ3 1 2 3) (mk nan nan nan) = Some (ofZ3 1 2 3)
  /\ Min (ofZ3 1 2 3) (mk nan nan nan) = Some (ofZ3 1 2 3).
Proof.
  apply (proj2 (proj2 (Max_Min_NaN_operand (ofZ3 1 2 3) zero))).
  reflexivity.
Defined.

End Extrema.

(** ** Reflection *)

Module Reflection.

Import Float32Facts Float32Algebra.

Lemma mul_finite_zero (a f : float) :
  is_finite a = true -> is_zero f = true -> is_zero (mul a f) = true.
Proof. destruct a, f; try discriminate; reflexivity. Qed.

Lemma add_zero_finite (z0 a : float) :
  is_zero z0 = true -> is_finite a = true ->
  add z0 a = a \/ (is_zero (add z0 a) = true /\ is_zero a = true).
Proof.
  destruct z0 as [[|]| | |]; try discriminate;
    destruct a as [[|]| | |]; try discriminate; intros _ _;
    try (left; reflexivity); right; split; reflexivity.
Qed.

(** Reflecting a direction off a plane whose normal is orthogonal to it
    (the computed dot product is a zero) gives the direction back, up to
    the sign of its zero fields; in particular with the zero vector as
    normal.  Both vectors are finite. *)
Theorem Reflect_orthogonal (inDirection inNormal : Vector3) :
  finiteV inDirection = true -> finiteV inNormal = true ->
  is_zero (Dot inNormal inDirection) = true ->
  exists r, Reflect inDirection inNormal = Some r
            /\ eqV r inDirection = true
            /\ op_eq r inDirection = Some true.
Proof.
  intros Hd Hn Hz.
  destruct (Invariant.finiteV_fields _ Hd) as (Dx & Dy & Dz).
  destruct (Invariant.finiteV_fields _ Hn) as (Nx & Ny & Nz).
  unfold Reflect.
  set (f := mul (neg (of_Z 2)) (Dot inNormal inDirection)).
  assert (Hf : is_zero f = true).
  { subst f. destruct (Dot inNormal inDirection); try discriminate Hz.
    reflexivity. }
  rewrite Operators.op_fmul_fields.
  pose proof (mul_finite_zero _ _ Nx Hf) as Zx.
  pose proof (mul_finite_zero _ _ Ny Hf) as Zy.
  pose proof (mul_finite_zero _ _ Nz Hf) as Zz.
  unfold Vector3_xyz at 1, bind at 2, Assert, hasNaNs. cbn [x y z].
  rewrite !(Products.is_zero_not_nan _ Zx), !(Products.is_zero_not_nan _ Zy),
    !(Products.is_zero_not_nan _ Zz).
  cbn [orb negb bind].
  rewrite Operators.op_add_fields. cbn [x y z].
  destruct (Interpolation.same_or_zeros_sub _ _ Dx
              (add_zero_finite _ _ Zx Dx)) as (Sx & Ex & Mx).
  destruct (Interpolation.same_or_zeros_sub _ _ Dy
              (add_zero_finite _ _ Zy Dy)) as (Sy & Ey & My).
  destruct (Interpolation.same_or_zeros_sub _ _ Dz
              (add_zero_finite _ _ Zz Dz)) as (Sz & Ez & Mz).
  unfold Vector3_xyz, bind, Assert, hasNaNs. cbn [x y z].
  rewrite Mx, My, Mz. cbn [orb negb].
  eexists. split; [reflexivity|]. split.
  - unfold eqV. cbn [x y z]. now rewrite Ex, Ey, Ez.
  - apply Products.op_eq_zero_difference; cbn [x y z]; auto.
    now apply Invariant.finiteV_not_nan.
Qed.

(** The theorem at the direction [(1, 0, 0)] and the normal [(0, 1, 0)]. *)
Lemma Reflect_orthogonal_witness :
  exists r, Reflect (ofZ3 1 0 0) (ofZ3 0 1 0) = Some r
            /\ eqV r (ofZ3 1 0 0) = true
            /\ op_eq r (ofZ3 1 0 0) = Some true.
Proof.
  apply (Reflect_orthogonal (ofZ3 1 0 0) (ofZ3 0 1 0)); reflexivity.
Defined.

End Reflection.

(** ** Magnitudes and vectors that hold a NaN or an infinity *)

Module SpecialValues.

Import Float32Facts Float32Algebra.

Lemma sqrtf_sign (a : float) : signbit a = false -> signbit (sqrtf a) = false.
Proof.
  destruct a as [s|s| |s m e]; simpl; intros H; subst; try reflexivity.
  unfold sqrtf, SFsqrt.
  pose proof (sqrt_core_nonneg m e) as Q.
  destruct (SFsqrt_core_binary prec emax (Z.pos m) e) as [[mz ez] lz].
  simpl in Q. apply binary_round_aux_sign.
  now apply binary_round_aux_not_nan.
Qed.

(** A vector with an infinite field and no NaN has squared magnitude
    [+inf]. *)
Lemma sqrMagnitude_inf (v : Vector3) :
  hasNaNs v = false -> hasInfs v = true -> sqrMagnitude v = pinf.
Proof.
  destruct v as [a b c]. unfold hasNaNs, hasInfs, sqrMagnitude. cbn [x y z].
  intros Hn Hi.
  apply orb_false_iff in Hn. destruct Hn as [Hn Hc].
  apply orb_false_iff in Hn. destruct Hn as [Ha Hb].
  apply orb_true_iff in Hi. destruct Hi as [Hi|Hi];
    [apply orb_true_iff in Hi; destruct Hi as [Hi|Hi]|];
    rewrite (mul_self_inf _ Hi).
  - rewrite add_pinf_l, add_pinf_l;
      rewrite ?mul_self_isnan; auto using mul_self_sign.
  - rewrite add_pinf_r, add_pinf_l;
      rewrite ?mul_self_isnan; auto using mul_self_sign.
  - rewrite add_pinf_r; auto using add_nonneg_sign, mul_self_sign.
    rewrite add_nonneg_isnan, !mul_self_isnan, Ha, Hb;
      auto using mul_self_sign.
Qed.

(** [magnitude()] and [sqrMagnitude()] (and their static forms) return a
    NaN exactly when a field is a NaN, never a negative float or [-0], and
    [+inf] when a field is an infinity and none is a NaN. *)
Theorem magnitude_special_values (v : Vector3) :
  isnan (magnitude v) = hasNaNs v
  /\ isnan (sqrMagnitude v) = hasNaNs v
  /\ signbit (magnitude v) = false
  /\ signbit (sqrMagnitude v) = false
  /\ (hasNaNs v = false -> hasInfs v = true ->
      magnitude v = pinf /\ sqrMagnitude v = pinf)
  /\ Magnitude v = magnitude v
  /\ SqrMagnitude v = sqrMagnitude v.
Proof.
  split; [apply Normalization.magnitude_isnan|].
  split; [apply Normalization.sqrMagnitude_isnan|].
  split; [apply sqrtf_sign, Normalization.sum_squares_sign|].
  split; [apply Normalization.sum_squares_sign|].
  split; [|split; reflexivity].
  intros Hn Hi. split.
  - unfold magnitude. fold (sqrMagnitude v).
    now rewrite (sqrMagnitude_inf v Hn Hi).
  - now apply sqrMagnitude_inf.
Qed.

(** The theorem at [(1, -inf, 0)]. *)
Lemma magnitude_special_values_witness :
  magnitude (mk one ninf pzero) = pinf
  /\ sqrMagnitude (mk one ninf pzero) = pinf.
Proof.
  apply (proj1 (proj2 (proj2 (proj2 (proj2
           (magnitude_special_values (mk one ninf pzero)))))));
    reflexivity.
Defined.

(** A vector that holds a NaN goes unnoticed through normalization and
    clamping: its magnitude is a NaN, no comparison with it holds, so
    [Normalize] returns the zero vector, the member [Normalize()] zeroes the
    receiver, and [ClampMagnitude] returns the vector as it is, NaN
    included; no assertion stops any of them. *)
Theorem NaN_vector_unnoticed (v : Vector3) (maxLength : float) :
  hasNaNs v = true ->
  Normalize v = Some zero
  /\ normalized v = Some zero
  /\ Normalize_inplace v = zero
  /\ ClampMagnitude v maxLength = Some v.
Proof.
  intros H.
  pose proof (Normalization.magnitude_isnan v) as M. rewrite H in M.
  pose proof (Normalization.sqrMagnitude_isnan v) as S. rewrite H in S.
  unfold normalized, Normalize, Normalize_inplace, ClampMagnitude.
  destruct (magnitude v); try discriminate M.
  destruct (sqrMagnitude v); try discriminate S.
  rewrite Normalization.gtb_nan_l.
  repeat split. unfold gtb, ltb, SFltb.
  now destruct (mul maxLength maxLength).
Qed.

(** The theorem at [(NaN, 1, 0)], as the array constructor builds it. *)
Lemma NaN_vector_unnoticed_witness :
  ClampMagnitude
    (Vector3_array (fun i => match i with O => nan | S O => one | _ => pzero end))
    one
  = Some (mk nan one pzero).
Proof.
  apply (proj2 (proj2 (proj2
           (NaN_vector_unnoticed (mk nan one pzero) one eq_refl)))).
Defined.

(** A negative [maxLength] is not rejected: [ClampMagnitude] compares
    with its square, so it clamps exactly the vectors it clamps for
    [-maxLength], and returns the opposite vector. *)
Theorem ClampMagnitude_negative_length (v : Vector3) (maxLength : float) :
  ClampMagnitude v (neg maxLength)
  = if gtb (sqrMagnitude v) (mul maxLength maxLength)
    then r <- ClampMagnitude v maxLength ;; op_neg r
    else Some v.
Proof.
  unfold ClampMagnitude. rewrite mul_neg_neg.
  destruct (gtb (sqrMagnitude v) (mul maxLength maxLength)); [|reflexivity].
  destruct (normalized v) as [n|]; [|reflexivity].
  cbn [bind]. rewrite !Operators.op_mulf_fields, !mul_neg_r.
  unfold op_neg, Vector3_xyz, bind, Assert, hasNaNs. cbn [x y z].
  rewrite !Invariant.neg_isnan.
  destruct (isnan _ || isnan _ || isnan _) eqn:E; cbn [negb]; [reflexivity|].
  cbn [x y z]. now rewrite !Invariant.neg_isnan, E.
Qed.

End SpecialValues.

(** ** A scalar divided by a vector *)

Module ScalarQuotient.

Import Float32Facts.

Lemma div_finite_by_zero (f z0 : float) :
  is_finite f = true -> is_zero f = false -> is_zero z0 = true ->
  is_inf (div f z0) = true.
Proof.
  destruct f as [s|s| |s m e]; try discriminate;
    destruct z0 as [s0|s0| |s0 m0 e0]; try discriminate; reflexivity.
Qed.

Lemma div_finite_nonzero_isnan (f a : float) :
  is_finite f = true -> is_zero f = false -> isnan a = false ->
  isnan (div f a) = false.
Proof.
  intros Hf Hz Ha. rewrite div_isnan, Ha, Hz.
  destruct f; try discriminate; reflexivity.
Qed.

Lemma div_zero_by_zero (f z0 : float) :
  is_zero f = true -> is_zero z0 = true -> isnan (div f z0) = true.
Proof.
  intros Hf Hz. rewrite div_isnan, Hf, Hz. cbn [andb]. apply orb_true_r.
Qed.

(** [f / v] checks [f] and [v] for NaN only.  Where [v] holds a zero and
    no NaN, a finite [f] other than zero gives a vector with an infinite
    field, and no assertion fails; a zero [f] gives a NaN field, on which
    the constructor stops.  [v / f], in contrast, stops on every zero
    [f]. *)
Theorem scalar_over_zero_field (f : float) (v : Vector3) :
  is_finite f = true -> hasNaNs v = false -> hasZeros v = true ->
  (is_zero f = false ->
     exists r, op_fdiv f v = Some r /\ hasInfs r = true)
  /\ (is_zero f = true -> op_fdiv f v = None)
  /\ (forall z0, is_zero z0 = true -> op_divf v z0 = None).
Proof.
  intros Hf Hn Hz.
  pose proof (is_finite_not_nan f Hf) as Nf.
  pose proof Hn as Hn'. unfold hasNaNs in Hn'.
  apply orb_false_iff in Hn'. destruct Hn' as [Hn' Nz].
  apply orb_false_iff in Hn'. destruct Hn' as [Nx Ny].
  unfold op_fdiv, bind, Assert. rewrite Nf, Hn. cbn [negb andb].
  split; [|split].
  - intros Z. unfold Vector3_xyz, bind, Assert, hasNaNs. cbn [x y z].
    rewrite !div_finite_nonzero_isnan by assumption. cbn [orb negb].
    eexists. split; [reflexivity|].
    unfold hasInfs, hasZeros in *. cbn [x y z].
    apply orb_true_iff in Hz. destruct Hz as [Hz|Hz];
      [apply orb_true_iff in Hz; destruct Hz as [Hz|Hz]|];
      rewrite (div_finite_by_zero f _ Hf Z Hz);
      now rewrite ?orb_true_r.
  - intros Z. apply Invariant.Vector3_xyz_nan.
    unfold hasZeros in Hz.
    apply orb_true_iff in Hz. destruct Hz as [Hz|Hz];
      [apply orb_true_iff in Hz; destruct Hz as [Hz|Hz]|];
      rewrite (div_zero_by_zero f _ Z Hz);
      now rewrite ?orb_true_r.
  - intros z0 Z. apply Invariant.div_asserts_divisor. now right.
Qed.

(** The theorem at [f = 1], [v = (0, 1, 2)]. *)
Lemma scalar_over_zero_field_witness :
  exists r, op_fdiv one (ofZ3 0 1 2) = Some r /\ hasInfs r = true.
Proof.
  apply (proj1 (scalar_over_zero_field one (ofZ3 0 1 2)
                  eq_refl eq_refl eq_refl)).
  reflexivity.
Defined.

End ScalarQuotient.

(** * Accuracy

    Every operation of binary32 returns the float nearest to the exact
    result.  The first module measures that for one operation: a finite
    result is [u = 2^-24] of the exact result, and [eta = 2^-150], away from
    it at most.  The second module follows the errors through the
    functions of the header. *)

(** ** The error of one operation *)

Module Rounding.

Import Float32Facts Exact.

Local Open Scope R_scope.

(** *** Powers of two *)

Lemma bpow_pos (e : Z) : 0 < bpow e.
Proof. apply powerRZ_lt. lra. Qed.

Lemma bpow_add (a b : Z) : bpow (a + b) = bpow a * bpow b.
Proof. apply powerRZ_add. lra. Qed.

Lemma bpow_0 : bpow 0 = 1.
Proof. reflexivity. Qed.

Lemma bpow_1 : bpow 1 = 2.
Proof. unfold bpow. simpl. lra. Qed.

Lemma bpow_m1 : bpow (-1) = / 2.
Proof. unfold bpow. simpl. f_equal. lra. Qed.

Lemma bpow_succ (a : Z) : bpow (a + 1) = 2 * bpow a.
Proof. rewrite bpow_add, bpow_1. lra. Qed.

Lemma bpow_pred (a : Z) : bpow (a - 1) = bpow a / 2.
Proof.
  replace (a - 1)%Z with (a + (-1))%Z by lia.
  rewrite bpow_add, bpow_m1. lra.
Qed.

Lemma bpow_IZR (n : Z) : (0 <= n)%Z -> bpow n = IZR (2 ^ n).
Proof.
  intros H. unfold bpow. rewrite <- (Z2Nat.id n H) at 1.
  rewrite <- pow_powerRZ. rewrite <- (Z2Nat.id n H) at 2.
  generalize (Z.to_nat n). intros k.
  induction k as [|k IH].
  - reflexivity.
  - rewrite Nat2Z.inj_succ, Z.pow_succ_r by lia.
    rewrite mult_IZR, <- IH. simpl. lra.
Qed.

Lemma bpow_le (a b : Z) : (a <= b)%Z -> bpow a <= bpow b.
Proof.
  intros H. replace b with (a + (b - a))%Z by lia.
  rewrite bpow_add, (bpow_IZR (b - a)) by lia.
  pose proof (bpow_pos a).
  assert (1 <= IZR (2 ^ (b - a))).
  { apply IZR_le. pose proof (Z.pow_pos_nonneg 2 (b - a)). lia. }
  nra.
Qed.

Lemma bpow_lt (a b : Z) : (a < b)%Z -> bpow a < bpow b.
Proof.
  intros H. replace b with (a + (b - a))%Z by lia.
  rewrite bpow_add, (bpow_IZR (b - a)) by lia.
  pose proof (bpow_pos a).
  assert (2 <= IZR (2 ^ (b - a))).
  { apply IZR_le. replace (b - a)%Z with (Z.succ (b - a - 1)) by lia.
    rewrite Z.pow_succ_r by lia.
    pose proof (Z.pow_pos_nonneg 2 (b - a - 1)). lia. }
  nra.
Qed.

Lemma IZR_xO (p : positive) : IZR (Z.pos p~0) = 2 * IZR (Z.pos p).
Proof. rewrite Pos2Z.inj_xO, mult_IZR. reflexivity. Qed.

Lemma IZR_xI (p : positive) : IZR (Z.pos p~1) = 2 * IZR (Z.pos p) + 1.
Proof. rewrite Pos2Z.inj_xI, plus_IZR, mult_IZR. reflexivity. Qed.

Lemma shr_1_inb (mrs : shr_record) (t : R) :
  (0 <= shr_m mrs)%Z -> inb mrs t -> inb (shr_1 mrs) (t / 2).
Proof.
  destruct mrs as [[|[p|p|]|p] [|] [|]]; unfold inb;
    cbn [shr_1 shr_m shr_r shr_s orb];
    try rewrite (IZR_xO p); try rewrite (IZR_xI p);
    intros H0 H; try lia; lra.
Qed.

Lemma iter_shr_1_inb (n : positive) (mrs : shr_record) (t : R) :
  (0 <= shr_m mrs)%Z -> inb mrs t ->
  inb (iter_pos shr_1 n mrs) (t * bpow (- Z.pos n)).
Proof.
  intros H0 H.
  apply (iter_pos_count shr_1
           (fun k r => (0 <= shr_m r)%Z /\ inb r (t * bpow (- k))))
    with (k := 0%Z) (n := n) (a := mrs); try lia.
  - intros k a Hk [Ha Hi]. split; [now apply shr_1_nonneg|].
    replace (- (k + 1))%Z with (- k - 1)%Z by lia.
    rewrite bpow_pred.
    replace (t * (bpow (- k) / 2)) with (t * bpow (- k) / 2) by lra.
    now apply shr_1_inb.
  - split; [assumption|]. change (bpow (- 0)) with 1.
    now rewrite Rmult_1_r.
Qed.

Lemma inb_of_loc (m : Z) (l : location) (t : R) :
  located m l t -> inb (shr_record_of_loc m l) t.
Proof. destruct l as [|[| |]]; exact (fun H => H). Qed.

(** Rounding to nearest moves [t] by at most one half. *)
Lemma round_nearest_even_inb (mrs : shr_record) (t : R) :
  inb mrs t ->
  Rabs (IZR (round_nearest_even (shr_m mrs) (loc_of_shr_record mrs)) - t)
  <= / 2.
Proof.
  destruct mrs as [m [|] [|]]; unfold inb;
    cbn [shr_m shr_r shr_s loc_of_shr_record round_nearest_even]; intros H.
  - rewrite plus_IZR. apply Rabs_le. lra.
  - destruct (Z.even m); rewrite ?plus_IZR; apply Rabs_le; lra.
  - apply Rabs_le. lra.
  - apply Rabs_le. lra.
Qed.

(** *** The value of a rounded result *)

Lemma B2R_finite (s : bool) (m : positive) (e : Z) :
  B2R (S754_finite s m e) = sgn s * (IZR (Z.pos m) * bpow e).
Proof.
  unfold B2R, sgn. destruct s; simpl cond_Zopp; [|lra].
  change (Z.neg m) with (- Z.pos m)%Z. rewrite opp_IZR. lra.
Qed.

(** The second shift of [binary_round_aux] loses nothing: it only divides
    [2^24] by two. *)
Lemma second_shift_exact (k E : Z) :
  (0 <= k <= 2 ^ 24)%Z -> (-149 <= E)%Z ->
  IZR (shr_m (fst (shr_fexp prec emax k E loc_Exact)))
  * bpow (snd (shr_fexp prec emax k E loc_Exact))
  = IZR k * bpow E.
Proof.
  intros Hk HE. unfold shr_fexp.
  rewrite fexp_eq.
  destruct (Z.eq_dec k (2 ^ 24)) as [->|Hne].
  - change (Zdigits2 (2 ^ 24)) with 25%Z.
    replace (Z.max (25 + E - 24) (-149) - E)%Z with 1%Z by lia.
    cbn [shr shr_record_of_loc iter_pos fst snd].
    change (shr_m (shr_1 _)) with 8388608%Z.
    rewrite bpow_succ. change (2 ^ 24)%Z with 16777216%Z. lra.
  - assert (Hd : (Zdigits2 k <= 24)%Z).
    { destruct (Z.eq_dec k 0) as [->|Hz]; [simpl; lia|].
      pose proof (Zdigits2_bounds k ltac:(lia)) as [B1 _].
      destruct (Z_le_gt_dec (Zdigits2 k) 24) as [L|G]; [assumption|].
      assert (2 ^ 24 <= 2 ^ (Zdigits2 k - 1))%Z
        by (apply Z.pow_le_mono_r; lia). lia. }
    destruct (Z.max (Zdigits2 k + E - 24) (-149) - E)%Z as [|p|p] eqn:En;
      try lia; cbn [shr fst snd]; now rewrite shr_record_of_loc_m.
Qed.

(** What the first shift leaves: the position of [t * 2^(e - E)] relative
    to the shifted mantissa, [E] being the exponent of the format. *)
Lemma first_shift_inb (m e : Z) (l : location) (t : R) :
  (0 <= m)%Z -> (e <= fexp prec emax (Zdigits2 m + e))%Z ->
  located m l t ->
  let E := fexp prec emax (Zdigits2 m + e) in
  inb (fst (shr_fexp prec emax m e l)) (t * bpow (e - E))
  /\ snd (shr_fexp prec emax m e l) = E
  /\ (0 <= shr_m (fst (shr_fexp prec emax m e l)) < 2 ^ 24)%Z.
Proof.
  intros Hm He Ht E.
  destruct (shr_fexp_digits m e l Hm He) as (E1 & P1 & D1 & _).
  destruct (shr_fexp_digits_gen m e l Hm) as (_ & P1' & _ & _).
  fold E in E1.
  split; [|split; [assumption|split; [assumption|]]].
  - unfold shr_fexp. fold E.
    destruct (E - e)%Z as [|p|p] eqn:En; try lia; cbn [shr fst].
    + replace (e - E)%Z with 0%Z by lia.
      change (bpow 0) with 1. rewrite Rmult_1_r. now apply inb_of_loc.
    + replace (e - E)%Z with (- Z.pos p)%Z by lia.
      apply iter_shr_1_inb; [now rewrite shr_record_of_loc_m|].
      now apply inb_of_loc.
  - set (m1 := shr_m (fst (shr_fexp prec emax m e l))) in *.
    destruct (Z.eq_dec m1 0) as [->|Hz]; [lia|].
    assert (Hp : (0 < m1)%Z) by lia.
    specialize (D1 Hp). rewrite E1 in D1.
    pose proof (Zdigits2_bounds m1 Hp) as [_ B2].
    assert (Hd : (Zdigits2 m1 <= 24)%Z).
    { subst E. rewrite fexp_eq in D1. lia. }
    assert (2 ^ Zdigits2 m1 <= 2 ^ 24)%Z
      by (apply Z.pow_le_mono_r; lia).
    lia.
Qed.

(** The value of a rounded result that is finite: an integer multiple
    [k * 2^E] of the unit of the format, at most half a unit away from the
    value rounded. *)
Lemma binary_round_aux_value (s : bool) (m e : Z) (l : location) (t : R) :
  (0 <= m)%Z -> (e <= fexp prec emax (Zdigits2 m + e))%Z ->
  located m l t ->
  is_finite (binary_round_aux prec emax s m e l) = true ->
  let E := fexp prec emax (Zdigits2 m + e) in
  exists k : Z,
    (0 <= k)%Z
    /\ B2R (binary_round_aux prec emax s m e l) = sgn s * (IZR k * bpow E)
    /\ Rabs (IZR k * bpow E - t * bpow e) <= bpow E / 2.
Proof.
  intros Hm He Ht F E.
  destruct (first_shift_inb m e l t Hm He Ht) as (I1 & E1 & B1).
  fold E in I1, E1.
  revert F. unfold binary_round_aux.
  destruct (shr_fexp prec emax m e l) as [mrs1 e1].
  cbn [fst snd] in I1, E1, B1. subst e1.
  pose proof (round_nearest_even_inb mrs1 _ I1) as R1.
  pose proof (round_nearest_even_bounds (shr_m mrs1) (loc_of_shr_record mrs1))
    as [Rl Ru].
  set (k := round_nearest_even (shr_m mrs1) (loc_of_shr_record mrs1)) in *.
  assert (HE : (-149 <= E)%Z) by (subst E; rewrite fexp_eq; lia).
  pose proof (second_shift_exact k E ltac:(lia) HE) as S2.
  destruct (shr_fexp prec emax k E loc_Exact) as [mrs2 e2].
  cbn [fst snd] in S2.
  intros F. exists k. split; [lia|]. split.
  - destruct (shr_m mrs2) as [|m2|m2] eqn:Em.
    + simpl B2R. rewrite <- S2. simpl. lra.
    + destruct (e2 <=? emax - prec)%Z; [|discriminate F].
      rewrite B2R_finite, S2. reflexivity.
    + discriminate F.
  - pose proof (bpow_pos E) as PE.
    replace (t * bpow e) with (t * bpow (e - E) * bpow E).
    2:{ rewrite Rmult_assoc, <- bpow_add. f_equal. f_equal. lia. }
    replace (IZR k * bpow E - t * bpow (e - E) * bpow E)
      with ((IZR k - t * bpow (e - E)) * bpow E) by lra.
    rewrite Rabs_mult, (Rabs_pos_eq (bpow E)) by lra.
    apply Rmult_le_compat_r with (r := bpow E) in R1; lra.
Qed.

Lemma u_pos : 0 < u.
Proof. apply bpow_pos. Qed.

Lemma eta_pos : 0 < eta.
Proof. apply bpow_pos. Qed.

Lemma located_ge (m : Z) (l : location) (t : R) :
  located m l t -> IZR m <= t.
Proof. destruct l as [|[| |]]; simpl; lra. Qed.

Lemma IZR_ge_bpow (m : Z) :
  (0 < m)%Z -> bpow (Zdigits2 m - 1) <= IZR m.
Proof.
  intros H. pose proof (Zdigits2_bounds m H) as [B _].
  pose proof (Zdigits2_pos m H).
  rewrite bpow_IZR by lia. now apply IZR_le.
Qed.

(** Rounding moves a value by at most [u] times the value, plus [eta]. *)
Lemma round_error (s : bool) (m e : Z) (l : location) (t : R) :
  (0 <= m)%Z -> (e <= fexp prec emax (Zdigits2 m + e))%Z ->
  located m l t ->
  is_finite (binary_round_aux prec emax s m e l) = true ->
  exists r : R,
    0 <= r
    /\ B2R (binary_round_aux prec emax s m e l) = sgn s * r
    /\ Rabs (r - t * bpow e) <= u * (t * bpow e) + eta.
Proof.
  intros Hm He Ht F.
  destruct (binary_round_aux_value s m e l t Hm He Ht F) as (k & K0 & V & B).
  set (E := fexp prec emax (Zdigits2 m + e)) in *.
  exists (IZR k * bpow E).
  pose proof (bpow_pos E) as PE. pose proof (bpow_pos e) as Pe.
  pose proof (located_ge m l t Ht) as Tm.
  assert (T0 : 0 <= t) by (apply IZR_le in Hm; lra).
  split; [apply Rmult_le_pos; [now apply IZR_le | lra]|].
  split; [assumption|].
  eapply Rle_trans; [exact B|].
  pose proof u_pos. pose proof eta_pos.
  assert (0 <= u * (t * bpow e)) by (apply Rmult_le_pos; nra).
  assert (HE : E = Z.max (Zdigits2 m + e - 24) (-149)) by reflexivity.
  destruct (Z_le_gt_dec (Zdigits2 m + e - 24) (-149)) as [L|G].
  - replace E with (-149)%Z by lia.
    replace (bpow (-149) / 2) with eta; [lra|].
    unfold eta. replace (-150)%Z with (-149 - 1)%Z by lia.
    now rewrite bpow_pred.
  - assert (Hp : (0 < m)%Z).
    { destruct (Z.eq_dec m 0) as [->|]; [simpl in *; lia|lia]. }
    pose proof (IZR_ge_bpow m Hp) as Bm.
    assert (Hb : bpow E / 2 = u * (bpow (Zdigits2 m - 1) * bpow e)).
    { unfold u. rewrite <- !bpow_add, <- bpow_pred. f_equal. lia. }
    rewrite Hb.
    assert (bpow (Zdigits2 m - 1) * bpow e <= t * bpow e)
      by (apply Rmult_le_compat_r; lra).
    nra.
Qed.

(** An exact value that already has fewer digits than the format is
    returned as it is. *)
Lemma round_exact_short (s : bool) (m e : Z) :
  (0 <= m)%Z -> (fexp prec emax (Zdigits2 m + e) < e)%Z ->
  is_finite (binary_round_aux prec emax s m e loc_Exact) = true ->
  B2R (binary_round_aux prec emax s m e loc_Exact)
  = sgn s * (IZR m * bpow e).
Proof.
  intros Hm Hn. unfold binary_round_aux, shr_fexp.
  destruct (fexp prec emax (Zdigits2 m + e) - e)%Z as [|p|p] eqn:En;
    try lia.
  cbn [shr shr_record_of_loc shr_m loc_of_shr_record round_nearest_even].
  rewrite En. cbn [shr shr_record_of_loc shr_m].
  destruct m as [|m|m]; try lia.
  - intros _. simpl. lra.
  - destruct (e <=? emax - prec)%Z; [|discriminate].
    intros _. apply B2R_finite.
Qed.

(** Rounding an exact value [m * 2^e]. *)
Lemma round_exact_error (s : bool) (m e : Z) :
  (0 <= m)%Z ->
  is_finite (binary_round_aux prec emax s m e loc_Exact) = true ->
  exists r : R,
    0 <= r
    /\ B2R (binary_round_aux prec emax s m e loc_Exact) = sgn s * r
    /\ Rabs (r - IZR m * bpow e) <= u * (IZR m * bpow e) + eta.
Proof.
  intros Hm F.
  destruct (Z_le_gt_dec e (fexp prec emax (Zdigits2 m + e))) as [L|G].
  - apply round_error; auto. reflexivity.
  - exists (IZR m * bpow e).
    pose proof (bpow_pos e). pose proof u_pos. pose proof eta_pos.
    assert (0 <= IZR m) by now apply IZR_le.
    assert (0 <= IZR m * bpow e) by (apply Rmult_le_pos; lra).
    split; [assumption|]. split.
    + apply round_exact_short; auto. lia.
    + replace (IZR m * bpow e - IZR m * bpow e) with 0 by lra.
      rewrite Rabs_R0. nra.
Qed.

(** *** Products and sums *)

Lemma sgn_xorb (a b : bool) : sgn (xorb a b) = sgn a * sgn b.
Proof. destruct a, b; unfold sgn; simpl; lra. Qed.

Lemma Rabs_sgn_mul (s : bool) (r : R) : Rabs (sgn s * r) = Rabs r.
Proof.
  unfold sgn. destruct s.
  - replace (-1 * r) with (- r) by lra. apply Rabs_Ropp.
  - now rewrite Rmult_1_l.
Qed.

(** The error of one product. *)
Lemma mul_error (a b : float) :
  is_finite a = true -> is_finite b = true ->
  is_finite (mul a b) = true ->
  Rabs (B2R (mul a b) - B2R a * B2R b) <= u * Rabs (B2R a * B2R b) + eta.
Proof.
  pose proof u_pos as Hu. pose proof eta_pos as He.
  destruct a as [sa|sa| |sa ma ea], b as [sb|sb| |sb mb eb];
    try discriminate; intros _ _ F;
    try (simpl B2R; rewrite ?Rmult_0_l, ?Rmult_0_r, Rminus_0_r, Rabs_R0; lra).
  revert F. unfold mul, SFmul. intros F.
  destruct (round_exact_error (xorb sa sb) (Z.pos (ma * mb)) (ea + eb)
              ltac:(lia) F) as (r & R0 & V & B).
  rewrite V, !B2R_finite, sgn_xorb.
  rewrite Pos2Z.inj_mul, mult_IZR, bpow_add in B.
  set (P := IZR (Z.pos ma) * IZR (Z.pos mb) * (bpow ea * bpow eb)) in *.
  replace (sgn sa * (IZR (Z.pos ma) * bpow ea)
           * (sgn sb * (IZR (Z.pos mb) * bpow eb)))
    with (sgn sa * (sgn sb * P)) by (unfold P; ring).
  replace (sgn sa * sgn sb * r - sgn sa * (sgn sb * P))
    with (sgn sa * (sgn sb * (r - P))) by ring.
  rewrite !Rabs_sgn_mul.
  assert (P0 : 0 <= P).
  { unfold P. pose proof (bpow_pos ea). pose proof (bpow_pos eb).
    assert (0 < IZR (Z.pos ma)) by (apply IZR_lt; lia).
    assert (0 < IZR (Z.pos mb)) by (apply IZR_lt; lia).
    apply Rmult_le_pos; apply Rmult_le_pos; lra. }
  now rewrite (Rabs_pos_eq P P0).
Qed.

(** A square is not negative. *)
Lemma B2R_mul_self_nonneg (a : float) : 0 <= B2R (mul a a).
Proof.
  pose proof (mul_self_sign a) as S.
  destruct (mul a a) as [s|s| |s m e]; simpl in *; try lra.
  subst s. simpl.
  pose proof (bpow_pos e).
  assert (0 < IZR (Z.pos m)) by (apply IZR_lt; lia). nra.
Qed.

Lemma Zpos_iter_xO (m d : positive) :
  Z.pos (Pos.iter xO m d) = (Z.pos m * 2 ^ Z.pos d)%Z.
Proof.
  induction d as [|d IH] using Pos.peano_ind.
  - simpl. lia.
  - rewrite Pos.iter_succ, Pos2Z.inj_xO, IH, Pos2Z.inj_succ,
      Z.pow_succ_r by lia. lia.
Qed.

(** [shl_align] keeps the value. *)
Lemma shl_align_value (m : positive) (e e' : Z) :
  IZR (Z.pos (fst (shl_align m e e'))) * bpow (snd (shl_align m e e'))
  = IZR (Z.pos m) * bpow e.
Proof.
  unfold shl_align.
  destruct (e' - e)%Z as [|d|d] eqn:Ed; cbn [fst snd]; try reflexivity.
  rewrite Zpos_iter_xO, mult_IZR, <- bpow_IZR by lia.
  rewrite Rmult_assoc, <- bpow_add. f_equal. f_equal. lia.
Qed.

Lemma shl_align_snd (m : positive) (e e' : Z) :
  (e' <= e)%Z -> snd (shl_align m e e') = e'.
Proof.
  intros H. unfold shl_align.
  destruct (e' - e)%Z as [|d|d] eqn:Ed; cbn [snd]; lia.
Qed.

(** The error of [binary_round], on the value [m * 2^e]. *)
Lemma binary_round_error (s : bool) (m : positive) (e : Z) :
  is_finite (binary_round prec emax s m e) = true ->
  exists r : R,
    0 <= r
    /\ B2R (binary_round prec emax s m e) = sgn s * r
    /\ Rabs (r - IZR (Z.pos m) * bpow e) <= u * (IZR (Z.pos m) * bpow e) + eta.
Proof.
  unfold binary_round.
  pose proof (shl_align_value m e (fexp prec emax (Z.pos (digits2_pos m) + e)))
    as V.
  destruct (shl_align m e _) as [mz ez]. cbn [fst snd] in V.
  intros F. rewrite <- V.
  apply round_exact_error; [lia|assumption].
Qed.

(** The error of one sum of two floats that are not negative. *)
Lemma add_error (a b : float) :
  is_finite a = true -> is_finite b = true ->
  signbit a = false -> signbit b = false ->
  is_finite (add a b) = true ->
  0 <= B2R (add a b)
  /\ Rabs (B2R (add a b) - (B2R a + B2R b)) <= u * (B2R a + B2R b) + eta.
Proof.
  pose proof u_pos as Hu. pose proof eta_pos as He.
  destruct a as [sa|sa| |sa ma ea], b as [sb|sb| |sb mb eb];
    try discriminate; simpl signbit; intros _ _ -> -> F.
  - simpl. rewrite Rplus_0_l, Rminus_0_r, Rabs_R0. lra.
  - change (add (S754_zero false) (S754_finite false mb eb))
      with (S754_finite false mb eb).
    rewrite B2R_finite. unfold sgn. simpl (B2R (S754_zero false)).
    pose proof (bpow_pos eb).
    assert (0 < IZR (Z.pos mb)) by (apply IZR_lt; lia).
    assert (0 <= IZR (Z.pos mb) * bpow eb) by nra.
    split; [lra|].
    replace (1 * (IZR (Z.pos mb) * bpow eb) - (0 + 1 * (IZR (Z.pos mb) * bpow eb)))
      with 0 by lra.
    rewrite Rabs_R0. nra.
  - change (add (S754_finite false ma ea) (S754_zero false))
      with (S754_finite false ma ea).
    rewrite B2R_finite. unfold sgn. simpl (B2R (S754_zero false)).
    pose proof (bpow_pos ea).
    assert (0 < IZR (Z.pos ma)) by (apply IZR_lt; lia).
    assert (0 <= IZR (Z.pos ma) * bpow ea) by nra.
    split; [lra|].
    replace (1 * (IZR (Z.pos ma) * bpow ea) - (1 * (IZR (Z.pos ma) * bpow ea) + 0))
      with 0 by lra.
    rewrite Rabs_R0. nra.
  - revert F. unfold add, SFadd. cbn [cond_Zopp].
    set (ez := Z.min ea eb).
    pose proof (shl_align_value ma ea ez) as Va.
    pose proof (shl_align_value mb eb ez) as Vb.
    rewrite shl_align_snd in Va by lia.
    rewrite shl_align_snd in Vb by lia.
    set (pa := fst (shl_align ma ea ez)) in *.
    set (pb := fst (shl_align mb eb ez)) in *.
    change (Z.pos pa + Z.pos pb)%Z with (Z.pos (pa + pb)).
    cbn [binary_normalize]. intros F.
    destruct (binary_round_error false (pa + pb) ez F) as (r & R0 & V & B).
    rewrite V, !B2R_finite. unfold sgn. rewrite !Rmult_1_l.
    rewrite Pos2Z.inj_add, plus_IZR, Rmult_plus_distr_r, Va, Vb in B.
    split; assumption.
Qed.

Lemma exact_within (t : R) : Rabs (t - t) <= u * Rabs t + eta.
Proof.
  pose proof u_pos. pose proof eta_pos. pose proof (Rabs_pos t).
  replace (t - t) with 0 by lra. rewrite Rabs_R0. nra.
Qed.

Lemma IZR_cond_Zopp (s : bool) (m : positive) :
  IZR (cond_Zopp s (Z.pos m)) = sgn s * IZR (Z.pos m).
Proof.
  unfold sgn. destruct s; simpl cond_Zopp; [|lra].
  change (Z.neg m) with (- Z.pos m)%Z. rewrite opp_IZR. lra.
Qed.

(** The error of [binary_normalize], on the value [n * 2^e]. *)
Lemma normalize_error (n e : Z) :
  is_finite (binary_normalize prec emax n e false) = true ->
  Rabs (B2R (binary_normalize prec emax n e false) - IZR n * bpow e)
  <= u * Rabs (IZR n * bpow e) + eta.
Proof.
  pose proof (bpow_pos e) as Pe.
  destruct n as [|p|p]; cbn [binary_normalize]; intros F.
  - simpl B2R. rewrite Rmult_0_l. apply exact_within.
  - destruct (binary_round_error false p e F) as (r & R0 & V & B).
    rewrite V. unfold sgn. rewrite Rmult_1_l.
    assert (0 < IZR (Z.pos p)) by (apply IZR_lt; lia).
    rewrite (Rabs_pos_eq (IZR (Z.pos p) * bpow e)) by nra. exact B.
  - destruct (binary_round_error true p e F) as (r & R0 & V & B).
    rewrite V. unfold sgn.
    change (Z.neg p) with (- Z.pos p)%Z. rewrite opp_IZR.
    assert (0 < IZR (Z.pos p)) by (apply IZR_lt; lia).
    replace (-1 * r - - IZR (Z.pos p) * bpow e)
      with (- (r - IZR (Z.pos p) * bpow e)) by lra.
    replace (- IZR (Z.pos p) * bpow e) with (- (IZR (Z.pos p) * bpow e))
      by lra.
    rewrite !Rabs_Ropp.
    rewrite (Rabs_pos_eq (IZR (Z.pos p) * bpow e)) by nra. exact B.
Qed.

(** The error of one difference. *)
Lemma sub_error (a b : float) :
  is_finite a = true -> is_finite b = true ->
  is_finite (sub a b) = true ->
  Rabs (B2R (sub a b) - (B2R a - B2R b)) <= u * Rabs (B2R a - B2R b) + eta.
Proof.
  destruct a as [sa|sa| |sa ma ea], b as [sb|sb| |sb mb eb];
    try discriminate; intros _ _ F.
  - replace (B2R (sub (S754_zero sa) (S754_zero sb))) with 0
      by (destruct sa, sb; reflexivity).
    simpl B2R. replace (0 - 0) with 0 by lra. apply exact_within.
  - change (sub (S754_zero sa) (S754_finite sb mb eb))
      with (S754_finite (negb sb) mb eb).
    rewrite !B2R_finite. simpl (B2R (S754_zero sa)).
    replace (sgn (negb sb) * (IZR (Z.pos mb) * bpow eb))
      with (0 - sgn sb * (IZR (Z.pos mb) * bpow eb))
      by (unfold sgn; destruct sb; simpl; lra).
    apply exact_within.
  - change (sub (S754_finite sa ma ea) (S754_zero sb))
      with (S754_finite sa ma ea).
    simpl (B2R (S754_zero sb)).
    replace (B2R (S754_finite sa ma ea) - 0)
      with (B2R (S754_finite sa ma ea)) by lra.
    apply exact_within.
  - revert F. unfold sub, SFsub.
    set (ez := Z.min ea eb).
    pose proof (shl_align_value ma ea ez) as Va.
    pose proof (shl_align_value mb eb ez) as Vb.
    rewrite shl_align_snd in Va by lia.
    rewrite shl_align_snd in Vb by lia.
    set (pa := fst (shl_align ma ea ez)) in *.
    set (pb := fst (shl_align mb eb ez)) in *.
    intros F. pose proof (normalize_error _ _ F) as E.
    rewrite minus_IZR, !IZR_cond_Zopp in E.
    replace ((sgn sa * IZR (Z.pos pa) - sgn sb * IZR (Z.pos pb)) * bpow ez)
      with (sgn sa * (IZR (Z.pos pa) * bpow ez)
            - sgn sb * (IZR (Z.pos pb) * bpow ez)) in E by ring.
    rewrite Va, Vb in E. rewrite !B2R_finite. exact E.
Qed.


(** The error of one sum. *)
Lemma add_error_signed (a b : float) :
  is_finite a = true -> is_finite b = true ->
  is_finite (add a b) = true ->
  Rabs (B2R (add a b) - (B2R a + B2R b)) <= u * Rabs (B2R a + B2R b) + eta.
Proof.
  destruct a as [sa|sa| |sa ma ea], b as [sb|sb| |sb mb eb];
    try discriminate; intros _ _ F.
  - replace (B2R (add (S754_zero sa) (S754_zero sb))) with 0
      by (destruct sa, sb; reflexivity).
    simpl B2R. replace (0 + 0) with 0 by lra. apply exact_within.
  - change (add (S754_zero sa) (S754_finite sb mb eb))
      with (S754_finite sb mb eb).
    simpl (B2R (S754_zero sa)).
    replace (0 + B2R (S754_finite sb mb eb))
      with (B2R (S754_finite sb mb eb)) by lra.
    apply exact_within.
  - change (add (S754_finite sa ma ea) (S754_zero sb))
      with (S754_finite sa ma ea).
    simpl (B2R (S754_zero sb)).
    replace (B2R (S754_finite sa ma ea) + 0)
      with (B2R (S754_finite sa ma ea)) by lra.
    apply exact_within.
  - revert F. unfold add, SFadd.
    set (ez := Z.min ea eb).
    pose proof (shl_align_value ma ea ez) as Va.
    pose proof (shl_align_value mb eb ez) as Vb.
    rewrite shl_align_snd in Va by lia.
    rewrite shl_align_snd in Vb by lia.
    set (pa := fst (shl_align ma ea ez)) in *.
    set (pb := fst (shl_align mb eb ez)) in *.
    intros F. pose proof (normalize_error _ _ F) as E.
    rewrite plus_IZR, !IZR_cond_Zopp in E.
    replace ((sgn sa * IZR (Z.pos pa) + sgn sb * IZR (Z.pos pb)) * bpow ez)
      with (sgn sa * (IZR (Z.pos pa) * bpow ez)
            + sgn sb * (IZR (Z.pos pb) * bpow ez)) in E by ring.
    rewrite Va, Vb in E. rewrite !B2R_finite. exact E.
Qed.


(** *** Quotients *)

Lemma Zdigits2_div_ge (a b : Z) :
  (0 < a)%Z -> (0 < b)%Z -> (Zdigits2 a - Zdigits2 b <= Zdigits2 (a / b))%Z.
Proof.
  intros Ha Hb.
  pose proof (Zdigits2_bounds a Ha) as [A1 _].
  pose proof (Zdigits2_bounds b Hb) as [_ B2].
  pose proof (Zdigits2_pos a Ha). pose proof (Zdigits2_pos b Hb).
  pose proof (Zdigits2_nonneg (a / b)).
  destruct (Z_le_gt_dec (Zdigits2 a - Zdigits2 b) 0) as [L|G]; [lia|].
  set (k := (Zdigits2 a - Zdigits2 b - 1)%Z).
  assert (K : (2 ^ k <= a / b)%Z).
  { apply Z.div_le_lower_bound; [assumption|].
    assert ((b * 2 ^ k <= 2 ^ Zdigits2 b * 2 ^ k)%Z)
      by (apply Z.mul_le_mono_nonneg_r; [apply Z.pow_nonneg|]; lia).
    rewrite <- Z.pow_add_r in H2 by lia.
    replace (Zdigits2 b + k)%Z with (Zdigits2 a - 1)%Z in H2 by lia. lia. }
  assert (D : Zdigits2 (2 ^ k) = (k + 1)%Z).
  { apply Zdigits2_unique; [lia|].
    replace (k + 1 - 1)%Z with k by lia.
    rewrite Z.pow_add_r by lia. pose proof (Z.pow_pos_nonneg 2 k). lia. }
  pose proof (Zdigits2_mono (2 ^ k) (a / b)
                ltac:(split; [apply Z.pow_nonneg; lia|assumption])).
  lia.
Qed.

(** The location that the division computes from the remainder. *)
Lemma new_location_located (nb q r : Z) :
  (0 < nb)%Z -> (0 <= r < nb)%Z ->
  located q (new_location nb r) (IZR q + IZR r / IZR nb).
Proof.
  intros Hn [R0 R1].
  assert (N : 0 < IZR nb) by (apply IZR_lt; lia).
  assert (Q : forall c : R, c * IZR nb / IZR nb = c)
    by (intros c; field; lra).
  unfold new_location, new_location_even, new_location_odd.
  assert (Z0 : (r =? 0)%Z = true -> IZR r / IZR nb = 0).
  { intros H. apply Z.eqb_eq in H. subst r. unfold Rdiv. lra. }
  assert (HLt : (2 * r < nb)%Z -> IZR r / IZR nb < / 2).
  { intros H. apply IZR_lt in H. rewrite mult_IZR in H.
    apply (Rmult_lt_reg_r (IZR nb)); [assumption|].
    unfold Rdiv. rewrite Rmult_assoc, Rinv_l by lra. lra. }
  assert (HGt : (nb < 2 * r)%Z -> / 2 < IZR r / IZR nb).
  { intros H. apply IZR_lt in H. rewrite mult_IZR in H.
    apply (Rmult_lt_reg_r (IZR nb)); [assumption|].
    unfold Rdiv. rewrite Rmult_assoc, Rinv_l by lra. lra. }
  assert (HEq : (2 * r = nb)%Z -> IZR r / IZR nb = / 2).
  { intros H. apply (f_equal IZR) in H. rewrite mult_IZR in H.
    apply (Rmult_eq_reg_r (IZR nb)); [|lra].
    unfold Rdiv. rewrite Rmult_assoc, Rinv_l by lra. lra. }
  assert (Hpos : (r =? 0)%Z = false -> 0 < IZR r / IZR nb).
  { intros H. apply Z.eqb_neq in H.
    assert (0 < IZR r) by (apply IZR_lt; lia).
    apply Rdiv_lt_0_compat; assumption. }
  assert (Hlt1 : IZR r / IZR nb < 1).
  { apply IZR_lt in R1.
    apply (Rmult_lt_reg_r (IZR nb)); [assumption|].
    unfold Rdiv. rewrite Rmult_assoc, Rinv_l by lra. lra. }
  destruct (Z.even nb) eqn:Ev.
  - destruct (r =? 0)%Z eqn:Ez.
    + simpl. rewrite (Z0 eq_refl). lra.
    + specialize (Hpos eq_refl).
      destruct (2 * r ?= nb)%Z eqn:C; simpl.
      * apply Z.compare_eq in C. rewrite (HEq C). lra.
      * change (2 * r < nb)%Z in C. specialize (HLt C). lra.
      * apply Z.compare_gt_iff in C. specialize (HGt C). lra.
  - destruct (r =? 0)%Z eqn:Ez.
    + simpl. rewrite (Z0 eq_refl). lra.
    + specialize (Hpos eq_refl).
      destruct (2 * r + 1 ?= nb)%Z eqn:C; simpl.
      * apply Z.compare_eq in C. specialize (HLt ltac:(lia)). lra.
      * change (2 * r + 1 < nb)%Z in C. specialize (HLt ltac:(lia)). lra.
      * apply Z.compare_gt_iff in C.
        assert (nb <> 2 * r)%Z.
        { intros ->. rewrite Z.even_mul in Ev. discriminate. }
        specialize (HGt ltac:(lia)). lra.
Qed.

(** The error of one quotient. *)
Lemma div_error (a : float) (sb : bool) (mb : positive) (eb : Z) :
  is_finite a = true ->
  is_finite (div a (S754_finite sb mb eb)) = true ->
  Rabs (B2R (div a (S754_finite sb mb eb)) - B2R a / B2R (S754_finite sb mb eb))
  <= u * Rabs (B2R a / B2R (S754_finite sb mb eb)) + eta.
Proof.
  pose proof u_pos as Hu. pose proof eta_pos as He.
  destruct a as [sa|sa| |sa ma ea]; try discriminate; intros _ F.
  { simpl B2R. unfold Rdiv. rewrite Rmult_0_l, Rminus_0_r, Rabs_R0. lra. }
  revert F. unfold div, SFdiv, SFdiv_core_binary. cbn [Zdigits2].
  set (d1 := Z.pos (digits2_pos ma)). set (d2 := Z.pos (digits2_pos mb)).
  set (e' := Z.min (fexp prec emax (d1 + ea - (d2 + eb))) (ea - eb)).
  set (s := (ea - eb - e')%Z).
  assert (Hs : (0 <= s)%Z) by (subst s e'; lia).
  set (m' := match s with Z0 => Z.pos ma | Z.pos _ => Z.shiftl (Z.pos ma) s
                        | Z.neg _ => 0%Z end).
  assert (Hm' : m' = (Z.pos ma * 2 ^ s)%Z).
  { subst m'. destruct s as [|p|p] eqn:Es; try lia.
    now rewrite Z.shiftl_mul_pow2 by lia. }
  assert (Dm' : Zdigits2 m' = (d1 + s)%Z).
  { rewrite Hm', <- Z.shiftl_mul_pow2 by lia.
    apply (Zdigits2_shiftl (Z.pos ma) s); lia. }
  assert (Pm' : (0 < m')%Z).
  { rewrite Hm'. pose proof (Z.pow_pos_nonneg 2 s). lia. }
  pose proof (Z_div_mod m' (Z.pos mb) ltac:(lia)) as DM.
  destruct (Z.div_eucl m' (Z.pos mb)) as [q r] eqn:Edm.
  destruct DM as [DM Rr].
  assert (Hq : q = (m' / Z.pos mb)%Z).
  { unfold Z.div. now rewrite Edm. }
  assert (Q0 : (0 <= q)%Z) by (rewrite Hq; apply Z.div_pos; lia).
  assert (Dq : (d1 + s - d2 <= Zdigits2 q)%Z).
  { rewrite Hq, <- Dm'. apply (Zdigits2_div_ge m' (Z.pos mb)); lia. }
  assert (He' : (e' <= fexp prec emax (Zdigits2 q + e'))%Z).
  { apply Z.le_trans with (fexp prec emax (d1 + ea - (d2 + eb))).
    - subst e'. lia.
    - apply fexp_mono. subst s. lia. }
  intros F.
  pose proof (new_location_located (Z.pos mb) q r ltac:(lia) ltac:(lia)) as L.
  destruct (round_error (xorb sa sb) q e' _ _ Q0 He' L F) as (r0 & R0 & V & B).
  rewrite V, !B2R_finite, sgn_xorb.
  assert (Nb : 0 < IZR (Z.pos mb)) by (apply IZR_lt; lia).
  assert (Na : 0 < IZR (Z.pos ma)) by (apply IZR_lt; lia).
  pose proof (bpow_pos ea) as Pa. pose proof (bpow_pos eb) as Pb.
  set (P := IZR (Z.pos ma) * bpow ea / (IZR (Z.pos mb) * bpow eb)).
  assert (P0 : 0 < P).
  { unfold P. apply Rdiv_lt_0_compat; nra. }
  assert (TP : (IZR q + IZR r / IZR (Z.pos mb)) * bpow e' = P).
  { replace (IZR q + IZR r / IZR (Z.pos mb)) with (IZR m' / IZR (Z.pos mb)).
    - rewrite Hm', mult_IZR, <- bpow_IZR by assumption.
      unfold P.
      replace (bpow ea) with (bpow s * bpow e' * bpow eb).
      + pose proof (bpow_pos s). pose proof (bpow_pos e').
        field. split; lra.
      + rewrite <- !bpow_add. f_equal. subst s. lia.
    - rewrite DM, plus_IZR, mult_IZR. field. lra. }
  rewrite TP in B.
  assert (Sb : sgn sb <> 0) by (unfold sgn; destruct sb; lra).
  replace (sgn sa * (IZR (Z.pos ma) * bpow ea)
           / (sgn sb * (IZR (Z.pos mb) * bpow eb)))
    with (sgn sa * (sgn sb * P)).
  - replace (sgn sa * sgn sb * r0 - sgn sa * (sgn sb * P))
      with (sgn sa * (sgn sb * (r0 - P))) by ring.
    rewrite !Rabs_sgn_mul. rewrite (Rabs_pos_eq P) by lra. exact B.
  - unfold P. unfold sgn. destruct sa, sb; field; split; lra.
Qed.

(** *** Square roots *)

Lemma Zdigits2_pow2 (k : Z) : (0 <= k)%Z -> Zdigits2 (2 ^ k) = (k + 1)%Z.
Proof.
  intros Hk. apply Zdigits2_unique; [lia|].
  replace (k + 1 - 1)%Z with k by lia.
  rewrite Z.pow_add_r by lia. pose proof (Z.pow_pos_nonneg 2 k). lia.
Qed.

Lemma Zdigits2_sqrt_ge (a : Z) :
  (0 < a)%Z -> (Z.div2 (Zdigits2 a + 1) <= Zdigits2 (Z.sqrt a))%Z.
Proof.
  intros Ha.
  pose proof (Zdigits2_bounds a Ha) as [A1 _].
  pose proof (Zdigits2_pos a Ha) as Dp.
  rewrite Z.div2_div.
  set (h := ((Zdigits2 a + 1) / 2)%Z).
  assert (Hh : (2 * h <= Zdigits2 a + 1 /\ 1 <= h)%Z).
  { subst h. split.
    - apply Z.mul_div_le. lia.
    - apply Z.div_le_lower_bound; lia. }
  assert (S : (2 ^ (h - 1) <= Z.sqrt a)%Z).
  { rewrite <- (Z.sqrt_square (2 ^ (h - 1))) by (apply Z.pow_nonneg; lia).
    apply Z.sqrt_le_mono.
    rewrite <- Z.pow_add_r by lia.
    apply Z.le_trans with (2 ^ (Zdigits2 a - 1))%Z; [|assumption].
    apply Z.pow_le_mono_r; lia. }
  pose proof (Zdigits2_mono (2 ^ (h - 1)) (Z.sqrt a)
                ltac:(split; [apply Z.pow_nonneg; lia|assumption])) as M.
  rewrite Zdigits2_pow2 in M by lia. lia.
Qed.

Lemma sqrt_located (m' q r : Z) :
  (0 <= q)%Z -> (m' = q * q + r)%Z -> (0 <= r <= 2 * q)%Z ->
  located q (if (r =? 0)%Z then loc_Exact
             else loc_Inexact (if (r <=? q)%Z then Lt else Gt))
    (sqrt (IZR m')).
Proof.
  intros Q0 -> [R0 R1].
  pose proof (IZR_le _ _ Q0) as Q0'.
  rewrite plus_IZR, mult_IZR.
  assert (LT : forall a t : R, 0 <= a -> a * a < t -> a < sqrt t).
  { intros a t A H. rewrite <- (sqrt_square a A).
    apply sqrt_lt_1_alt. nra. }
  assert (GT : forall a t : R, 0 <= a -> 0 <= t -> t < a * a -> sqrt t < a).
  { intros a t A T H. rewrite <- (sqrt_square a A).
    apply sqrt_lt_1_alt. lra. }
  pose proof (IZR_le _ _ R0) as R0'.
  pose proof (IZR_le _ _ R1) as R1'. rewrite mult_IZR in R1'.
  destruct (r =? 0)%Z eqn:Ez.
  - apply Z.eqb_eq in Ez. subst r. simpl.
    rewrite Rplus_0_r. now apply sqrt_square.
  - apply Z.eqb_neq in Ez.
    assert (Rp : 1 <= IZR r) by (apply IZR_le; lia).
    destruct (r <=? q)%Z eqn:Le; simpl.
    + apply Z.leb_le in Le. apply IZR_le in Le. split.
      * apply LT; lra.
      * apply GT; nra.
    + apply Z.leb_gt in Le.
      assert (IZR q + 1 <= IZR r).
      { rewrite <- plus_IZR. apply IZR_le. lia. }
      split.
      * apply LT; nra.
      * apply GT; nra.
Qed.

Lemma sqrt_bpow_double (e : Z) : sqrt (bpow (2 * e)) = bpow e.
Proof.
  replace (2 * e)%Z with (e + e)%Z by lia.
  rewrite bpow_add. apply sqrt_square. pose proof (bpow_pos e). lra.
Qed.

(** The error of one square root. *)
Lemma sqrt_error (m : positive) (e : Z) :
  is_finite (sqrtf (S754_finite false m e)) = true ->
  0 <= B2R (sqrtf (S754_finite false m e))
  /\ Rabs (B2R (sqrtf (S754_finite false m e))
           - sqrt (B2R (S754_finite false m e)))
     <= u * sqrt (B2R (S754_finite false m e)) + eta.
Proof.
  unfold sqrtf, SFsqrt, SFsqrt_core_binary. cbn [Zdigits2].
  set (d := Z.pos (digits2_pos m)).
  set (e' := Z.min (fexp prec emax (Z.div2 (d + e + 1))) (Z.div2 e)).
  set (s := (e - 2 * e')%Z).
  assert (Hs : (0 <= s)%Z).
  { subst s e'. pose proof (Z.div2_div e) as D.
    pose proof (Z.mul_div_le e 2 ltac:(lia)). lia. }
  set (m' := match s with Z0 => Z.pos m | Z.pos _ => Z.shiftl (Z.pos m) s
                        | Z.neg _ => 0%Z end).
  assert (Hm' : m' = (Z.pos m * 2 ^ s)%Z).
  { subst m'. destruct s as [|p|p] eqn:Es; try lia.
    now rewrite Z.shiftl_mul_pow2 by lia. }
  assert (Dm' : Zdigits2 m' = (d + s)%Z).
  { rewrite Hm', <- Z.shiftl_mul_pow2 by lia.
    apply (Zdigits2_shiftl (Z.pos m) s); lia. }
  assert (Pm' : (0 < m')%Z).
  { rewrite Hm'. pose proof (Z.pow_pos_nonneg 2 s). lia. }
  pose proof (Z.sqrtrem_spec m' ltac:(lia)) as SP.
  pose proof (Z.sqrtrem_sqrt m') as SQ.
  destruct (Z.sqrtrem m') as [q r]. cbn [fst] in SQ.
  destruct SP as [SP Rr].
  assert (Q0 : (0 <= q)%Z) by (rewrite SQ; apply Z.sqrt_nonneg).
  assert (Dq : (Z.div2 (d + e + 1) - e' <= Zdigits2 q)%Z).
  { rewrite SQ.
    pose proof (Zdigits2_sqrt_ge m' Pm') as G. rewrite Dm' in G.
    replace (d + s + 1)%Z with ((d + e + 1) + (- e') * 2)%Z in G
      by (subst s; lia).
    rewrite Z.div2_div, Z.div_add in G by lia.
    rewrite Z.div2_div. lia. }
  assert (He' : (e' <= fexp prec emax (Zdigits2 q + e'))%Z).
  { apply Z.le_trans with (fexp prec emax (Z.div2 (d + e + 1))).
    - subst e'. lia.
    - apply fexp_mono. lia. }
  intros F.
  pose proof (sqrt_located m' q r Q0 SP Rr) as L.
  destruct (round_error false q e' _ _ Q0 He' L F) as (r0 & R0 & V & B).
  rewrite V, B2R_finite. unfold sgn. rewrite !Rmult_1_l.
  split; [assumption|].
  assert (TP : sqrt (IZR m') * bpow e' = sqrt (IZR (Z.pos m) * bpow e)).
  { rewrite <- (sqrt_bpow_double e'), <- sqrt_mult.
    - f_equal. rewrite Hm', mult_IZR, <- bpow_IZR by assumption.
      rewrite Rmult_assoc, <- bpow_add. f_equal. f_equal. subst s. lia.
    - apply IZR_le. lia.
    - pose proof (bpow_pos (2 * e')). lra. }
  now rewrite TP in B.
Qed.

End Rounding.

(** ** The accuracy of the functions *)

Module Accuracy.

Import Float32Facts Exact Rounding.

Local Open Scope R_scope.

Lemma bpow_neg_IZR (n : Z) : (0 <= n)%Z -> bpow (- n) = / IZR (2 ^ n).
Proof.
  intros Hn. rewrite <- bpow_IZR by assumption.
  pose proof (bpow_pos n) as P.
  apply (Rmult_eq_reg_r (bpow n)); [|lra].
  rewrite <- bpow_add, Rinv_l by lra.
  replace (- n + n)%Z with 0%Z by lia. apply bpow_0.
Qed.

Lemma u_val : u = / 16777216.
Proof. exact (bpow_neg_IZR 24 ltac:(lia)). Qed.

Lemma eta_val : eta = / 1427247692705959881058285969449495136382746624.
Proof. exact (bpow_neg_IZR 150 ltac:(lia)). Qed.

Lemma bpow_m40 : bpow (-40) = / 1099511627776.
Proof. exact (bpow_neg_IZR 40 ltac:(lia)). Qed.

Lemma bpow_m20 : bpow (-20) = / 1048576.
Proof. exact (bpow_neg_IZR 20 ltac:(lia)). Qed.

Lemma Rabs_bound (a b : R) : Rabs a <= b -> - b <= a <= b.
Proof. unfold Rabs. destruct (Rcase_abs a); lra. Qed.

Ltac numeric := rewrite ?u_val, ?eta_val in *.

(** The computed sum of three squares, against the exact one. *)
Lemma sum_squares_bounds (A B C qx qy qz s1 s2 : R) :
  0 <= A -> 0 <= B -> 0 <= C ->
  Rabs (qx - A) <= u * A + eta ->
  Rabs (qy - B) <= u * B + eta ->
  Rabs (qz - C) <= u * C + eta ->
  Rabs (s1 - (qx + qy)) <= u * (qx + qy) + eta ->
  Rabs (s2 - (s1 + qz)) <= u * (s1 + qz) + eta ->
  (1 - 3 * u) * (A + B + C) - 5 * eta <= s2
  /\ s2 <= (1 + 4 * u) * (A + B + C) + 6 * eta.
Proof.
  intros HA HB HC Hx Hy Hz H1 H2.
  apply Rabs_bound in Hx, Hy, Hz, H1, H2.
  numeric. split; lra.
Qed.

(** The computed root of the computed sum, against the exact sum. *)
Lemma root_bounds (S s2 T M : R) :
  0 <= S -> 0 <= T -> T * T = s2 ->
  (1 - 3 * u) * S - 5 * eta <= s2 ->
  s2 <= (1 + 4 * u) * S + 6 * eta ->
  Rabs (M - T) <= u * T + eta ->
  bpow (-40) <= M ->
  (1 - 6 * u) * S <= M * M /\ M * M <= (1 + 7 * u) * S.
Proof.
  intros HS HT HTT L2 U2 HM Hlow.
  apply Rabs_bound in HM.
  rewrite bpow_m40 in Hlow.
  numeric.
  assert (T41 : / 2199023255552 <= T) by lra.
  set (k := / 16777216 + / 649037107316853453566312041152512).
  assert (Mu : M <= (1 + k) * T) by (unfold k; lra).
  assert (Ml : (1 - k) * T <= M) by (unfold k; lra).
  assert (Hk : 0 < k < / 16000000) by (unfold k; lra).
  assert (U : M * M <= (1 + k) * T * ((1 + k) * T))
    by (apply Rmult_le_compat; lra).
  assert (L : (1 - k) * T * ((1 - k) * T) <= M * M).
  { assert (0 <= (1 - k) * T) by (apply Rmult_le_pos; lra).
    apply Rmult_le_compat; lra. }
  replace ((1 + k) * T * ((1 + k) * T)) with ((1 + k) * (1 + k) * s2) in U
    by (rewrite <- HTT; ring).
  replace ((1 - k) * T * ((1 - k) * T)) with ((1 - k) * (1 - k) * s2) in L
    by (rewrite <- HTT; ring).
  assert (S82 : / 2199023255552 * / 2199023255552 <= s2).
  { rewrite <- HTT. apply Rmult_le_compat; lra. }
  unfold k in *. clear Mu Ml Hk HM.
  set (M2 := M * M) in *. clearbody M2.
  split; lra.
Qed.

(** The exact squared length of the quotient [(X, Y, Z) / M]. *)
Lemma quotient_bounds (X Y Z M : R) :
  0 < M ->
  (1 - 6 * u) * (X * X + Y * Y + Z * Z) <= M * M ->
  M * M <= (1 + 7 * u) * (X * X + Y * Y + Z * Z) ->
  let Q := X / M * (X / M) + Y / M * (Y / M) + Z / M * (Z / M) in
  (1 - 6 * u) * Q <= 1 /\ 1 <= (1 + 7 * u) * Q.
Proof.
  intros HM L U Q.
  assert (E : X * X + Y * Y + Z * Z = Q * (M * M))
    by (unfold Q; field; lra).
  rewrite E in L, U.
  assert (M2 : 0 < M * M) by (apply Rmult_lt_0_compat; assumption).
  split.
  - apply (Rmult_le_reg_r (M * M)); [assumption|]. lra.
  - apply (Rmult_le_reg_r (M * M)); [assumption|]. lra.
Qed.

Lemma Rabs_sqr (a : R) : Rabs a * Rabs a = a * a.
Proof. unfold Rabs. destruct (Rcase_abs a); ring. Qed.

(** What a rounding of [a] does to its square. *)
Lemma square_perturbation (a r : R) :
  Rabs (r - a) <= u * Rabs a + eta ->
  Rabs (r * r - a * a) <= 3 * u * (a * a) + 2 * eta.
Proof.
  intros H.
  pose proof (Rabs_sqr a) as Hb. pose proof (Rabs_pos a) as B0.
  assert (Ha : - Rabs a <= a <= Rabs a).
  { unfold Rabs. destruct (Rcase_abs a); lra. }
  set (b := Rabs a) in *. clearbody b.
  set (c := u * b + eta) in *.
  pose proof u_pos as Hu. pose proof eta_pos as He.
  assert (C0 : 0 <= c) by (unfold c; nra).
  assert (P : Rabs (r * r - a * a) <= c * (2 * b + c)).
  { replace (r * r - a * a) with ((r - a) * (r + a)) by ring.
    rewrite Rabs_mult. apply Rmult_le_compat; try apply Rabs_pos.
    - assumption.
    - apply Rabs_bound in H. apply Rabs_le. lra. }
  eapply Rle_trans; [exact P|].
  assert (E : c * (2 * b + c)
              = (2 * u + u * u) * (b * b) + (2 + 2 * u) * eta * b + eta * eta)
    by (unfold c; ring).
  rewrite E, Hb.
  assert (AM : b <= (1 + a * a) / 2).
  { rewrite <- Hb. pose proof (Rle_0_sqr (b - 1)) as Q.
    unfold Rsqr in Q. lra. }
  assert (A0 : 0 <= a * a) by (rewrite <- Hb; apply Rmult_le_pos; lra).
  clear E P H C0. clear c.
  set (A := a * a) in *. clearbody A.
  numeric.
  assert ((2 + 2 * / 16777216)
          * / 1427247692705959881058285969449495136382746624 * b
          <= (1 + / 16777216)
             * / 1427247692705959881058285969449495136382746624 * (1 + A)).
  { lra. }
  lra.
Qed.

(** The squared length of the rounded quotient. *)
Lemma unit_bound (Q R2 : R) :
  (1 - 6 * u) * Q <= 1 -> 1 <= (1 + 7 * u) * Q ->
  Rabs (R2 - Q) <= 3 * u * Q + 6 * eta ->
  Rabs (R2 - 1) <= bpow (-20).
Proof.
  intros L U H. apply Rabs_bound in H.
  rewrite bpow_m20.
  numeric. apply Rabs_le. split; lra.
Qed.

(** *** Magnitudes and normalisation *)

Lemma sqrLength_nonneg (v : Vector3) : 0 <= sqrLength v.
Proof.
  unfold sqrLength.
  pose proof (Rle_0_sqr (B2R v.(x))). pose proof (Rle_0_sqr (B2R v.(y))).
  pose proof (Rle_0_sqr (B2R v.(z))). unfold Rsqr in *. lra.
Qed.

Lemma square_error (a : float) :
  is_finite a = true -> is_finite (mul a a) = true ->
  Rabs (B2R (mul a a) - B2R a * B2R a) <= u * (B2R a * B2R a) + eta.
Proof.
  intros Ha F. pose proof (mul_error a a Ha Ha F) as E.
  rewrite (Rabs_pos_eq (B2R a * B2R a)) in E; [assumption|].
  apply Rle_0_sqr.
Qed.

Lemma sqrMagnitude_error (v : Vector3) :
  finiteV v = true -> is_finite (sqrMagnitude v) = true ->
  0 <= B2R (sqrMagnitude v)
  /\ (1 - 3 * u) * sqrLength v - 5 * eta <= B2R (sqrMagnitude v)
  /\ B2R (sqrMagnitude v) <= (1 + 4 * u) * sqrLength v + 6 * eta.
Proof.
  intros Hf F. destruct (Invariant.finiteV_fields v Hf) as (Hx & Hy & Hz).
  unfold sqrMagnitude in *.
  pose proof F as F2. apply add_finite_inv in F2. destruct F2 as [F1 Fz].
  pose proof F1 as F0. apply add_finite_inv in F0. destruct F0 as [Fx Fy].
  pose proof (square_error _ Hx Fx) as Ex.
  pose proof (square_error _ Hy Fy) as Ey.
  pose proof (square_error _ Hz Fz) as Ez.
  destruct (add_error _ _ Fx Fy (mul_self_sign _) (mul_self_sign _) F1)
    as [P1 E1].
  destruct (add_error _ _ F1 Fz
              (add_nonneg_sign _ _ (mul_self_sign _) (mul_self_sign _))
              (mul_self_sign _) F) as [P2 E2].
  split; [assumption|].
  apply (sum_squares_bounds _ _ _ _ _ _ _ _
           (Rle_0_sqr _) (Rle_0_sqr _) (Rle_0_sqr _) Ex Ey Ez E1 E2).
Qed.

Lemma magnitude_sqrMagnitude (v : Vector3) :
  magnitude v = sqrtf (sqrMagnitude v).
Proof. reflexivity. Qed.

(** A finite float above [1E-05f] is above [2^-40]. *)
Lemma gt_1e_5_value (m : positive) (e : Z) :
  gtb (S754_finite false m e) (dec 1 5) = true ->
  bpow (-40) <= B2R (S754_finite false m e).
Proof.
  intros G. apply gt_1e_5_digits in G.
  rewrite B2R_finite. unfold sgn. rewrite Rmult_1_l.
  pose proof (IZR_ge_bpow (Z.pos m) ltac:(lia)) as B. cbn [Zdigits2] in B.
  pose proof (bpow_pos e) as Pe.
  apply Rle_trans with (bpow (Z.pos (digits2_pos m) - 1) * bpow e).
  - rewrite <- bpow_add. apply bpow_le. lia.
  - apply Rmult_le_compat_r; lra.
Qed.

Lemma magnitude_error (v : Vector3) :
  finiteV v = true -> is_finite (magnitude v) = true ->
  gtb (magnitude v) (dec 1 5) = true ->
  bpow (-40) <= B2R (magnitude v)
  /\ (1 - 6 * u) * sqrLength v <= B2R (magnitude v) * B2R (magnitude v)
  /\ B2R (magnitude v) * B2R (magnitude v) <= (1 + 7 * u) * sqrLength v.
Proof.
  intros Hf F G.
  assert (Fs : is_finite (sqrMagnitude v) = true)
    by (apply sqrtf_finite_inv; exact F).
  destruct (sqrMagnitude_error v Hf Fs) as (S0 & SL & SU).
  assert (Low : bpow (-40) <= B2R (magnitude v)).
  { destruct (gt_1e_5_inv _ G) as [Hi|(m & e & Hn)].
    - rewrite Hi in F. discriminate.
    - rewrite Hn in G |- *. now apply gt_1e_5_value. }
  split; [assumption|].
  rewrite magnitude_sqrMagnitude in *.
  destruct (sqrMagnitude v) as [s|s| |s m2 e2] eqn:Es.
  - pose proof (bpow_pos (-40)). simpl in Low. lra.
  - discriminate.
  - discriminate.
  - destruct s; [discriminate|].
    destruct (sqrt_error m2 e2 F) as [M0 EM].
    set (s2 := B2R (S754_finite false m2 e2)) in *.
    apply (root_bounds (sqrLength v) s2 (sqrt s2)); auto.
    + apply sqrLength_nonneg.
    + apply sqrt_pos.
    + now apply sqrt_sqrt.
Qed.

(** [Normalize] on a finite vector whose magnitude is finite and above
    [1E-05f] returns the three quotients, all finite, and their exact
    squared length is 1 to within [2^-20]. *)
Lemma Normalize_quotients (v : Vector3) :
  finiteV v = true -> is_finite (magnitude v) = true ->
  gtb (magnitude v) (dec 1 5) = true ->
  let r := mk (div v.(x) (magnitude v)) (div v.(y) (magnitude v))
              (div v.(z) (magnitude v)) in
  Normalize v = Some r
  /\ finiteV r = true
  /\ Rabs (sqrLength r - 1) <= bpow (-20).
Proof.
  intros Hf F G.
  destruct (magnitude_error v Hf F G) as (Low & ML & MU).
  destruct (Invariant.finiteV_fields v Hf) as (Hx & Hy & Hz).
  rewrite Normalization.Normalize_fields, G.
  destruct (gt_1e_5_inv _ G) as [Hi|(m & e & Hn)];
    [rewrite Hi in F; discriminate|].
  pose proof G as D. rewrite Hn in D. apply gt_1e_5_digits in D.
  pose proof F as S. unfold magnitude in S. apply sqrtf_finite_inv in S.
  apply add_finite_inv in S. destruct S as [S Sz].
  apply add_finite_inv in S. destruct S as [Sx Sy].
  rewrite Hn in *.
  pose proof (Normalization.div_field_finite _ m e Hx Sx D) as Dx.
  pose proof (Normalization.div_field_finite _ m e Hy Sy D) as Dy.
  pose proof (Normalization.div_field_finite _ m e Hz Sz D) as Dz.
  rewrite Normalization.Vector3_xyz_finite by assumption.
  cbv zeta. split; [reflexivity|]. split.
  { unfold finiteV. simpl. now rewrite Dx, Dy, Dz. }
  pose proof (div_error _ false m e Hx Dx) as Ex.
  pose proof (div_error _ false m e Hy Dy) as Ey.
  pose proof (div_error _ false m e Hz Dz) as Ez.
  set (M := B2R (S754_finite false m e)) in *.
  assert (M0 : 0 < M) by (pose proof (bpow_pos (-40)); lra).
  apply square_perturbation in Ex, Ey, Ez.
  apply Rabs_bound in Ex, Ey, Ez.
  pose proof (quotient_bounds _ _ _ M M0 ML MU) as [QL QU].
  cbv zeta in QL, QU.
  eapply unit_bound; [exact QL|exact QU|].
  unfold sqrLength. cbn [x y z].
  apply Rabs_le. split; lra.
Qed.

(** The three forms of normalisation, on a finite vector whose computed
    magnitude is finite and above [1E-05f]: the static [Normalize] and
    [normalized()] return, and the member [Normalize()] leaves, one and the
    same finite vector, whose exact length, squared, is 1 to within
    [2^-20].  No call stops on an assertion. *)
Theorem Normalize_unit_length (v : Vector3) :
  finiteV v = true -> is_finite (magnitude v) = true ->
  gtb (magnitude v) (dec 1 5) = true ->
  exists r, Normalize v = Some r
            /\ normalized v = Some r
            /\ Normalize_inplace v = r
            /\ finiteV r = true
            /\ Rabs (sqrLength r - 1) <= bpow (-20).
Proof.
  intros Hf F G.
  destruct (Normalize_quotients v Hf F G) as (E & Fr & B).
  eexists. split; [exact E|]. split; [exact E|].
  split; [|split; assumption].
  unfold Normalize_inplace. now rewrite G.
Qed.

(** The theorem at [v = (1, 2, 3)]. *)
Lemma Normalize_unit_length_witness :
  exists r, Normalize (ofZ3 1 2 3) = Some r
            /\ normalized (ofZ3 1 2 3) = Some r
            /\ Normalize_inplace (ofZ3 1 2 3) = r
            /\ finiteV r = true
            /\ Rabs (sqrLength r - 1) <= bpow (-20).
Proof. apply Normalize_unit_length; reflexivity. Defined.

Lemma bpow_m22 : bpow (-22) = / 4194304.
Proof. exact (bpow_neg_IZR 22 ltac:(lia)). Qed.

Lemma bpow_m147 :
  bpow (-147) = / 178405961588244985132285746181186892047843328.
Proof. exact (bpow_neg_IZR 147 ltac:(lia)). Qed.

Lemma square_le_inv (a b : R) : 0 <= a -> 0 <= b -> a * a <= b * b -> a <= b.
Proof.
  intros Ha Hb H. destruct (Rle_lt_dec a b) as [L|G]; [assumption|].
  assert (b * b < a * a) by nra. lra.
Qed.

(** [sqrMagnitude] of a finite vector, when finite, is the exact squared
    length to within [2^-22] of it and [2^-147]; [magnitude], when finite
    and above [1E-05f], is the exact length to within [2^-22] of it. *)
Theorem magnitude_accuracy (v : Vector3) :
  finiteV v = true -> is_finite (sqrMagnitude v) = true ->
  Rabs (B2R (sqrMagnitude v) - sqrLength v)
  <= bpow (-22) * sqrLength v + bpow (-147)
  /\ (is_finite (magnitude v) = true ->
      gtb (magnitude v) (dec 1 5) = true ->
      Rabs (B2R (magnitude v) - sqrt (sqrLength v))
      <= bpow (-22) * sqrt (sqrLength v)).
Proof.
  intros Hf Fs. pose proof (sqrLength_nonneg v) as S0.
  rewrite bpow_m22, bpow_m147. split.
  - destruct (sqrMagnitude_error v Hf Fs) as (_ & L & U).
    numeric. apply Rabs_le. split; lra.
  - intros F G.
    destruct (magnitude_error v Hf F G) as (Low & L & U).
    pose proof (bpow_pos (-40)) as P40.
    pose proof (sqrt_pos (sqrLength v)) as R0.
    pose proof (sqrt_sqrt _ S0) as RR.
    set (M := B2R (magnitude v)) in *. clearbody M.
    set (S := sqrLength v) in *. clearbody S.
    set (r := sqrt S) in *. clearbody r.
    numeric.
    assert (Up : M <= (1 + / 4194304) * r).
    { apply square_le_inv; [lra|nra|].
      replace ((1 + / 4194304) * r * ((1 + / 4194304) * r))
        with ((1 + / 4194304) * (1 + / 4194304) * S) by (rewrite <- RR; ring).
      lra. }
    assert (Lo : (1 - / 4194304) * r <= M).
    { apply square_le_inv; [nra|lra|].
      replace ((1 - / 4194304) * r * ((1 - / 4194304) * r))
        with ((1 - / 4194304) * (1 - / 4194304) * S) by (rewrite <- RR; ring).
      lra. }
    apply Rabs_le. split; lra.
Qed.

(** The theorem at [v = (1, 2, 3)]. *)
Lemma magnitude_accuracy_witness :
  Rabs (B2R (sqrMagnitude (ofZ3 1 2 3)) - sqrLength (ofZ3 1 2 3))
  <= bpow (-22) * sqrLength (ofZ3 1 2 3) + bpow (-147)
  /\ Rabs (B2R (magnitude (ofZ3 1 2 3)) - sqrt (sqrLength (ofZ3 1 2 3)))
     <= bpow (-22) * sqrt (sqrLength (ofZ3 1 2 3)).
Proof.
  destruct (magnitude_accuracy (ofZ3 1 2 3) eq_refl eq_refl) as [A B].
  split; [exact A|exact (B eq_refl eq_refl)].
Defined.

(** *** Distances *)

Lemma mul_self_finite_arg (a : float) :
  is_finite (mul a a) = true -> is_finite a = true.
Proof. destruct a as [s|s| |s m e]; try discriminate; reflexivity. Qed.

Lemma sqrMagnitude_finite_fields (v : Vector3) :
  is_finite (sqrMagnitude v) = true -> finiteV v = true.
Proof.
  unfold sqrMagnitude. intros F.
  apply add_finite_inv in F. destruct F as [F Fz].
  apply add_finite_inv in F. destruct F as [Fx Fy].
  unfold finiteV.
  now rewrite (mul_self_finite_arg _ Fx), (mul_self_finite_arg _ Fy),
    (mul_self_finite_arg _ Fz).
Qed.

Lemma bpow_m21 : bpow (-21) = / 2097152.
Proof. exact (bpow_neg_IZR 21 ltac:(lia)). Qed.

Lemma bpow_m146 :
  bpow (-146) = / 89202980794122492566142873090593446023921664.
Proof. exact (bpow_neg_IZR 146 ltac:(lia)). Qed.

Lemma bpow_m148 :
  bpow (-148) = / 356811923176489970264571492362373784095686656.
Proof. exact (bpow_neg_IZR 148 ltac:(lia)). Qed.

Lemma bpow_m19 : bpow (-19) = / 524288.
Proof. exact (bpow_neg_IZR 19 ltac:(lia)). Qed.

(** The squared length of a vector of rounded differences. *)
Lemma difference_sqrLength (a b d : Vector3) :
  Rabs (B2R d.(x) - (B2R a.(x) - B2R b.(x)))
    <= u * Rabs (B2R a.(x) - B2R b.(x)) + eta ->
  Rabs (B2R d.(y) - (B2R a.(y) - B2R b.(y)))
    <= u * Rabs (B2R a.(y) - B2R b.(y)) + eta ->
  Rabs (B2R d.(z) - (B2R a.(z) - B2R b.(z)))
    <= u * Rabs (B2R a.(z) - B2R b.(z)) + eta ->
  Rabs (sqrLength d - sqrDistance a b) <= 3 * u * sqrDistance a b + 6 * eta.
Proof.
  intros Ex Ey Ez.
  apply square_perturbation in Ex, Ey, Ez.
  apply Rabs_bound in Ex, Ey, Ez.
  unfold sqrLength, sqrDistance. apply Rabs_le. split; lra.
Qed.

Lemma sqrDistance_nonneg (a b : Vector3) : 0 <= sqrDistance a b.
Proof.
  unfold sqrDistance.
  pose proof (Rle_0_sqr (B2R a.(x) - B2R b.(x))).
  pose proof (Rle_0_sqr (B2R a.(y) - B2R b.(y))).
  pose proof (Rle_0_sqr (B2R a.(z) - B2R b.(z))).
  unfold Rsqr in *. lra.
Qed.

(** The computed squared length of the computed difference of two finite
    vectors, against their exact squared distance. *)
Lemma difference_sqrMagnitude (a b : Vector3) :
  finiteV a = true -> finiteV b = true ->
  let d := mk (sub a.(x) b.(x)) (sub a.(y) b.(y)) (sub a.(z) b.(z)) in
  is_finite (sqrMagnitude d) = true ->
  finiteV d = true
  /\ Rabs (sqrLength d - sqrDistance a b)
     <= 3 * u * sqrDistance a b + 6 * eta
  /\ Rabs (B2R (sqrMagnitude d) - sqrDistance a b)
     <= bpow (-21) * sqrDistance a b + bpow (-146).
Proof.
  intros Ha Hb d Fs.
  destruct (Invariant.finiteV_fields a Ha) as (Ax & Ay & Az).
  destruct (Invariant.finiteV_fields b Hb) as (Bx & By & Bz).
  pose proof (sqrDistance_nonneg a b) as S0.
  pose proof (sqrLength_nonneg d) as SL0.
  pose proof (sqrMagnitude_finite_fields d Fs) as Fd.
  destruct (Invariant.finiteV_fields d Fd) as (Dx & Dy & Dz).
  pose proof (difference_sqrLength a b d
                (sub_error _ _ Ax Bx Dx) (sub_error _ _ Ay By Dy)
                (sub_error _ _ Az Bz Dz)) as E.
  split; [assumption|]. split; [assumption|].
  apply Rabs_bound in E.
  destruct (sqrMagnitude_error d Fd Fs) as (_ & L & U).
  rewrite bpow_m21, bpow_m146.
  set (Q := B2R (sqrMagnitude d)) in *. clearbody Q.
  set (SL := sqrLength d) in *. clearbody SL.
  set (S := sqrDistance a b) in *. clearbody S.
  numeric. apply Rabs_le. split; lra.
Qed.

(** [Distance] and [DistanceSquared] of two finite vectors: the call
    returns, and a finite result above [1E-05f] is the exact distance of
    the two vectors to within [2^-21] of it; a finite squared distance is
    the exact one to within [2^-21] of it and [2^-146]. *)
Theorem Distance_accuracy (a b : Vector3) :
  finiteV a = true -> finiteV b = true ->
  exists d q : float,
    Distance a b = Some d /\ DistanceSquared a b = Some q
    /\ (is_finite q = true ->
        Rabs (B2R q - sqrDistance a b)
        <= bpow (-21) * sqrDistance a b + bpow (-146))
    /\ (is_finite d = true -> gtb d (dec 1 5) = true ->
        Rabs (B2R d - sqrt (sqrDistance a b))
        <= bpow (-21) * sqrt (sqrDistance a b)).
Proof.
  intros Ha Hb. unfold Distance, DistanceSquared.
  rewrite (Equality.op_sub_finite a b Ha Hb). cbn [bind].
  set (dv := mk (sub a.(x) b.(x)) (sub a.(y) b.(y)) (sub a.(z) b.(z))).
  exists (Magnitude dv), (SqrMagnitude dv).
  split; [reflexivity|]. split; [reflexivity|].
  change (Magnitude dv) with (magnitude dv).
  change (SqrMagnitude dv) with (sqrMagnitude dv).
  pose proof (sqrDistance_nonneg a b) as S0.
  pose proof (sqrLength_nonneg dv) as SL0.
  split.
  { intros Fs.
    now destruct (difference_sqrMagnitude a b Ha Hb Fs) as (_ & _ & E). }
  intros F G.
  assert (Fs : is_finite (sqrMagnitude dv) = true)
    by (apply sqrtf_finite_inv; exact F).
  destruct (difference_sqrMagnitude a b Ha Hb Fs) as (Fd & E & _).
  fold dv in Fd, E. apply Rabs_bound in E.
  destruct (magnitude_error dv Fd F G) as (Low & L & U).
  pose proof (sqrt_pos (sqrDistance a b)) as R0.
  pose proof (sqrt_sqrt _ S0) as RR.
  rewrite bpow_m40 in Low. rewrite bpow_m21.
  set (M := B2R (magnitude dv)) in *. clearbody M.
  set (SL := sqrLength dv) in *. clearbody SL.
  set (S := sqrDistance a b) in *. clearbody S.
  set (r := sqrt S) in *. clearbody r.
  numeric.
  assert (M80 : / 1099511627776 * / 1099511627776 <= M * M)
    by (apply Rmult_le_compat; lra).
  assert (Up : M <= (1 + / 2097152) * r).
  { apply square_le_inv; [lra|nra|].
    replace ((1 + / 2097152) * r * ((1 + / 2097152) * r))
      with ((1 + / 2097152) * (1 + / 2097152) * S) by (rewrite <- RR; ring).
    set (M2 := M * M) in *. clearbody M2. lra. }
  assert (Lo : (1 - / 2097152) * r <= M).
  { apply square_le_inv; [nra|lra|].
    replace ((1 - / 2097152) * r * ((1 - / 2097152) * r))
      with ((1 - / 2097152) * (1 - / 2097152) * S) by (rewrite <- RR; ring).
    set (M2 := M * M) in *. clearbody M2. lra. }
  apply Rabs_le. split; lra.
Qed.

(** The theorem at [a = (1, 2, 3)], [b = (4, 6, 8)]. *)
Lemma Distance_accuracy_witness :
  exists d q : float,
    Distance (ofZ3 1 2 3) (ofZ3 4 6 8) = Some d
    /\ DistanceSquared (ofZ3 1 2 3) (ofZ3 4 6 8) = Some q
    /\ (is_finite q = true ->
        Rabs (B2R q - sqrDistance (ofZ3 1 2 3) (ofZ3 4 6 8))
        <= bpow (-21) * sqrDistance (ofZ3 1 2 3) (ofZ3 4 6 8) + bpow (-146))
    /\ (is_finite d = true -> gtb d (dec 1 5) = true ->
        Rabs (B2R d - sqrt (sqrDistance (ofZ3 1 2 3) (ofZ3 4 6 8)))
        <= bpow (-21) * sqrt (sqrDistance (ofZ3 1 2 3) (ofZ3 4 6 8))).
Proof. apply Distance_accuracy; reflexivity. Defined.

(** *** What [==] and [!=] say of the exact distance *)

Lemma valid_finite_inv (s : bool) (m : positive) (e : Z) :
  valid (S754_finite s m e) = true ->
  fexp prec emax (Z.pos (digits2_pos m) + e) = e.
Proof.
  unfold valid, valid_binary, bounded, canonical_mantissa. intros H.
  apply andb_true_iff in H. destruct H as [H _]. now apply Z.eqb_eq in H.
Qed.

(** The product of two data of the format is a datum of the format. *)
Lemma mul_valid (a b : float) :
  valid a = true -> valid b = true -> valid (mul a b) = true.
Proof.
  destruct a as [sa|sa| |sa ma ea], b as [sb|sb| |sb mb eb];
    try reflexivity. intros Ha Hb.
  apply valid_finite_inv in Ha, Hb. rewrite fexp_eq in Ha, Hb.
  unfold mul, SFmul. apply binary_round_aux_valid; [lia|].
  pose proof (Zdigits2_mul_ge (Z.pos ma) (Z.pos mb) ltac:(lia) ltac:(lia))
    as G.
  change (Z.pos ma * Z.pos mb)%Z with (Z.pos (ma * mb)) in G.
  cbn [Zdigits2] in G |- *. rewrite fexp_eq.
  pose proof (Pos2Z.is_pos (digits2_pos ma)).
  pose proof (Pos2Z.is_pos (digits2_pos mb)). lia.
Qed.

Lemma sqrMagnitude_valid (v : Vector3) :
  validV v = true -> valid (sqrMagnitude v) = true.
Proof.
  intros H. destruct (Interpolation.validV_fields v H) as (Hx & Hy & Hz).
  unfold sqrMagnitude. auto using add_valid, mul_valid.
Qed.

Lemma bpow_m57 : bpow (-57) = / 144115188075855872.
Proof. exact (bpow_neg_IZR 57 ltac:(lia)). Qed.

Lemma bpow_m58 : bpow (-58) = / 288230376151711744.
Proof. exact (bpow_neg_IZR 58 ltac:(lia)). Qed.

Lemma bpow_m56 : bpow (-56) = / 72057594037927936.
Proof. exact (bpow_neg_IZR 56 ltac:(lia)). Qed.

Lemma kEqualityEpsilon_value :
  B2R kEqualityEpsilon = 14411518 * / 144115188075855872.
Proof.
  rewrite (proj1 Equality.kEqualityEpsilon_bits), B2R_finite, bpow_m57.
  unfold sgn. lra.
Qed.

(** A mantissa of a datum of the format has 24 digits at most, and
    exactly 24 above the smallest exponent. *)
Lemma valid_mantissa (s : bool) (m : positive) (e : Z) :
  valid (S754_finite s m e) = true ->
  IZR (Z.pos m) < 16777216
  /\ ((-149 < e)%Z -> 8388608 <= IZR (Z.pos m)).
Proof.
  intros H. apply valid_finite_inv in H. rewrite fexp_eq in H.
  pose proof (digits2_pos_bounds m) as [B1 B2].
  split.
  - apply (IZR_lt _ 16777216).
    assert (2 ^ Z.pos (digits2_pos m) <= 2 ^ 24)%Z
      by (apply Z.pow_le_mono_r; lia).
    change (2 ^ 24)%Z with 16777216%Z in *. lia.
  - intros He. apply (IZR_le 8388608).
    replace (Z.pos (digits2_pos m)) with 24%Z in B1 by lia.
    change (2 ^ (24 - 1))%Z with 8388608%Z in B1. lia.
Qed.

(** Comparing a datum that is not negative with [9.99999944E-11f] compares
    the values. *)
Lemma lt_epsilon_value (q : float) :
  valid q = true -> signbit q = false ->
  ltb q kEqualityEpsilon = true ->
  is_finite q = true /\ B2R q < B2R kEqualityEpsilon.
Proof.
  rewrite kEqualityEpsilon_value.
  rewrite (proj1 Equality.kEqualityEpsilon_bits).
  destruct q as [s|s| |s m e]; simpl signbit; intros V S L; subst;
    try discriminate.
  - split; [reflexivity|]. simpl. lra.
  - split; [reflexivity|].
    destruct (valid_mantissa _ _ _ V) as [Mu _].
    assert (M0 : 0 < IZR (Z.pos m)) by (apply IZR_lt; lia).
    rewrite B2R_finite. unfold sgn. rewrite Rmult_1_l.
    revert L. unfold ltb, SFltb. cbn [SFcompare].
    destruct (e ?= -57)%Z eqn:C; try discriminate.
    + apply Z.compare_eq in C. subst e.
      destruct (Pos.compare_cont Eq m 14411518) eqn:Cm; try discriminate.
      intros _.
      assert (IZR (Z.pos m) < 14411518)
        by (apply (IZR_lt _ 14411518); exact Cm).
      rewrite bpow_m57. lra.
    + intros _. change (e < -57)%Z in C.
      pose proof (bpow_le e (-58) ltac:(lia)) as Be.
      pose proof (bpow_pos e) as Pe.
      rewrite bpow_m58 in Be.
      assert (IZR (Z.pos m) * bpow e <= 16777216 * / 288230376151711744)
        by (apply Rmult_le_compat; lra).
      lra.
Qed.

Lemma ge_epsilon_value (q : float) :
  valid q = true -> signbit q = false -> is_finite q = true ->
  ltb q kEqualityEpsilon = false ->
  B2R kEqualityEpsilon <= B2R q.
Proof.
  rewrite kEqualityEpsilon_value.
  rewrite (proj1 Equality.kEqualityEpsilon_bits).
  destruct q as [s|s| |s m e]; simpl signbit; intros V S F L; subst;
    try discriminate.
  destruct (valid_mantissa _ _ _ V) as [_ Ml].
  assert (M0 : 0 < IZR (Z.pos m)) by (apply IZR_lt; lia).
  rewrite B2R_finite. unfold sgn. rewrite Rmult_1_l.
  revert L. unfold ltb, SFltb. cbn [SFcompare].
  destruct (e ?= -57)%Z eqn:C; try discriminate.
  - apply Z.compare_eq in C. subst e.
    destruct (Pos.compare_cont Eq m 14411518) eqn:Cm; try discriminate;
      intros _; rewrite bpow_m57.
    + apply (Pos.compare_eq m 14411518) in Cm. subst m. lra.
    + assert (Hm : (Z.pos m > 14411518)%Z) by exact Cm.
      assert (14411518 <= IZR (Z.pos m)) by (apply (IZR_le 14411518); lia).
      assert (0 < / 144115188075855872) by lra. nra.
  - intros _. apply Z.compare_gt_iff in C.
    specialize (Ml ltac:(lia)).
    pose proof (bpow_le (-56) e ltac:(lia)) as Be.
    rewrite bpow_m56 in Be.
    assert (8388608 * / 72057594037927936 <= IZR (Z.pos m) * bpow e)
      by (apply Rmult_le_compat; lra).
    lra.
Qed.

(** What [==] and [!=] say of two finite vectors of binary32 data, in
    exact terms.  Both return, and [!=] returns the negation of [==].
    When [a == b] holds, the exact squared distance of the two vectors is
    below [(1 + 2^-20) * 9.99999944E-11]; when it does not hold and the
    computed squared distance is finite, the exact squared distance is
    above [(1 - 2^-20) * 9.99999944E-11]. *)
Theorem equality_exact_distance (a b : Vector3) :
  finiteV a = true -> finiteV b = true ->
  validV a = true -> validV b = true ->
  exists q e n,
    DistanceSquared a b = Some q
    /\ op_eq a b = Some e /\ op_ne a b = Some n /\ n = negb e
    /\ (e = true ->
        sqrDistance a b < (1 + bpow (-20)) * B2R kEqualityEpsilon)
    /\ (e = false -> is_finite q = true ->
        (1 - bpow (-20)) * B2R kEqualityEpsilon < sqrDistance a b).
Proof.
  intros Ha Hb Va Vb.
  unfold DistanceSquared, op_eq, op_ne.
  rewrite (Equality.op_sub_finite a b Ha Hb). cbn [bind].
  set (d := mk (sub a.(x) b.(x)) (sub a.(y) b.(y)) (sub a.(z) b.(z))).
  change (SqrMagnitude d) with (sqrMagnitude d).
  destruct (Interpolation.validV_fields a Va) as (Vax & Vay & Vaz).
  destruct (Interpolation.validV_fields b Vb) as (Vbx & Vby & Vbz).
  assert (Vd : validV d = true).
  { unfold validV, d. cbn [x y z]. now rewrite !sub_valid. }
  pose proof (sqrMagnitude_valid d Vd) as Vq.
  pose proof (Normalization.sum_squares_sign d.(x) d.(y) d.(z)) as Sq.
  change (signbit (sqrMagnitude d) = false) in Sq.
  destruct (Invariant.finiteV_fields a Ha) as (Ax & Ay & Az).
  destruct (Invariant.finiteV_fields b Hb) as (Bx & By & Bz).
  assert (Nq : isnan (sqrMagnitude d) = false).
  { rewrite Normalization.sqrMagnitude_isnan. unfold hasNaNs, d.
    cbn [x y z]. now rewrite !Equality.sub_finite_not_nan. }
  exists (sqrMagnitude d), (ltb (sqrMagnitude d) kEqualityEpsilon),
    (geb (sqrMagnitude d) kEqualityEpsilon).
  split; [reflexivity|]. split; [reflexivity|]. split; [reflexivity|].
  split; [now apply geb_negb_ltb|].
  pose proof (sqrDistance_nonneg a b) as S0.
  rewrite bpow_m20, kEqualityEpsilon_value.
  split.
  - intros L. destruct (lt_epsilon_value _ Vq Sq L) as [Fq Lq].
    destruct (difference_sqrMagnitude a b Ha Hb Fq) as (_ & _ & E).
    fold d in E. apply Rabs_bound in E.
    rewrite kEqualityEpsilon_value in Lq.
    rewrite bpow_m21, bpow_m146 in E. lra.
  - intros L Fq. pose proof (ge_epsilon_value _ Vq Sq Fq L) as Gq.
    destruct (difference_sqrMagnitude a b Ha Hb Fq) as (_ & _ & E).
    fold d in E. apply Rabs_bound in E.
    rewrite kEqualityEpsilon_value in Gq.
    rewrite bpow_m21, bpow_m146 in E. lra.
Qed.

(** The theorem at [a = (1, 2, 3)], [b = (1, 2, 3)]. *)
Lemma equality_exact_distance_witness :
  exists q e n,
    DistanceSquared (ofZ3 1 2 3) (ofZ3 1 2 3) = Some q
    /\ op_eq (ofZ3 1 2 3) (ofZ3 1 2 3) = Some e
    /\ op_ne (ofZ3 1 2 3) (ofZ3 1 2 3) = Some n /\ n = negb e
    /\ (e = true ->
        sqrDistance (ofZ3 1 2 3) (ofZ3 1 2 3)
        < (1 + bpow (-20)) * B2R kEqualityEpsilon)
    /\ (e = false -> is_finite q = true ->
        (1 - bpow (-20)) * B2R kEqualityEpsilon
        < sqrDistance (ofZ3 1 2 3) (ofZ3 1 2 3)).
Proof. apply equality_exact_distance; reflexivity. Defined.


(** *** Clamping *)

Lemma op_mulf_finite (n : Vector3) (L : float) :
  finiteV n = true -> is_finite L = true ->
  op_mulf n L = Some (mk (mul n.(x) L) (mul n.(y) L) (mul n.(z) L)).
Proof.
  intros Hn HL. destruct (Invariant.finiteV_fields n Hn) as (Hx & Hy & Hz).
  unfold op_mulf, Vector3_xyz, bind, Assert, hasNaNs.
  rewrite (is_finite_not_nan L HL). simpl.
  now rewrite !Clamping.mul_finite_not_nan by assumption.
Qed.

(** The clamping branch on a vector whose magnitude is finite and above
    [1E-05f]. *)
Lemma clamped_length (v : Vector3) (L : float) :
  finiteV v = true ->
  gtb (sqrMagnitude v) (mul L L) = true ->
  is_finite (magnitude v) = true ->
  gtb (magnitude v) (dec 1 5) = true ->
  let n := mk (div v.(x) (magnitude v)) (div v.(y) (magnitude v))
              (div v.(z) (magnitude v)) in
  let r := mk (mul n.(x) L) (mul n.(y) L) (mul n.(z) L) in
  ClampMagnitude v L = Some r
  /\ (finiteV r = true ->
      Rabs (sqrLength r - B2R L * B2R L)
      <= bpow (-19) * (B2R L * B2R L) + bpow (-147)).
Proof.
  intros Hf C F G.
  pose proof (Clamping.square_below_finite _ _ C) as HL.
  destruct (Normalize_quotients v Hf F G) as (Hn & Fn & B).
  set (n := mk (div v.(x) (magnitude v)) (div v.(y) (magnitude v))
               (div v.(z) (magnitude v))) in *.
  cbv zeta.
  unfold ClampMagnitude, normalized. rewrite C, Hn. cbn [bind].
  rewrite (op_mulf_finite n L Fn HL).
  split; [reflexivity|]. intros Fr.
  destruct (Invariant.finiteV_fields n Fn) as (Nx & Ny & Nz).
  destruct (Invariant.finiteV_fields _ Fr) as (Rx & Ry & Rz).
  cbn [x y z] in Rx, Ry, Rz.
  pose proof (mul_error _ _ Nx HL Rx) as Ex.
  pose proof (mul_error _ _ Ny HL Ry) as Ey.
  pose proof (mul_error _ _ Nz HL Rz) as Ez.
  apply square_perturbation in Ex, Ey, Ez.
  apply Rabs_bound in Ex, Ey, Ez. apply Rabs_bound in B.
  rewrite bpow_m20 in B. rewrite bpow_m19, bpow_m147.
  unfold sqrLength in *. cbn [x y z].
  set (W := B2R L * B2R L).
  assert (W0 : 0 <= W) by apply Rle_0_sqr.
  set (Sn := B2R (x n) * B2R (x n) + B2R (y n) * B2R (y n)
             + B2R (z n) * B2R (z n)) in *.
  assert (EP : B2R (x n) * B2R L * (B2R (x n) * B2R L)
               + B2R (y n) * B2R L * (B2R (y n) * B2R L)
               + B2R (z n) * B2R L * (B2R (z n) * B2R L) = W * Sn)
    by (unfold W, Sn; ring).
  assert (PU : W * Sn <= W * (1 + / 1048576))
    by (apply Rmult_le_compat_l; lra).
  assert (PL : W * (1 - / 1048576) <= W * Sn)
    by (apply Rmult_le_compat_l; lra).
  set (P := W * Sn) in *. clearbody P. clearbody W.
  numeric. apply Rabs_le. split; lra.
Qed.

(** [ClampMagnitude] in the branch that clamps, on a vector whose
    magnitude is finite and above [1E-05f]: the call returns, and the exact
    squared length of a finite result is [L * L] to within [2^-19] of it
    and [2^-147]. *)
Theorem ClampMagnitude_length (v : Vector3) (L : float) :
  finiteV v = true ->
  gtb (sqrMagnitude v) (mul L L) = true ->
  is_finite (magnitude v) = true ->
  gtb (magnitude v) (dec 1 5) = true ->
  exists r, ClampMagnitude v L = Some r
            /\ (finiteV r = true ->
                Rabs (sqrLength r - B2R L * B2R L)
                <= bpow (-19) * (B2R L * B2R L) + bpow (-147)).
Proof.
  intros Hf C F G.
  destruct (clamped_length v L Hf C F G) as [E B].
  eexists. split; [exact E|exact B].
Qed.

(** The theorem at [v = (3, 3, 3)], [L = 1]. *)
Lemma ClampMagnitude_length_witness :
  exists r, ClampMagnitude (ofZ3 3 3 3) one = Some r
            /\ (finiteV r = true ->
                Rabs (sqrLength r - B2R one * B2R one)
                <= bpow (-19) * (B2R one * B2R one) + bpow (-147)).
Proof. apply ClampMagnitude_length; reflexivity. Defined.

(** [ClampMagnitude] in the branch that clamps, on a vector whose
    magnitude is not above [1E-05f]: the result is a zero vector, not a
    vector of length [L]. *)
Theorem ClampMagnitude_short_vector (v : Vector3) (L : float) :
  gtb (sqrMagnitude v) (mul L L) = true ->
  gtb (magnitude v) (dec 1 5) = false ->
  exists r, ClampMagnitude v L = Some r /\ zeroV r = true.
Proof.
  intros C G.
  pose proof (Clamping.square_below_finite _ _ C) as HL.
  unfold ClampMagnitude, normalized, Normalize. rewrite C, G. cbn [bind].
  destruct L as [s|s| |s m e]; try discriminate;
    eexists; split; reflexivity.
Qed.


(** The theorem at [v = (1E-06f, 0, 0)], [L = 1E-08f]. *)
Lemma ClampMagnitude_short_vector_witness :
  exists r, ClampMagnitude (mk (dec 1 6) pzero pzero) (dec 1 8) = Some r
            /\ zeroV r = true.
Proof. apply ClampMagnitude_short_vector; reflexivity. Defined.

(** *** Dot product *)

(** Three rounded products summed with two rounded sums. *)
Lemma sum_products_bounds (ex ey ez px py pz s1 s2 : R) :
  Rabs (px - ex) <= u * Rabs ex + eta ->
  Rabs (py - ey) <= u * Rabs ey + eta ->
  Rabs (pz - ez) <= u * Rabs ez + eta ->
  Rabs (s1 - (px + py)) <= u * Rabs (px + py) + eta ->
  Rabs (s2 - (s1 + pz)) <= u * Rabs (s1 + pz) + eta ->
  Rabs (s2 - (ex + ey + ez))
  <= bpow (-22) * (Rabs ex + Rabs ey + Rabs ez) + bpow (-147).
Proof.
  intros Hx Hy Hz H1 H2.
  assert (Bx : - Rabs ex <= ex <= Rabs ex)
    by (unfold Rabs; destruct (Rcase_abs ex); lra).
  assert (By : - Rabs ey <= ey <= Rabs ey)
    by (unfold Rabs; destruct (Rcase_abs ey); lra).
  assert (Bz : - Rabs ez <= ez <= Rabs ez)
    by (unfold Rabs; destruct (Rcase_abs ez); lra).
  pose proof (Rabs_pos ex) as Px. pose proof (Rabs_pos ey) as Py.
  pose proof (Rabs_pos ez) as Pz.
  set (tx := Rabs ex) in *. set (ty := Rabs ey) in *.
  set (tz := Rabs ez) in *. clearbody tx ty tz.
  apply Rabs_bound in Hx, Hy, Hz.
  rewrite bpow_m22, bpow_m147. numeric.
  assert (A1 : Rabs (px + py)
               <= (1 + / 16777216) * (tx + ty)
                  + 2 * / 1427247692705959881058285969449495136382746624)
    by (apply Rabs_le; lra).
  apply Rabs_bound in H1.
  assert (A2 : Rabs (s1 + pz)
               <= (1 + / 16777216) * (1 + / 16777216) * (tx + ty)
                  + (1 + / 16777216) * tz
                  + 5 * / 1427247692705959881058285969449495136382746624).
  { apply Rabs_le. lra. }
  apply Rabs_bound in H2.
  apply Rabs_le. split; lra.
Qed.

(** [Dot] of two finite vectors, when finite, is the exact dot product to
    within [2^-22] of the sum of the absolute values of the three exact
    products, and [2^-147]. *)
Theorem Dot_accuracy (a b : Vector3) :
  finiteV a = true -> finiteV b = true -> is_finite (Dot a b) = true ->
  Rabs (B2R (Dot a b) - dot a b) <= bpow (-22) * absDot a b + bpow (-147).
Proof.
  intros Ha Hb F.
  destruct (Invariant.finiteV_fields a Ha) as (Ax & Ay & Az).
  destruct (Invariant.finiteV_fields b Hb) as (Bx & By & Bz).
  unfold Dot in *.
  pose proof F as F2. apply add_finite_inv in F2. destruct F2 as [F1 Fz].
  pose proof F1 as F0. apply add_finite_inv in F0. destruct F0 as [Fx Fy].
  exact (sum_products_bounds _ _ _ _ _ _ _ _
           (mul_error _ _ Ax Bx Fx) (mul_error _ _ Ay By Fy)
           (mul_error _ _ Az Bz Fz)
           (add_error_signed _ _ Fx Fy F1) (add_error_signed _ _ F1 Fz F)).
Qed.

(** The theorem at [a = (1, -2, 3)], [b = (4, 5, -6)]. *)
Lemma Dot_accuracy_witness :
  Rabs (B2R (Dot (ofZ3 1 (-2) 3) (ofZ3 4 5 (-6)))
        - dot (ofZ3 1 (-2) 3) (ofZ3 4 5 (-6)))
  <= bpow (-22) * absDot (ofZ3 1 (-2) 3) (ofZ3 4 5 (-6)) + bpow (-147).
Proof. apply Dot_accuracy; reflexivity. Defined.

(** *** Cross product *)

Lemma sub_finite_inv (a b : float) :
  is_finite (sub a b) = true -> is_finite a = true /\ is_finite b = true.
Proof.
  destruct a as [[|]|[|]| |sa ma ea], b as [[|]|[|]| |sb mb eb];
    try discriminate; auto.
Qed.

(** A difference of two rounded products. *)
Lemma difference_products_error (a b c d : float) :
  is_finite a = true -> is_finite b = true ->
  is_finite c = true -> is_finite d = true ->
  is_finite (sub (mul a b) (mul c d)) = true ->
  Rabs (B2R (sub (mul a b) (mul c d)) - (B2R a * B2R b - B2R c * B2R d))
  <= bpow (-22) * (Rabs (B2R a * B2R b) + Rabs (B2R c * B2R d))
     + bpow (-148).
Proof.
  intros Ha Hb Hc Hd F.
  destruct (sub_finite_inv _ _ F) as [F1 F2].
  pose proof (mul_error _ _ Ha Hb F1) as E1.
  pose proof (mul_error _ _ Hc Hd F2) as E2.
  pose proof (sub_error _ _ F1 F2 F) as E.
  set (e1 := B2R a * B2R b) in *. set (e2 := B2R c * B2R d) in *.
  set (p1 := B2R (mul a b)) in *. set (p2 := B2R (mul c d)) in *.
  set (r := B2R (sub (mul a b) (mul c d))) in *.
  clearbody e1 e2 p1 p2 r.
  assert (B1 : - Rabs e1 <= e1 <= Rabs e1)
    by (unfold Rabs; destruct (Rcase_abs e1); lra).
  assert (B2 : - Rabs e2 <= e2 <= Rabs e2)
    by (unfold Rabs; destruct (Rcase_abs e2); lra).
  pose proof (Rabs_pos e1) as P1. pose proof (Rabs_pos e2) as P2.
  set (t1 := Rabs e1) in *. set (t2 := Rabs e2) in *. clearbody t1 t2.
  apply Rabs_bound in E1, E2.
  rewrite bpow_m22, bpow_m148. numeric.
  assert (A : Rabs (p1 - p2)
              <= (1 + / 16777216) * (t1 + t2)
                 + 2 * / 1427247692705959881058285969449495136382746624)
    by (apply Rabs_le; lra).
  apply Rabs_bound in E.
  apply Rabs_le. split; lra.
Qed.

Lemma Vector3_xyz_inv (a b c : float) (r : Vector3) :
  Vector3_xyz a b c = Some r -> r = mk a b c.
Proof.
  unfold Vector3_xyz, bind, Assert.
  destruct (negb (hasNaNs (mk a b c))); [|discriminate].
  now intros [= <-].
Qed.

(** Each field of a finite [Cross(a, b)] of two finite vectors is the
    field of the exact cross product to within [2^-22] of the sum of the
    absolute values of its two exact products, and [2^-148]. *)
Theorem Cross_accuracy (a b r : Vector3) :
  finiteV a = true -> finiteV b = true ->
  Cross a b = Some r -> finiteV r = true ->
  Rabs (B2R r.(x) - (B2R a.(y) * B2R b.(z) - B2R a.(z) * B2R b.(y)))
  <= bpow (-22) * (Rabs (B2R a.(y) * B2R b.(z))
                   + Rabs (B2R a.(z) * B2R b.(y))) + bpow (-148)
  /\ Rabs (B2R r.(y) - (B2R a.(z) * B2R b.(x) - B2R a.(x) * B2R b.(z)))
     <= bpow (-22) * (Rabs (B2R a.(z) * B2R b.(x))
                      + Rabs (B2R a.(x) * B2R b.(z))) + bpow (-148)
  /\ Rabs (B2R r.(z) - (B2R a.(x) * B2R b.(y) - B2R a.(y) * B2R b.(x)))
     <= bpow (-22) * (Rabs (B2R a.(x) * B2R b.(y))
                      + Rabs (B2R a.(y) * B2R b.(x))) + bpow (-148).
Proof.
  intros Ha Hb C Fr. unfold Cross in C. apply Vector3_xyz_inv in C.
  subst r.
  destruct (Invariant.finiteV_fields a Ha) as (Ax & Ay & Az).
  destruct (Invariant.finiteV_fields b Hb) as (Bx & By & Bz).
  destruct (Invariant.finiteV_fields _ Fr) as (Rx & Ry & Rz).
  cbn [x y z] in *.
  split; [|split]; now apply difference_products_error.
Qed.

(** The theorem at [a = (1, 2, 3)], [b = (4, 5, 6)], first field. *)
Lemma Cross_accuracy_witness :
  Cross (ofZ3 1 2 3) (ofZ3 4 5 6) = Some (ofZ3 (-3) 6 (-3))
  /\ Rabs (B2R (of_Z (-3))
           - (B2R (of_Z 2) * B2R (of_Z 6) - B2R (of_Z 3) * B2R (of_Z 5)))
     <= bpow (-22) * (Rabs (B2R (of_Z 2) * B2R (of_Z 6))
                      + Rabs (B2R (of_Z 3) * B2R (of_Z 5))) + bpow (-148).
Proof.
  split; [reflexivity|].
  exact (proj1 (Cross_accuracy (ofZ3 1 2 3) (ofZ3 4 5 6) (ofZ3 (-3) 6 (-3))
                  eq_refl eq_refl eq_refl eq_refl)).
Defined.

End Accuracy.

(** * Lengths, the threshold of equality and interpolation, in exact terms
    (claims C3, C5, C6, C7) *)

Module ExactTerms.

Import Float32Facts Exact Rounding Accuracy.

Local Open Scope R_scope.

(** ** Comparisons of data that are not negative *)

Lemma valid_exponent (s : bool) (m : positive) (e : Z) :
  valid (S754_finite s m e) = true -> (-149 <= e)%Z.
Proof.
  intros H. apply valid_finite_inv in H. rewrite fexp_eq in H. lia.
Qed.

(** On two finite data of the format that are not negative, [<] compares
    the values. *)
Lemma ltb_nonneg_value (a b : float) :
  valid a = true -> valid b = true ->
  signbit a = false -> signbit b = false ->
  is_finite a = true -> is_finite b = true ->
  (ltb a b = true -> B2R a < B2R b)
  /\ (ltb a b = false -> B2R b <= B2R a).
Proof.
  destruct a as [sa|sa| |sa ma ea], b as [sb|sb| |sb mb eb];
    try discriminate; simpl signbit; intros Va Vb Sa Sb _ _; subst.
  - split; [discriminate|]. intros _. simpl. lra.
  - assert (0 < IZR (Z.pos mb) * bpow eb).
    { pose proof (bpow_pos eb).
      assert (0 < IZR (Z.pos mb)) by (apply IZR_lt; lia).
      now apply Rmult_lt_0_compat. }
    rewrite B2R_finite. unfold sgn. simpl (B2R (S754_zero false)).
    split; [intros _; lra|discriminate].
  - assert (0 < IZR (Z.pos ma) * bpow ea).
    { pose proof (bpow_pos ea).
      assert (0 < IZR (Z.pos ma)) by (apply IZR_lt; lia).
      now apply Rmult_lt_0_compat. }
    rewrite B2R_finite. unfold sgn. simpl (B2R (S754_zero false)).
    split; [discriminate|intros _; lra].
  - destruct (valid_mantissa _ _ _ Va) as [Ua La].
    destruct (valid_mantissa _ _ _ Vb) as [Ub Lb].
    pose proof (valid_exponent _ _ _ Va) as Ea.
    pose proof (valid_exponent _ _ _ Vb) as Eb.
    assert (Pa : 0 < IZR (Z.pos ma)) by (apply IZR_lt; lia).
    assert (Pb : 0 < IZR (Z.pos mb)) by (apply IZR_lt; lia).
    pose proof (bpow_pos ea) as Bea. pose proof (bpow_pos eb) as Beb.
    rewrite !B2R_finite. unfold sgn. rewrite !Rmult_1_l.
    assert (Far : forall (m1 m2 : R) (e1 e2 : Z),
               (e1 < e2)%Z -> 0 < m1 < 16777216 -> 8388608 <= m2 ->
               m1 * bpow e1 < m2 * bpow e2).
    { intros m1 m2 e1 e2 He H1 H2.
      pose proof (bpow_pos e1) as P1.
      pose proof (bpow_le (e1 + 1) e2 ltac:(lia)) as Le.
      rewrite bpow_succ in Le.
      assert (8388608 * bpow e2 <= m2 * bpow e2)
        by (apply Rmult_le_compat_r; [pose proof (bpow_pos e2)|]; lra).
      assert (m1 * bpow e1 < 16777216 * bpow e1)
        by (apply Rmult_lt_compat_r; lra).
      lra. }
    unfold ltb, SFltb. cbn [SFcompare].
    destruct (ea ?= eb)%Z eqn:C.
    + apply Z.compare_eq in C. subst eb.
      destruct (Pos.compare_cont Eq ma mb) eqn:Cm.
      * apply (Pos.compare_eq ma mb) in Cm. subst mb.
        split; [discriminate|intros _; lra].
      * assert (Hm : (Z.pos ma < Z.pos mb)%Z) by exact Cm.
        apply IZR_lt in Hm.
        split; [intros _|discriminate].
        apply Rmult_lt_compat_r; assumption.
      * assert (Hm : (Z.pos ma > Z.pos mb)%Z) by exact Cm.
        apply Z.gt_lt, IZR_lt in Hm.
        split; [discriminate|intros _].
        apply Rmult_le_compat_r; lra.
    + change (ea < eb)%Z in C.
      split; [intros _|discriminate].
      apply Far; [assumption|lra|apply Lb; lia].
    + apply Z.compare_gt_iff in C.
      split; [discriminate|intros _].
      apply Rlt_le, Far; [assumption|lra|apply La; lia].
Qed.

(** ** Normalisation (claim C3) *)

Lemma not_finite_cases (v : Vector3) :
  finiteV v = false -> hasNaNs v = true \/ hasInfs v = true.
Proof.
  destruct v as [a b c]. unfold finiteV, hasNaNs, hasInfs. cbn [x y z].
  destruct a, b, c; simpl; auto; discriminate.
Qed.

Lemma magnitude_finite_fields (v : Vector3) :
  is_finite (magnitude v) = true -> finiteV v = true.
Proof.
  intros F. apply sqrMagnitude_finite_fields.
  apply sqrtf_finite_inv. exact F.
Qed.

(** Claim C3, as amended.  [Normalize(v)] is [v / magnitude(v)] (the
    divisor always passes the assertion of [operator/]) when
    [magnitude(v) > 1E-05f] and the zero vector otherwise.  When the
    magnitude is above [1E-05f] and finite, the result is a finite vector
    whose exact length, squared, is 1 to within [2^-20].  The magnitude is
    above [1E-05f] and not finite in two cases only: when the squared
    magnitude of a finite [v] overflows to [+inf], and then every field of
    the result is a zero; when [v] has an infinite field and no NaN, and
    then the quotient has a NaN field and the call stops on the
    constructor's assertion.  On a finite vector the call always returns,
    and returns a finite vector. *)
Theorem Normalize_cases (v : Vector3) :
  (gtb (magnitude v) (dec 1 5) = true ->
     Normalize v = op_divf v (magnitude v)
     /\ Normalize v
        = Vector3_xyz (div v.(x) (magnitude v)) (div v.(y) (magnitude v))
                      (div v.(z) (magnitude v)))
  /\ (gtb (magnitude v) (dec 1 5) = true ->
      is_finite (magnitude v) = true ->
      exists r, Normalize v = Some r
                /\ finiteV r = true
                /\ Rabs (sqrLength r - 1) <= bpow (-20))
  /\ (gtb (magnitude v) (dec 1 5) = false -> Normalize v = Some zero)
  /\ (finiteV v = true ->
      exists r, Normalize v = Some r /\ finiteV r = true)
  /\ (gtb (magnitude v) (dec 1 5) = true ->
      is_finite (magnitude v) = false ->
      magnitude v = pinf
      /\ (finiteV v = true ->
          exists r, Normalize v = Some r /\ zeroV r = true)
      /\ (finiteV v = false -> Normalize v = None))
  /\ (finiteV v = true -> magnitude v = pinf ->
      exists r, Normalize v = Some r /\ eqV r zero = true)
  /\ (hasInfs v = true -> hasNaNs v = false -> Normalize v = None).
Proof.
  split; [|split; [|split; [|split; [|split; [|split]]]]].
  - intros H. split.
    + unfold Normalize. now rewrite H.
    + rewrite Normalization.Normalize_fields. now rewrite H.
  - intros G F.
    destruct (Normalize_quotients v (magnitude_finite_fields v F) F G)
      as (E & Fr & B).
    eexists. split; [exact E|]. split; assumption.
  - intros H. unfold Normalize. now rewrite H.
  - apply Normalization.Normalize_finite.
  - intros G F.
    assert (Hm : magnitude v = pinf).
    { destruct (gt_1e_5_inv _ G) as [Hi|(m & e & Hn)]; [assumption|].
      rewrite Hn in F. discriminate. }
    split; [assumption|]. split.
    + intros Hf. rewrite (Normalization.Normalize_overflow v Hf Hm).
      eexists. split; reflexivity.
    + intros Hf.
      assert (Hn : hasNaNs v = false).
      { rewrite <- Normalization.magnitude_isnan, Hm. reflexivity. }
      destruct (not_finite_cases v Hf) as [H|Hi]; [congruence|].
      rewrite Normalization.Normalize_inplace_checked.
      now rewrite Normalization.Normalize_inplace_hasNaNs, Hi, Hn.
  - intros Hf Hm. rewrite (Normalization.Normalize_overflow v Hf Hm).
    eexists; split; [reflexivity|].
    unfold eqV; simpl.
    now destruct (signbit (x v)), (signbit (y v)), (signbit (z v)).
  - intros Hi Hn. rewrite Normalization.Normalize_inplace_checked.
    now rewrite Normalization.Normalize_inplace_hasNaNs, Hi, Hn.
Qed.

(** The theorem of claim C3 at [(1, 2, 3)], whose magnitude is the
    rounded root of 14. *)
Lemma Normalize_cases_witness :
  exists r, Normalize (ofZ3 1 2 3) = Some r
            /\ finiteV r = true
            /\ Rabs (sqrLength r - 1) <= bpow (-20).
Proof.
  apply (proj1 (proj2 (Normalize_cases (ofZ3 1 2 3)))); reflexivity.
Defined.

(** ** Equality (claim C5) *)

(** Claim C5.  [a == b] holds exactly when the difference [a - b] is
    built without failing an assertion and its computed squared magnitude
    is below the constant of the source.  That constant is the binary32
    datum [14411518 * 2^-57], the nearest to the decimal
    [9.99999944E-11]: half a unit in its last place, [2^-58], away at most.
    On finite vectors of binary32 data the comparison is the comparison of
    the values: [a == b] holds exactly when the computed squared distance
    is finite and its value is below [14411518 * 2^-57].
    [Vector3(1e-6, 0, 0) == Vector3(0, 0, 0)] holds and
    [Vector3(1, 0, 0) == Vector3(0, 0, 0)] does not; the square of
    [1E-05f] is the constant itself, so [Vector3(1E-05f, 0, 0)] is not
    equal to the zero vector, while the vector of the float just below
    [1E-05f], [10995115 * 2^-40], is. *)
Theorem eq_is_squared_distance (a b : Vector3) :
  (op_eq a b = Some true <->
     exists d, op_sub a b = Some d
               /\ ltb (SqrMagnitude d) kEqualityEpsilon = true)
  /\ (op_eq a b = Some true <->
        exists d, op_sub a b = Some d
                  /\ ltb (SqrMagnitude d) (S754_finite false 14411518 (-57))
                     = true)
  /\ (B2R kEqualityEpsilon = 14411518 * bpow (-57)
      /\ Rabs (B2R kEqualityEpsilon - 999999944 / 10000000000000000000)
         <= bpow (-58))
  /\ (finiteV a = true -> finiteV b = true ->
      validV a = true -> validV b = true ->
      exists q, DistanceSquared a b = Some q
                /\ (op_eq a b = Some true <->
                      is_finite q = true
                      /\ B2R q < 14411518 * bpow (-57)))
  /\ (u <- Vector3_xyz (dec 1 6) pzero pzero ;;
      w <- Vector3_xyz pzero pzero pzero ;; op_eq u w) = Some true
  /\ (u <- Vector3_xyz one pzero pzero ;;
      w <- Vector3_xyz pzero pzero pzero ;; op_eq u w) = Some false
  /\ (u <- Vector3_xyz (dec 1 5) pzero pzero ;;
      w <- Vector3_xyz pzero pzero pzero ;; op_eq u w) = Some false
  /\ (u <- Vector3_xyz (S754_finite false 10995115 (-40)) pzero pzero ;;
      w <- Vector3_xyz pzero pzero pzero ;; op_eq u w) = Some true.
Proof.
  assert (I : op_eq a b = Some true <->
              exists d, op_sub a b = Some d
                        /\ ltb (SqrMagnitude d) kEqualityEpsilon = true).
  { unfold op_eq. split.
    - destruct (op_sub a b) as [d|]; simpl; [|discriminate].
      intros H. exists d. split; [reflexivity|]. now injection H.
    - intros (d & -> & H). simpl. now rewrite H. }
  assert (V : B2R kEqualityEpsilon = 14411518 * bpow (-57)).
  { rewrite kEqualityEpsilon_value, bpow_m57. reflexivity. }
  split; [exact I|]. split; [exact I|]. split.
  { split; [exact V|].
    rewrite kEqualityEpsilon_value, bpow_m58. apply Rabs_le. lra. }
  split; [|repeat split; reflexivity].
  intros Ha Hb Va Vb.
  unfold DistanceSquared, op_eq.
  rewrite (Equality.op_sub_finite a b Ha Hb). cbn [bind].
  set (d := mk (sub a.(x) b.(x)) (sub a.(y) b.(y)) (sub a.(z) b.(z))).
  change (SqrMagnitude d) with (sqrMagnitude d).
  destruct (Interpolation.validV_fields a Va) as (Vax & Vay & Vaz).
  destruct (Interpolation.validV_fields b Vb) as (Vbx & Vby & Vbz).
  assert (Vd : validV d = true).
  { unfold validV, d. cbn [x y z]. now rewrite !sub_valid. }
  pose proof (sqrMagnitude_valid d Vd) as Vq.
  pose proof (Normalization.sum_squares_sign d.(x) d.(y) d.(z)) as Sq.
  change (signbit (sqrMagnitude d) = false) in Sq.
  exists (sqrMagnitude d). split; [reflexivity|].
  rewrite <- V. split.
  - intros [= L]. now apply lt_epsilon_value.
  - intros [F L].
    destruct (ltb (sqrMagnitude d) kEqualityEpsilon) eqn:E; [reflexivity|].
    pose proof (ge_epsilon_value _ Vq Sq F E). lra.
Qed.

(** The theorem of claim C5 at [a = b = (1, 2, 3)]. *)
Lemma eq_is_squared_distance_witness :
  exists q, DistanceSquared (ofZ3 1 2 3) (ofZ3 1 2 3) = Some q
            /\ (op_eq (ofZ3 1 2 3) (ofZ3 1 2 3) = Some true <->
                  is_finite q = true /\ B2R q < 14411518 * bpow (-57)).
Proof.
  destruct (eq_is_squared_distance (ofZ3 1 2 3) (ofZ3 1 2 3))
    as (_ & _ & _ & H & _).
  apply H; reflexivity.
Defined.

(** ** Clamping (claim C6) *)

Lemma zeroV_sqrLength (r : Vector3) : zeroV r = true -> sqrLength r = 0.
Proof.
  destruct r as [a b c]. unfold zeroV, sqrLength. cbn [x y z].
  destruct a, b, c; try discriminate; intros _; simpl; lra.
Qed.

Lemma mul_zero_finite (z0 L : float) :
  is_zero z0 = true -> is_finite L = true -> is_zero (mul z0 L) = true.
Proof.
  destruct z0; try discriminate; destruct L; try discriminate; reflexivity.
Qed.

(** The product of a vector of zeros by a finite float. *)
Lemma op_mulf_zeros (n : Vector3) (L : float) :
  zeroV n = true -> is_finite L = true ->
  exists r, op_mulf n L = Some r /\ zeroV r = true.
Proof.
  intros Hz HL.
  assert (Fn : finiteV n = true).
  { destruct n as [a b c]. unfold zeroV, finiteV in *. cbn [x y z] in *.
    destruct a, b, c; try discriminate; reflexivity. }
  rewrite (op_mulf_finite n L Fn HL). eexists. split; [reflexivity|].
  unfold zeroV in *. cbn [x y z].
  apply andb_true_iff in Hz. destruct Hz as [Hz Hc].
  apply andb_true_iff in Hz. destruct Hz as [Ha Hb].
  now rewrite !mul_zero_finite.
Qed.

(** The clamping branch on a vector whose magnitude is not both finite
    and above [1E-05f]: the result is a vector of zeros. *)
Lemma clamped_to_zero (v : Vector3) (L : float) :
  gtb (sqrMagnitude v) (mul L L) = true ->
  gtb (magnitude v) (dec 1 5) = false
  \/ (finiteV v = true /\ magnitude v = pinf) ->
  exists r, ClampMagnitude v L = Some r /\ zeroV r = true.
Proof.
  intros C H.
  pose proof (Clamping.square_below_finite _ _ C) as HL.
  unfold ClampMagnitude, normalized. rewrite C.
  destruct H as [G|[Hf Hm]].
  - unfold Normalize. rewrite G. cbn [bind].
    now apply op_mulf_zeros.
  - rewrite (Normalization.Normalize_overflow v Hf Hm). cbn [bind].
    now apply op_mulf_zeros.
Qed.

(** The three cases of the clamping branch. *)
Lemma clamped_cases (v : Vector3) (L : float) :
  gtb (sqrMagnitude v) (mul L L) = true ->
  (finiteV v = true /\ is_finite (magnitude v) = true
   /\ gtb (magnitude v) (dec 1 5) = true)
  \/ (gtb (magnitude v) (dec 1 5) = false
      \/ (finiteV v = true /\ magnitude v = pinf))
  \/ ClampMagnitude v L = None.
Proof.
  intros C.
  destruct (gtb (magnitude v) (dec 1 5)) eqn:G; [|right; left; now left].
  destruct (gt_1e_5_inv _ G) as [Hi|(m & e & Hn)].
  - destruct (finiteV v) eqn:Hf; [right; left; right; now split|].
    right. right.
    assert (Nn : hasNaNs v = false).
    { rewrite <- Normalization.magnitude_isnan, Hi. reflexivity. }
    destruct (not_finite_cases v Hf) as [H|Hinf]; [congruence|].
    unfold ClampMagnitude, normalized. rewrite C.
    rewrite Normalization.Normalize_inplace_checked.
    now rewrite Normalization.Normalize_inplace_hasNaNs, Hinf, Nn.
  - left.
    assert (F : is_finite (magnitude v) = true) by now rewrite Hn.
    split; [now apply magnitude_finite_fields|]. now split.
Qed.

(** A finite vector of binary32 data that is not clamped, when [L * L] is
    finite: its exact squared length against the exact [L * L]. *)
Lemma unclamped_length (v : Vector3) (L : float) :
  finiteV v = true -> validV v = true -> valid L = true ->
  is_finite (mul L L) = true ->
  gtb (sqrMagnitude v) (mul L L) = false ->
  sqrLength v <= (1 + bpow (-19)) * (B2R L * B2R L) + bpow (-147).
Proof.
  intros Hf Vv VL FL C.
  pose proof (sqrMagnitude_valid v Vv) as Vq.
  pose proof (Normalization.sum_squares_sign v.(x) v.(y) v.(z)) as Sq.
  change (signbit (sqrMagnitude v) = false) in Sq.
  pose proof (mul_valid L L VL VL) as Vm.
  pose proof (mul_self_sign L) as Sm.
  assert (Nq : isnan (sqrMagnitude v) = false).
  { rewrite Normalization.sqrMagnitude_isnan.
    now apply Invariant.finiteV_not_nan. }
  assert (Fq : is_finite (sqrMagnitude v) = true).
  { destruct (sqrMagnitude v) as [s|s| |s m e]; try reflexivity;
      try discriminate.
    simpl in Sq. subst s.
    destruct (mul L L) as [s'|s'| |s' m' e']; discriminate. }
  destruct (ltb_nonneg_value _ _ Vm Vq Sm Sq FL Fq) as [_ Le].
  specialize (Le C).
  destruct (sqrMagnitude_error v Hf Fq) as (_ & Lo & _).
  pose proof (square_error L (mul_self_finite_arg _ FL) FL) as EL.
  apply Rabs_bound in EL.
  pose proof (sqrLength_nonneg v) as S0.
  assert (W0 : 0 <= B2R L * B2R L) by apply Rle_0_sqr.
  rewrite bpow_m19, bpow_m147.
  set (W := B2R L * B2R L) in *. clearbody W.
  set (S := sqrLength v) in *. clearbody S.
  numeric. lra.
Qed.

(** Claim C6, as amended.  [ClampMagnitude(v, L)] is [normalized(v) * L]
    when [v.sqrMagnitude() > L * L] holds in binary32 and [v] itself
    otherwise; so [v] is returned unchanged whenever its computed squared
    magnitude is at most the computed [L * L], and the zero vector is
    returned unchanged for every [L].  The call never stops on a finite
    vector.

    The result is not longer than [L], up to rounding: the exact squared
    length of a finite result is at most [(1 + 2^-19) * L^2 + 2^-147], for
    every clamped result and, when [v] and [L] are binary32 data and
    [L * L] is finite, for a finite [v] returned unchanged.  A clamped
    result has the length [L] up to rounding, its exact squared length
    being [L^2] to within [2^-19] of it and [2^-147], when the magnitude of
    [v] is finite and above [1E-05f]; it is a vector of zeros when that
    magnitude is not above [1E-05f] or has overflowed. *)
Theorem ClampMagnitude_cases (v : Vector3) (L : float) :
  (gtb (sqrMagnitude v) (mul L L) = true ->
     ClampMagnitude v L = (n <- normalized v ;; op_mulf n L))
  /\ (gtb (sqrMagnitude v) (mul L L) = false -> ClampMagnitude v L = Some v)
  /\ (leb (sqrMagnitude v) (mul L L) = true -> ClampMagnitude v L = Some v)
  /\ ClampMagnitude zero L = Some zero
  /\ (finiteV v = true -> exists r, ClampMagnitude v L = Some r)
  /\ (gtb (sqrMagnitude v) (mul L L) = true ->
      is_finite (magnitude v) = true ->
      gtb (magnitude v) (dec 1 5) = true ->
      exists r, ClampMagnitude v L = Some r
                /\ (finiteV r = true ->
                    Rabs (sqrLength r - B2R L * B2R L)
                    <= bpow (-19) * (B2R L * B2R L) + bpow (-147)))
  /\ (gtb (sqrMagnitude v) (mul L L) = true ->
      gtb (magnitude v) (dec 1 5) = false
      \/ (finiteV v = true /\ magnitude v = pinf) ->
      exists r, ClampMagnitude v L = Some r /\ zeroV r = true)
  /\ (gtb (sqrMagnitude v) (mul L L) = true ->
      forall r, ClampMagnitude v L = Some r -> finiteV r = true ->
      sqrLength r <= (1 + bpow (-19)) * (B2R L * B2R L) + bpow (-147))
  /\ (gtb (sqrMagnitude v) (mul L L) = false ->
      finiteV v = true -> validV v = true -> valid L = true ->
      is_finite (mul L L) = true ->
      ClampMagnitude v L = Some v
      /\ sqrLength v <= (1 + bpow (-19)) * (B2R L * B2R L) + bpow (-147)).
Proof.
  split; [|split; [|split; [|split; [|split; [|split; [|split; [|split]]]]]]].
  - intros H. unfold ClampMagnitude. now rewrite H.
  - intros H. unfold ClampMagnitude. now rewrite H.
  - intros H. unfold ClampMagnitude.
    now rewrite (Clamping.leb_not_gtb _ _ H).
  - unfold ClampMagnitude.
    now rewrite Clamping.sqrMagnitude_zero, Clamping.zero_not_gt_square.
  - apply Clamping.ClampMagnitude_finite.
  - intros C F G.
    destruct (clamped_length v L (magnitude_finite_fields v F) C F G)
      as [E B].
    eexists. split; [exact E|exact B].
  - apply clamped_to_zero.
  - intros C r Hr Fr.
    assert (W0 : 0 <= B2R L * B2R L) by apply Rle_0_sqr.
    destruct (clamped_cases v L C) as [(Hf & F & G)|[H|H]].
    + destruct (clamped_length v L Hf C F G) as (Hr' & B).
      cbv zeta in Hr', B. cbn [x y z] in Hr', B.
      rewrite Hr in Hr'. injection Hr' as Heq.
      rewrite <- Heq in B.
      specialize (B Fr). apply Rabs_bound in B. lra.
    + destruct (clamped_to_zero v L C H) as (r' & Hr' & Z).
      rewrite Hr in Hr'. injection Hr' as <-.
      rewrite (zeroV_sqrLength r Z).
      pose proof (bpow_pos (-19)). pose proof (bpow_pos (-147)). nra.
    + rewrite Hr in H. discriminate.
  - intros C Hf Vv VL FL. split.
    + unfold ClampMagnitude. now rewrite C.
    + now apply unclamped_length.
Qed.

(** The theorem of claim C6 at [v = (3, 3, 3)], [L = 1], which is
    clamped. *)
Lemma ClampMagnitude_cases_witness :
  exists r, ClampMagnitude (ofZ3 3 3 3) one = Some r
            /\ (finiteV r = true ->
                Rabs (sqrLength r - B2R one * B2R one)
                <= bpow (-19) * (B2R one * B2R one) + bpow (-147)).
Proof.
  apply (proj1 (proj2 (proj2 (proj2 (proj2 (proj2
           (ClampMagnitude_cases (ofZ3 3 3 3) one)))))));
    reflexivity.
Defined.

(** ** Results that need no rounding *)

Lemma IZR_lt_bpow (m : Z) : (0 < m)%Z -> IZR m < bpow (Zdigits2 m).
Proof.
  intros H. pose proof (Zdigits2_bounds m H) as [_ B].
  pose proof (Zdigits2_pos m H).
  rewrite bpow_IZR by lia. now apply IZR_lt.
Qed.

(** The value of a mantissa and an exponent fixes the place of the first
    digit. *)
Lemma value_digits (m1 m2 : positive) (e1 e2 : Z) :
  IZR (Z.pos m1) * bpow e1 = IZR (Z.pos m2) * bpow e2 ->
  (Z.pos (digits2_pos m1) + e1 = Z.pos (digits2_pos m2) + e2)%Z.
Proof.
  assert (Half : forall (p q : positive) (a b : Z),
             IZR (Z.pos p) * bpow a = IZR (Z.pos q) * bpow b ->
             (Z.pos (digits2_pos p) + a <= Z.pos (digits2_pos q) + b)%Z).
  { intros p q a b H.
    destruct (Z_le_gt_dec (Z.pos (digits2_pos p) + a)
                (Z.pos (digits2_pos q) + b)) as [L|G]; [assumption|].
    exfalso.
    pose proof (IZR_ge_bpow (Z.pos p) ltac:(lia)) as Lp.
    pose proof (IZR_lt_bpow (Z.pos q) ltac:(lia)) as Uq.
    cbn [Zdigits2] in Lp, Uq.
    pose proof (bpow_pos a) as Pa. pose proof (bpow_pos b) as Pb.
    assert (L1 : bpow (Z.pos (digits2_pos p) - 1 + a)
                 <= IZR (Z.pos p) * bpow a).
    { rewrite bpow_add. apply Rmult_le_compat_r; lra. }
    assert (U1 : IZR (Z.pos q) * bpow b
                 < bpow (Z.pos (digits2_pos q) + b)).
    { rewrite bpow_add. apply Rmult_lt_compat_r; lra. }
    pose proof (bpow_le (Z.pos (digits2_pos q) + b)
                  (Z.pos (digits2_pos p) - 1 + a) ltac:(lia)).
    lra. }
  intros H. pose proof (Half _ _ _ _ H).
  symmetry in H. pose proof (Half _ _ _ _ H). lia.
Qed.

(** Two finite data of the format with the same value are the same. *)
Lemma valid_value_eq (s1 s2 : bool) (m1 m2 : positive) (e1 e2 : Z) :
  valid (S754_finite s1 m1 e1) = true ->
  valid (S754_finite s2 m2 e2) = true ->
  B2R (S754_finite s1 m1 e1) = B2R (S754_finite s2 m2 e2) ->
  S754_finite s1 m1 e1 = S754_finite s2 m2 e2.
Proof.
  intros V1 V2. rewrite !B2R_finite. intros H.
  pose proof (bpow_pos e1) as P1. pose proof (bpow_pos e2) as P2.
  assert (M1 : 0 < IZR (Z.pos m1)) by (apply IZR_lt; lia).
  assert (M2 : 0 < IZR (Z.pos m2)) by (apply IZR_lt; lia).
  assert (Q1 : 0 < IZR (Z.pos m1) * bpow e1)
    by now apply Rmult_lt_0_compat.
  assert (Q2 : 0 < IZR (Z.pos m2) * bpow e2)
    by now apply Rmult_lt_0_compat.
  assert (Hs : s1 = s2).
  { unfold sgn in H. destruct s1, s2; try reflexivity; exfalso; lra. }
  subst s2.
  assert (Hv : IZR (Z.pos m1) * bpow e1 = IZR (Z.pos m2) * bpow e2).
  { unfold sgn in H. destruct s1; lra. }
  pose proof (value_digits _ _ _ _ Hv) as D.
  apply valid_finite_inv in V1, V2. rewrite D in V1.
  assert (He : e1 = e2) by congruence. subst e2.
  apply Rmult_eq_reg_r in Hv; [|lra].
  apply eq_IZR in Hv. congruence.
Qed.

(** The second shift of [binary_round_aux] does nothing below [2^24]. *)
Lemma second_shift_id (k E : Z) :
  (0 <= k < 2 ^ 24)%Z -> (-149 <= E)%Z ->
  shr_fexp prec emax k E loc_Exact = (shr_record_of_loc k loc_Exact, E).
Proof.
  intros Hk HE. unfold shr_fexp. rewrite fexp_eq.
  assert (Hd : (Zdigits2 k <= 24)%Z).
  { destruct (Z.eq_dec k 0) as [->|Hz]; [simpl; lia|].
    pose proof (Zdigits2_bounds k ltac:(lia)) as [B1 _].
    destruct (Z_le_gt_dec (Zdigits2 k) 24) as [L|G]; [assumption|].
    assert (2 ^ 24 <= 2 ^ (Zdigits2 k - 1))%Z
      by (apply Z.pow_le_mono_r; lia). lia. }
  destruct (Z.max (Zdigits2 k + E - 24) (-149) - E)%Z as [|p|p] eqn:En;
    try lia; reflexivity.
Qed.

(** Rounding a value that the format holds returns it. *)
Lemma binary_round_aux_exact (s : bool) (m e : Z) (l : location) (t : R)
    (mb : positive) (eb : Z) :
  (0 <= m)%Z -> (e <= fexp prec emax (Zdigits2 m + e))%Z ->
  located m l t ->
  t * bpow e = IZR (Z.pos mb) * bpow eb ->
  fexp prec emax (Zdigits2 m + e) = eb ->
  (Z.pos mb < 2 ^ 24)%Z -> (eb <= 104)%Z ->
  binary_round_aux prec emax s m e l = S754_finite s mb eb.
Proof.
  intros Hm He Ht Hv HE Hb Heb.
  destruct (first_shift_inb m e l t Hm He Ht) as (I1 & E1 & B1).
  rewrite HE in I1, E1.
  unfold binary_round_aux.
  destruct (shr_fexp prec emax m e l) as [mrs1 e1].
  cbn [fst snd] in I1, E1, B1. subst e1.
  pose proof (round_nearest_even_inb mrs1 _ I1) as R1.
  set (k := round_nearest_even (shr_m mrs1) (loc_of_shr_record mrs1)) in *.
  assert (Tv : t * bpow (e - eb) = IZR (Z.pos mb)).
  { pose proof (bpow_pos eb) as P.
    apply (Rmult_eq_reg_r (bpow eb)); [|lra].
    rewrite Rmult_assoc, <- bpow_add.
    replace (e - eb + eb)%Z with e by lia. exact Hv. }
  rewrite Tv in R1.
  assert (Hk : k = Z.pos mb).
  { apply Rabs_bound in R1. rewrite <- minus_IZR in R1.
    assert (k - Z.pos mb = 0)%Z; [|lia].
    apply one_IZR_lt1. lra. }
  rewrite Hk.
  assert (HE' : (-149 <= eb)%Z) by (rewrite <- HE, fexp_eq; lia).
  rewrite (second_shift_id (Z.pos mb) eb ltac:(lia) HE').
  cbn [shr_record_of_loc shr_m].
  replace (eb <=? emax - prec)%Z with true; [reflexivity|].
  symmetry. apply Z.leb_le. change (emax - prec)%Z with 104%Z. lia.
Qed.

Lemma valid_bounds (s : bool) (m : positive) (e : Z) :
  valid (S754_finite s m e) = true ->
  (Z.pos m < 2 ^ 24)%Z /\ (e <= 104)%Z.
Proof.
  intros V. pose proof (valid_finite_inv _ _ _ V) as C.
  rewrite fexp_eq in C.
  unfold valid, valid_binary, bounded in V.
  apply andb_true_iff in V. destruct V as [_ V]. apply Z.leb_le in V.
  change (emax - prec)%Z with 104%Z in V. split; [|assumption].
  pose proof (digits2_pos_bounds m) as [_ B].
  assert (2 ^ Z.pos (digits2_pos m) <= 2 ^ 24)%Z
    by (apply Z.pow_le_mono_r; lia).
  lia.
Qed.

Lemma binary_round_exact (s : bool) (p mb : positive) (e eb : Z) :
  valid (S754_finite s mb eb) = true ->
  IZR (Z.pos p) * bpow e = IZR (Z.pos mb) * bpow eb ->
  binary_round prec emax s p e = S754_finite s mb eb.
Proof.
  intros V Hv.
  destruct (valid_bounds _ _ _ V) as [Bm Be].
  pose proof (valid_finite_inv _ _ _ V) as C.
  unfold binary_round.
  pose proof (shl_align_value p e (fexp prec emax (Z.pos (digits2_pos p) + e)))
    as Sv.
  assert (Sd : let '(mz, ez) :=
                 shl_align p e (fexp prec emax (Z.pos (digits2_pos p) + e)) in
               (ez <= fexp prec emax (Z.pos (digits2_pos mz) + ez))%Z).
  { unfold shl_align.
    set (E := fexp prec emax (Z.pos (digits2_pos p) + e)).
    destruct (E - e)%Z as [|d|d] eqn:Ed; try (fold E; lia).
    rewrite digits2_pos_iter_xO.
    replace (Z.pos (digits2_pos p) + Z.pos d + E)%Z
      with (Z.pos (digits2_pos p) + e)%Z by lia.
    fold E. lia. }
  destruct (shl_align p e _) as [mz ez]. cbn [fst snd] in Sv.
  rewrite <- Sv in Hv.
  pose proof (value_digits _ _ _ _ Hv) as D.
  apply (binary_round_aux_exact s (Z.pos mz) ez loc_Exact (IZR (Z.pos mz)));
    cbn [Zdigits2]; try assumption; try lia.
  - reflexivity.
  - now rewrite D.
Qed.

(** A sum of two data whose exact value is a datum is that datum, or a
    zero where the datum is a zero. *)
Lemma add_exact (a d b : float) :
  valid a = true -> valid d = true -> valid b = true ->
  is_finite a = true -> is_finite d = true -> is_finite b = true ->
  B2R a + B2R d = B2R b ->
  add a d = b \/ (is_zero (add a d) = true /\ is_zero b = true).
Proof.
  intros Va Vd Vb Fa Fd Fb H.
  assert (NZ : forall s m e, B2R (S754_finite s m e) <> 0).
  { intros s m e. rewrite B2R_finite.
    pose proof (bpow_pos e).
    assert (0 < IZR (Z.pos m)) by (apply IZR_lt; lia).
    assert (0 < IZR (Z.pos m) * bpow e) by now apply Rmult_lt_0_compat.
    unfold sgn. destruct s; lra. }
  destruct a as [sa|sa| |sa ma ea]; try discriminate;
    destruct d as [sd|sd| |sd md ed]; try discriminate.
  - right. destruct b as [sb|sb| |sb mb eb]; try discriminate.
    + split; [now destruct sa, sd|reflexivity].
    + exfalso. apply (NZ sb mb eb). simpl (B2R (S754_zero _)) in H. lra.
  - change (add (S754_zero sa) (S754_finite sd md ed))
      with (S754_finite sd md ed).
    simpl (B2R (S754_zero sa)) in H. rewrite Rplus_0_l in H.
    destruct b as [sb|sb| |sb mb eb]; try discriminate.
    + exfalso. apply (NZ sd md ed). exact H.
    + left. now apply valid_value_eq.
  - change (add (S754_finite sa ma ea) (S754_zero sd))
      with (S754_finite sa ma ea).
    simpl (B2R (S754_zero sd)) in H. rewrite Rplus_0_r in H.
    destruct b as [sb|sb| |sb mb eb]; try discriminate.
    + exfalso. apply (NZ sa ma ea). exact H.
    + left. now apply valid_value_eq.
  - unfold add, SFadd.
    set (ez := Z.min ea ed).
    pose proof (shl_align_value ma ea ez) as Wa.
    pose proof (shl_align_value md ed ez) as Wd.
    rewrite shl_align_snd in Wa by lia.
    rewrite shl_align_snd in Wd by lia.
    set (pa := fst (shl_align ma ea ez)) in *.
    set (pd := fst (shl_align md ed ez)) in *.
    set (n := (cond_Zopp sa (Z.pos pa) + cond_Zopp sd (Z.pos pd))%Z).
    assert (Hn : IZR n * bpow ez = B2R b).
    { rewrite <- H, !B2R_finite. unfold n.
      rewrite plus_IZR, !IZR_cond_Zopp, <- Wa, <- Wd. ring. }
    pose proof (bpow_pos ez) as Pz.
    destruct b as [sb|sb| |sb mb eb]; try discriminate.
    + right. simpl (B2R (S754_zero sb)) in Hn.
      assert (n = 0)%Z.
      { apply eq_IZR. apply (Rmult_eq_reg_r (bpow ez)); lra. }
      rewrite H0. split; reflexivity.
    + left. rewrite B2R_finite in Hn.
      pose proof (bpow_pos eb) as Pb.
      assert (Mb : 0 < IZR (Z.pos mb)) by (apply IZR_lt; lia).
      assert (Qb : 0 < IZR (Z.pos mb) * bpow eb)
        by now apply Rmult_lt_0_compat.
      destruct n as [|p|p]; cbn [binary_normalize].
      * exfalso. rewrite Rmult_0_l in Hn. unfold sgn in Hn.
        destruct sb; lra.
      * assert (Pp : 0 < IZR (Z.pos p) * bpow ez).
        { apply Rmult_lt_0_compat; [apply IZR_lt; lia|assumption]. }
        assert (sb = false).
        { unfold sgn in Hn. destruct sb; [exfalso; lra|reflexivity]. }
        subst sb. apply binary_round_exact; [assumption|].
        unfold sgn in Hn. lra.
      * assert (Pp : 0 < IZR (Z.pos p) * bpow ez).
        { apply Rmult_lt_0_compat; [apply IZR_lt; lia|assumption]. }
        change (Z.neg p) with (- Z.pos p)%Z in Hn. rewrite opp_IZR in Hn.
        assert (sb = true).
        { unfold sgn in Hn. destruct sb; [reflexivity|exfalso; lra]. }
        subst sb. apply binary_round_exact; [assumption|].
        unfold sgn in Hn. lra.
Qed.

(** ** Interpolation (claim C7) *)

Lemma mul_finite_inv (a b : float) :
  is_finite (mul a b) = true -> is_finite a = true /\ is_finite b = true.
Proof.
  destruct a as [sa|sa| |sa ma ea], b as [sb|sb| |sb mb eb];
    try discriminate; auto.
Qed.

Lemma Rabs_interval (a : R) : - Rabs a <= a <= Rabs a.
Proof. unfold Rabs. destruct (Rcase_abs a); lra. Qed.

(** One field of an interpolation, with [X] for [B - A]: a rounded
    difference, a rounded product by [T], a rounded sum. *)
Lemma lerp_bounds (A X T d p r : R) :
  Rabs T <= 1 ->
  Rabs (d - X) <= u * Rabs X + eta ->
  Rabs (p - d * T) <= u * Rabs (d * T) + eta ->
  Rabs (r - (A + p)) <= u * Rabs (A + p) + eta ->
  Rabs (r - (A + X * T))
  <= bpow (-22) * (Rabs A + Rabs (X * T)) + bpow (-147).
Proof.
  intros HT E1 E2 E3.
  pose proof u_pos as Hu. pose proof eta_pos as He.
  assert (H1 : Rabs (d * T - X * T) <= u * Rabs (X * T) + eta).
  { replace (d * T - X * T) with ((d - X) * T) by ring.
    rewrite Rabs_mult, (Rabs_mult X T).
    pose proof (Rabs_pos T) as PT. pose proof (Rabs_pos X) as PX.
    apply Rle_trans with ((u * Rabs X + eta) * Rabs T).
    - apply Rmult_le_compat_r; assumption.
    - replace ((u * Rabs X + eta) * Rabs T)
        with (u * (Rabs X * Rabs T) + eta * Rabs T) by ring.
      assert (eta * Rabs T <= eta * 1)
        by (apply Rmult_le_compat_l; lra).
      lra. }
  pose proof (Rabs_interval (X * T)) as BX.
  pose proof (Rabs_interval A) as BA.
  pose proof (Rabs_pos (X * T)) as PW. pose proof (Rabs_pos A) as PA.
  set (W := Rabs (X * T)) in *. set (tA := Rabs A) in *.
  set (XT := X * T) in *. set (dT := d * T) in *.
  clearbody W tA XT dT.
  apply Rabs_bound in H1.
  rewrite bpow_m22, bpow_m147. numeric.
  assert (A1 : Rabs dT
               <= (1 + / 16777216) * W
                  + / 1427247692705959881058285969449495136382746624)
    by (apply Rabs_le; lra).
  apply Rabs_bound in E2.
  assert (A2 : Rabs (A + p)
               <= tA + (1 + / 16777216) * (1 + / 16777216) * W
                  + 3 * / 1427247692705959881058285969449495136382746624)
    by (apply Rabs_le; lra).
  apply Rabs_bound in E3.
  apply Rabs_le. split; lra.
Qed.

(** One field of [Lerp] or [LerpUnClamped], when finite, for a factor of
    absolute value 1 at most. *)
Lemma lerp_field_error (a b t : float) :
  Rabs (B2R t) <= 1 ->
  is_finite (add a (mul (sub b a) t)) = true ->
  Rabs (B2R (add a (mul (sub b a) t))
        - (B2R a + (B2R b - B2R a) * B2R t))
  <= bpow (-22) * (Rabs (B2R a) + Rabs ((B2R b - B2R a) * B2R t))
     + bpow (-147).
Proof.
  intros HT F.
  destruct (add_finite_inv _ _ F) as [Fa Fp].
  destruct (mul_finite_inv _ _ Fp) as [Fd Ft].
  destruct (sub_finite_inv _ _ Fd) as [Fb _].
  apply (lerp_bounds _ _ _ (B2R (sub b a)) (B2R (mul (sub b a) t))).
  - assumption.
  - now apply sub_error.
  - now apply mul_error.
  - now apply add_error_signed.
Qed.

Lemma one_value : B2R one = 1.
Proof.
  rewrite lit_one, B2R_finite. unfold sgn.
  rewrite (bpow_neg_IZR 23 ltac:(lia) : bpow (-23) = / IZR (2 ^ 23)).
  change (2 ^ 23)%Z with 8388608%Z. field.
Qed.

(** The clamped factor of [Lerp], for a factor that is a datum of
    binary32 and not a NaN. *)
Lemma Clamp01_value (t : float) :
  valid t = true -> isnan t = false ->
  is_finite (Mathf.Clamp01 t) = true
  /\ 0 <= B2R (Mathf.Clamp01 t) <= 1.
Proof.
  intros V N. unfold Mathf.Clamp01.
  destruct (ltb t pzero) eqn:E0; [split; [reflexivity|simpl; lra]|].
  destruct (gtb t one) eqn:E1.
  { split; [reflexivity|]. rewrite one_value. lra. }
  destruct t as [s|[|]| |[|] m e]; try discriminate.
  - split; [reflexivity|]. simpl. lra.
  - split; [reflexivity|].
    assert (V1 : valid one = true) by reflexivity.
    destruct (ltb_nonneg_value one (S754_finite false m e) V1 V
                eq_refl eq_refl eq_refl eq_refl) as [_ G].
    specialize (G E1). rewrite one_value in G.
    split; [|assumption].
    rewrite B2R_finite. unfold sgn. pose proof (bpow_pos e).
    assert (0 < IZR (Z.pos m)) by (apply IZR_lt; lia).
    assert (0 < IZR (Z.pos m) * bpow e) by now apply Rmult_lt_0_compat.
    lra.
Qed.

Lemma lerp_formula (a b : Vector3) (t : float) :
  LerpUnClamped a b t
  = Vector3_xyz (add a.(x) (mul (sub b.(x) a.(x)) t))
                (add a.(y) (mul (sub b.(y) a.(y)) t))
                (add a.(z) (mul (sub b.(z) a.(z)) t)).
Proof. reflexivity. Qed.

(** Every finite field of [LerpUnClamped(a, b, t)], for [|t| <= 1],
    against the exact [a + (b - a) * t]. *)
Lemma LerpUnClamped_accuracy (a b r : Vector3) (t : float) :
  Rabs (B2R t) <= 1 ->
  LerpUnClamped a b t = Some r -> finiteV r = true ->
  Rabs (B2R r.(x) - (B2R a.(x) + (B2R b.(x) - B2R a.(x)) * B2R t))
  <= bpow (-22) * (Rabs (B2R a.(x))
                   + Rabs ((B2R b.(x) - B2R a.(x)) * B2R t)) + bpow (-147)
  /\ Rabs (B2R r.(y) - (B2R a.(y) + (B2R b.(y) - B2R a.(y)) * B2R t))
     <= bpow (-22) * (Rabs (B2R a.(y))
                      + Rabs ((B2R b.(y) - B2R a.(y)) * B2R t)) + bpow (-147)
  /\ Rabs (B2R r.(z) - (B2R a.(z) + (B2R b.(z) - B2R a.(z)) * B2R t))
     <= bpow (-22) * (Rabs (B2R a.(z))
                      + Rabs ((B2R b.(z) - B2R a.(z)) * B2R t)) + bpow (-147).
Proof.
  intros HT H Fr. rewrite lerp_formula in H.
  apply Vector3_xyz_inv in H. subst r.
  destruct (Invariant.finiteV_fields _ Fr) as (Rx & Ry & Rz).
  cbn [x y z] in *.
  split; [|split]; now apply lerp_field_error.
Qed.

(** [Lerp(a, b, 1)] when every difference [b - a] is exact. *)
Lemma Lerp_1_exact (a b : Vector3) :
  validV a = true -> validV b = true ->
  finiteV a = true -> finiteV b = true ->
  exact_difference b.(x) a.(x) ->
  exact_difference b.(y) a.(y) ->
  exact_difference b.(z) a.(z) ->
  exists r, Lerp a b one = Some r
            /\ eqV r b = true /\ op_eq r b = Some true.
Proof.
  intros Va Vb Fa Fb [Dx Ex] [Dy Ey] [Dz Ez].
  destruct (Interpolation.validV_fields a Va) as (Vax & Vay & Vaz).
  destruct (Interpolation.validV_fields b Vb) as (Vbx & Vby & Vbz).
  destruct (Invariant.finiteV_fields a Fa) as (Fax & Fay & Faz).
  destruct (Invariant.finiteV_fields b Fb) as (Fbx & Fby & Fbz).
  rewrite (Interpolation.Lerp_1 a b Va Vb).
  assert (Sx := add_exact a.(x) (sub b.(x) a.(x)) b.(x) Vax
                  (sub_valid _ _ Vbx Vax) Vbx Fax Dx Fbx ltac:(lra)).
  assert (Sy := add_exact a.(y) (sub b.(y) a.(y)) b.(y) Vay
                  (sub_valid _ _ Vby Vay) Vby Fay Dy Fby ltac:(lra)).
  assert (Sz := add_exact a.(z) (sub b.(z) a.(z)) b.(z) Vaz
                  (sub_valid _ _ Vbz Vaz) Vbz Faz Dz Fbz ltac:(lra)).
  destruct (Interpolation.same_or_zeros_sub _ _ Fbx Sx) as (Zx & Qx & Nx).
  destruct (Interpolation.same_or_zeros_sub _ _ Fby Sy) as (Zy & Qy & Ny).
  destruct (Interpolation.same_or_zeros_sub _ _ Fbz Sz) as (Zz & Qz & Nz).
  unfold Vector3_xyz, bind, Assert, hasNaNs. cbn [x y z].
  rewrite Nx, Ny, Nz. cbn [orb negb].
  eexists. split; [reflexivity|]. split.
  - unfold eqV. cbn [x y z]. now rewrite Qx, Qy, Qz.
  - apply Products.op_eq_zero_difference; cbn [x y z]; auto.
    now apply Invariant.finiteV_not_nan.
Qed.

(** ** No overflow on small values *)

Lemma bpow_lt_inv (a b : Z) : bpow a < bpow b -> (a < b)%Z.
Proof.
  intros H. destruct (Z_lt_le_dec a b) as [L|G]; [assumption|].
  pose proof (bpow_le b a G). lra.
Qed.

(** A value below [2^k] has its first digit below the place [k]. *)
Lemma digits_below (m : positive) (e k : Z) :
  IZR (Z.pos m) * bpow e < bpow k ->
  (Z.pos (digits2_pos m) + e <= k)%Z.
Proof.
  intros H.
  pose proof (IZR_ge_bpow (Z.pos m) ltac:(lia)) as L. cbn [Zdigits2] in L.
  pose proof (bpow_pos e) as Pe.
  assert (bpow (Z.pos (digits2_pos m) - 1 + e) <= IZR (Z.pos m) * bpow e).
  { rewrite bpow_add. apply Rmult_le_compat_r; lra. }
  assert (bpow (Z.pos (digits2_pos m) - 1 + e) < bpow k) by lra.
  apply bpow_lt_inv in H1. lia.
Qed.

Lemma binary_round_no_overflow (s : bool) (m : positive) (e : Z) :
  (Z.pos (digits2_pos m) + e <= 127)%Z ->
  is_finite (binary_round prec emax s m e) = true.
Proof.
  intros H. unfold binary_round, shl_align.
  set (E := fexp prec emax (Z.pos (digits2_pos m) + e)).
  assert (HE : E = Z.max (Z.pos (digits2_pos m) + e - 24) (-149))
    by reflexivity.
  pose proof (Pos2Z.is_pos (digits2_pos m)).
  destruct (E - e)%Z as [|d|d] eqn:Ed;
    apply binary_round_aux_no_overflow; cbn [Zdigits2]; try lia.
  rewrite digits2_pos_iter_xO. lia.
Qed.

Lemma B2R_abs_finite (s : bool) (m : positive) (e : Z) :
  Rabs (B2R (S754_finite s m e)) = IZR (Z.pos m) * bpow e.
Proof.
  rewrite B2R_finite, Rabs_sgn_mul. apply Rabs_pos_eq.
  pose proof (bpow_pos e).
  assert (0 < IZR (Z.pos m)) by (apply IZR_lt; lia).
  apply Rmult_le_pos; lra.
Qed.

Lemma binary_normalize_no_overflow (n e k : Z) :
  Rabs (IZR n) * bpow e < bpow k -> (k <= 127)%Z ->
  is_finite (binary_normalize prec emax n e false) = true.
Proof.
  intros H Hk. destruct n as [|p|p]; cbn [binary_normalize].
  - reflexivity.
  - apply binary_round_no_overflow.
    rewrite Rabs_pos_eq in H by (apply IZR_le; lia).
    apply digits_below in H. lia.
  - apply binary_round_no_overflow.
    change (Z.neg p) with (- Z.pos p)%Z in H.
    rewrite opp_IZR, Rabs_Ropp, Rabs_pos_eq in H by (apply IZR_le; lia).
    apply digits_below in H. lia.
Qed.

(** A sum of two finite floats below [2^k] in absolute value, [k <= 126],
    is finite. *)
Lemma add_no_overflow (a b : float) (k : Z) :
  is_finite a = true -> is_finite b = true ->
  Rabs (B2R a) < bpow k -> Rabs (B2R b) < bpow k -> (k <= 126)%Z ->
  is_finite (add a b) = true.
Proof.
  destruct a as [sa|sa| |sa ma ea], b as [sb|sb| |sb mb eb];
    try discriminate; intros _ _ Ha Hb Hk; try reflexivity.
  - now destruct sa, sb.
  - unfold add, SFadd.
    set (ez := Z.min ea eb).
    pose proof (shl_align_value ma ea ez) as Va.
    pose proof (shl_align_value mb eb ez) as Vb.
    rewrite shl_align_snd in Va by lia.
    rewrite shl_align_snd in Vb by lia.
    set (pa := fst (shl_align ma ea ez)) in *.
    set (pb := fst (shl_align mb eb ez)) in *.
    rewrite B2R_abs_finite, <- Va in Ha.
    rewrite B2R_abs_finite, <- Vb in Hb.
    apply (binary_normalize_no_overflow _ _ (k + 1)); [|lia].
    rewrite bpow_succ.
    pose proof (bpow_pos ez) as Pz.
    assert (N : Rabs (IZR (cond_Zopp sa (Z.pos pa) + cond_Zopp sb (Z.pos pb)))
                <= IZR (Z.pos pa) + IZR (Z.pos pb)).
    { rewrite plus_IZR, !IZR_cond_Zopp.
      eapply Rle_trans; [apply Rabs_triang|].
      rewrite !Rabs_sgn_mul.
      rewrite !Rabs_pos_eq by (apply IZR_le; lia). lra. }
    apply Rle_lt_trans
      with ((IZR (Z.pos pa) + IZR (Z.pos pb)) * bpow ez).
    + apply Rmult_le_compat_r; lra.
    + lra.
Qed.

Lemma neg_value (a : float) : B2R (neg a) = - B2R a.
Proof.
  destruct a as [s|s| |s m e]; try (simpl; lra).
  change (neg (S754_finite s m e)) with (S754_finite (negb s) m e).
  rewrite !B2R_finite. unfold sgn. destruct s; simpl; lra.
Qed.

Lemma sub_no_overflow (a b : float) (k : Z) :
  is_finite a = true -> is_finite b = true ->
  Rabs (B2R a) < bpow k -> Rabs (B2R b) < bpow k -> (k <= 126)%Z ->
  is_finite (sub a b) = true.
Proof.
  intros Fa Fb Ha Hb Hk. rewrite Float32Algebra.sub_add_neg.
  apply (add_no_overflow _ _ k); try assumption.
  - now destruct b.
  - now rewrite neg_value, Rabs_Ropp.
Qed.

(** A product of two finite floats below [2^k] and [2^j] in absolute
    value, [k + j <= 106], is finite. *)
Lemma mul_no_overflow (a b : float) (k j : Z) :
  is_finite a = true -> is_finite b = true ->
  Rabs (B2R a) < bpow k -> Rabs (B2R b) < bpow j -> (k + j <= 106)%Z ->
  is_finite (mul a b) = true.
Proof.
  destruct a as [sa|sa| |sa ma ea], b as [sb|sb| |sb mb eb];
    try discriminate; intros _ _ Ha Hb Hk; try reflexivity.
  rewrite B2R_abs_finite in Ha, Hb.
  pose proof (digits_below _ _ _ Ha) as Da.
  pose proof (digits_below _ _ _ Hb) as Db.
  pose proof (Pos2Z.is_pos (digits2_pos ma)).
  pose proof (Pos2Z.is_pos (digits2_pos mb)).
  unfold mul, SFmul.
  apply binary_round_aux_no_overflow; [lia| |lia].
  cbn [Zdigits2].
  assert (P : IZR (Z.pos (ma * mb)) * bpow (ea + eb) < bpow (k + j)).
  { rewrite Pos2Z.inj_mul, mult_IZR, !bpow_add.
    pose proof (bpow_pos ea). pose proof (bpow_pos eb).
    assert (0 < IZR (Z.pos ma)) by (apply IZR_lt; lia).
    assert (0 < IZR (Z.pos mb)) by (apply IZR_lt; lia).
    replace (IZR (Z.pos ma) * IZR (Z.pos mb) * (bpow ea * bpow eb))
      with (IZR (Z.pos ma) * bpow ea * (IZR (Z.pos mb) * bpow eb)) by ring.
    apply Rmult_le_0_lt_compat; try assumption;
      apply Rmult_le_pos; lra. }
  apply digits_below in P. lia.
Qed.

Lemma Rabs_bound_lt (a b : R) : Rabs a < b -> - b < a < b.
Proof. unfold Rabs. destruct (Rcase_abs a); lra. Qed.

Lemma bpow_4 : bpow 4 = 16.
Proof. exact (bpow_IZR 4 ltac:(lia)). Qed.

Lemma bpow_5 : bpow 5 = 32.
Proof. exact (bpow_IZR 5 ltac:(lia)). Qed.

Lemma bpow_6 : bpow 6 = 64.
Proof. exact (bpow_IZR 6 ltac:(lia)). Qed.

Lemma bpow_m18 : bpow (-18) = / 262144.
Proof. exact (bpow_neg_IZR 18 ltac:(lia)). Qed.

(** The squared magnitude of a finite vector whose fields are below
    [2^50] in absolute value does not overflow. *)
Lemma sqrMagnitude_no_overflow (v : Vector3) :
  finiteV v = true -> boundedV (bpow 50) v ->
  is_finite (sqrMagnitude v) = true.
Proof.
  intros Hf (Bx & By & Bz).
  destruct (Invariant.finiteV_fields v Hf) as (Fx & Fy & Fz).
  unfold sqrMagnitude.
  assert (Sq : forall f, is_finite f = true -> Rabs (B2R f) < bpow 50 ->
                 is_finite (mul f f) = true
                 /\ Rabs (B2R (mul f f)) < bpow 101).
  { intros f Ff Bf.
    pose proof (mul_no_overflow f f 50 50 Ff Ff Bf Bf ltac:(lia)) as Fm.
    split; [assumption|].
    pose proof (square_error f Ff Fm) as E. apply Rabs_bound in E.
    pose proof (B2R_mul_self_nonneg f) as N.
    rewrite (Rabs_pos_eq _ N).
    assert (Q : B2R f * B2R f < bpow 50 * bpow 50).
    { rewrite <- (Rabs_sqr (B2R f)).
      pose proof (Rabs_pos (B2R f)).
      apply Rmult_le_0_lt_compat; assumption. }
    rewrite <- bpow_add in Q. change (50 + 50)%Z with 100%Z in Q.
    replace 101%Z with (100 + 1)%Z by lia. rewrite bpow_succ.
    pose proof (bpow_le 0 100 ltac:(lia)) as P. rewrite bpow_0 in P.
    set (p := bpow 100) in *. clearbody p.
    set (w := B2R f * B2R f) in *. clearbody w.
    numeric. lra. }
  destruct (Sq _ Fx Bx) as [Mx Vx].
  destruct (Sq _ Fy By) as [My Vy].
  destruct (Sq _ Fz Bz) as [Mz Vz].
  pose proof (add_no_overflow _ _ 101 Mx My Vx Vy ltac:(lia)) as F1.
  apply (add_no_overflow _ _ 103); try assumption; try lia.
  - pose proof (add_error_signed _ _ Mx My F1) as E.
    apply Rabs_bound in E.
    apply Rabs_bound_lt in Vx. apply Rabs_bound_lt in Vy.
    assert (A : Rabs (B2R (mul (x v) (x v)) + B2R (mul (y v) (y v)))
                < 2 * bpow 101) by (apply Rabs_def1; lra).
    replace 103%Z with (101 + 1 + 1)%Z by lia. rewrite !bpow_succ.
    pose proof (bpow_le 0 101 ltac:(lia)) as P. rewrite bpow_0 in P.
    set (p := bpow 101) in *. clearbody p.
    set (w := Rabs (B2R (mul (x v) (x v)) + B2R (mul (y v) (y v)))) in *.
    clearbody w. numeric. apply Rabs_def1; lra.
  - apply Rlt_trans with (bpow 101); [assumption|]. apply bpow_lt. lia.
Qed.

(** One field of [Lerp(a, b, 1)] for two data below 16 in absolute
    value. *)
Lemma lerp1_field_small (a b : float) :
  valid a = true -> valid b = true ->
  is_finite a = true -> is_finite b = true ->
  Rabs (B2R a) < 16 -> Rabs (B2R b) < 16 ->
  is_finite (add a (sub b a)) = true
  /\ valid (add a (sub b a)) = true
  /\ Rabs (B2R (add a (sub b a)) - B2R b) <= bpow (-18).
Proof.
  intros Va Vb Fa Fb Ba Bb.
  assert (Fd : is_finite (sub b a) = true)
    by (apply (sub_no_overflow _ _ 4); rewrite ?bpow_4; auto; lia).
  pose proof (sub_error _ _ Fb Fa Fd) as E1.
  apply Rabs_bound_lt in Ba. apply Rabs_bound_lt in Bb.
  assert (X : Rabs (B2R b - B2R a) < 32) by (apply Rabs_def1; lra).
  assert (D : Rabs (B2R (sub b a)) < 64).
  { apply Rabs_bound in E1.
    set (w := Rabs (B2R b - B2R a)) in *. clearbody w.
    pose proof (Rabs_interval (B2R b - B2R a)) as I.
    numeric. apply Rabs_def1; lra. }
  assert (Fr : is_finite (add a (sub b a)) = true).
  { apply (add_no_overflow _ _ 6); rewrite ?bpow_6; auto; try lia.
    apply Rabs_def1; lra. }
  split; [assumption|]. split; [auto using add_valid, sub_valid|].
  pose proof (add_error_signed _ _ Fa Fd Fr) as E3.
  apply Rabs_bound in E1.
  pose proof (Rabs_pos (B2R b - B2R a)) as P.
  set (w := Rabs (B2R b - B2R a)) in *. clearbody w.
  rewrite bpow_m18. numeric.
  assert (A : Rabs (B2R a + B2R (sub b a))
              <= 16 + 32 * / 16777216
                 + / 1427247692705959881058285969449495136382746624)
    by (apply Rabs_le; lra).
  apply Rabs_bound in E3.
  apply Rabs_le. split; lra.
Qed.

(** [Lerp(a, b, 1) == b] for finite vectors of binary32 data whose fields
    are below 16 in absolute value. *)
Lemma Lerp_1_small (a b : Vector3) :
  validV a = true -> validV b = true ->
  finiteV a = true -> finiteV b = true ->
  boundedV 16 a -> boundedV 16 b ->
  exists r, Lerp a b one = Some r
            /\ finiteV r = true /\ op_eq r b = Some true.
Proof.
  intros Va Vb Fa Fb (Bax & Bay & Baz) (Bbx & Bby & Bbz).
  destruct (Interpolation.validV_fields a Va) as (Vax & Vay & Vaz).
  destruct (Interpolation.validV_fields b Vb) as (Vbx & Vby & Vbz).
  destruct (Invariant.finiteV_fields a Fa) as (Fax & Fay & Faz).
  destruct (Invariant.finiteV_fields b Fb) as (Fbx & Fby & Fbz).
  destruct (lerp1_field_small _ _ Vax Vbx Fax Fbx Bax Bbx)
    as (Frx & Vrx & Ex).
  destruct (lerp1_field_small _ _ Vay Vby Fay Fby Bay Bby)
    as (Fry & Vry & Ey).
  destruct (lerp1_field_small _ _ Vaz Vbz Faz Fbz Baz Bbz)
    as (Frz & Vrz & Ez).
  rewrite (Interpolation.Lerp_1 a b Va Vb).
  rewrite Normalization.Vector3_xyz_finite by assumption.
  set (r := mk (add a.(x) (sub b.(x) a.(x))) (add a.(y) (sub b.(y) a.(y)))
               (add a.(z) (sub b.(z) a.(z)))) in *.
  assert (Fr : finiteV r = true).
  { unfold finiteV, r. cbn [x y z]. now rewrite Frx, Fry, Frz. }
  exists r. split; [reflexivity|]. split; [assumption|].
  unfold op_eq. rewrite (Equality.op_sub_finite r b Fr Fb). cbn [bind].
  set (d := mk (sub r.(x) b.(x)) (sub r.(y) b.(y)) (sub r.(z) b.(z))).
  change (SqrMagnitude d) with (sqrMagnitude d).
  assert (Sub : forall f g, is_finite f = true -> is_finite g = true ->
                  Rabs (B2R g) < 16 -> Rabs (B2R f - B2R g) <= bpow (-18) ->
                  is_finite (sub f g) = true
                  /\ Rabs (B2R (sub f g)) < bpow 50).
  { intros f g Ff Fg Bg E. rewrite bpow_m18 in E.
    apply Rabs_bound_lt in Bg. apply Rabs_bound in E.
    assert (Fs : is_finite (sub f g) = true).
    { apply (sub_no_overflow _ _ 5); rewrite ?bpow_5; auto; try lia;
        apply Rabs_def1; lra. }
    split; [assumption|].
    pose proof (sub_error _ _ Ff Fg Fs) as S. apply Rabs_bound in S.
    assert (W : Rabs (B2R f - B2R g) <= / 262144) by (apply Rabs_le; lra).
    pose proof (bpow_le 0 50 ltac:(lia)) as P. rewrite bpow_0 in P.
    set (w := Rabs (B2R f - B2R g)) in *. clearbody w.
    numeric. apply Rabs_def1; lra. }
  destruct (Sub _ _ Frx Fbx Bbx Ex) as [Fdx Bdx].
  destruct (Sub _ _ Fry Fby Bby Ey) as [Fdy Bdy].
  destruct (Sub _ _ Frz Fbz Bbz Ez) as [Fdz Bdz].
  assert (Fd : finiteV d = true).
  { unfold finiteV, d, r. cbn [x y z]. now rewrite Fdx, Fdy, Fdz. }
  assert (Fq : is_finite (sqrMagnitude d) = true).
  { apply sqrMagnitude_no_overflow; [assumption|].
    unfold boundedV, d, r. cbn [x y z]. auto. }
  assert (Vd : validV d = true).
  { unfold validV, d, r. cbn [x y z]. now rewrite !sub_valid. }
  pose proof (sqrMagnitude_valid d Vd) as Vq.
  pose proof (Normalization.sum_squares_sign d.(x) d.(y) d.(z)) as Sq.
  change (signbit (sqrMagnitude d) = false) in Sq.
  destruct (difference_sqrMagnitude r b Fr Fb Fq) as (_ & _ & E).
  fold d in E. apply Rabs_bound in E.
  assert (Sqr : forall t : R, Rabs t <= bpow (-18) ->
                  t * t <= / 262144 * / 262144).
  { intros t H. rewrite bpow_m18 in H. rewrite <- (Rabs_sqr t).
    pose proof (Rabs_pos t). apply Rmult_le_compat; assumption. }
  pose proof (Sqr _ Ex) as Qx. pose proof (Sqr _ Ey) as Qy.
  pose proof (Sqr _ Ez) as Qz.
  assert (D : sqrDistance r b <= 3 * (/ 262144 * / 262144)).
  { unfold sqrDistance, r. cbn [x y z]. lra. }
  pose proof (sqrDistance_nonneg r b) as D0.
  destruct (ltb (sqrMagnitude d) kEqualityEpsilon) eqn:L; [reflexivity|].
  pose proof (ge_epsilon_value _ Vq Sq Fq L) as G.
  rewrite kEqualityEpsilon_value in G.
  rewrite bpow_m21, bpow_m146 in E.
  set (S := sqrDistance r b) in *. clearbody S.
  exfalso. lra.
Qed.

(** Claim C7, as amended.  [Lerp(a, b, t)] is [LerpUnClamped(a, b, t')]
    where [t'] is [t] clamped to [[0, 1]]: 0 for [t < 0], 1 for [t > 1], [t]
    otherwise; [LerpUnClamped] uses [t] as given (at [t = 2] it returns
    [(2, 0, 0)] between [(0, 0, 0)] and [(1, 0, 0)], and [Lerp] returns
    [(1, 0, 0)]).  Both build the vector of the three [a + (b - a) * t],
    each computed in binary32 as a difference, a product and a sum, through
    the asserting constructor; halfway between [(0, 0, 0)] and [(2, 4, 6)]
    that is [(1, 2, 3)].  For a factor between 0 and 1, every field of a
    finite result is the exact [a + (b - a) * t] to within [2^-22] of
    [|a| + |(b - a) * t|], and [2^-147].

    [Lerp(a, b, 0) == a] holds whenever every field of [b - a] is finite.
    [Lerp(a, b, 1)] is [a + (b - a)] computed in binary32, field by field;
    it is [b], and [== b] holds, whenever every difference [b - a] is
    computed without rounding, and [== b] holds whenever the fields of
    [a] and [b] are below 16 in absolute value. *)
Theorem Lerp_clamps (a b : Vector3) (t : float) :
  Lerp a b t = LerpUnClamped a b (Mathf.Clamp01 t)
  /\ (ltb t pzero = true -> Lerp a b t = LerpUnClamped a b pzero)
  /\ (gtb t one = true -> Lerp a b t = LerpUnClamped a b one)
  /\ (ltb t pzero = false -> gtb t one = false ->
      Lerp a b t = LerpUnClamped a b t)
  /\ (isnan t = false ->
      leb pzero (Mathf.Clamp01 t) = true /\ leb (Mathf.Clamp01 t) one = true)
  /\ (LerpUnClamped zero (ofZ3 1 0 0) (of_Z 2) = Some (ofZ3 2 0 0)
      /\ Lerp zero (ofZ3 1 0 0) (of_Z 2) = Some (ofZ3 1 0 0))
  /\ (is_finite (sub b.(x) a.(x)) = true ->
      is_finite (sub b.(y) a.(y)) = true ->
      is_finite (sub b.(z) a.(z)) = true ->
      exists r, Lerp a b pzero = Some r
                /\ eqV r a = true /\ op_eq r a = Some true)
  /\ (validV a = true -> validV b = true ->
      Lerp a b one
      = Vector3_xyz (add a.(x) (sub b.(x) a.(x)))
                    (add a.(y) (sub b.(y) a.(y)))
                    (add a.(z) (sub b.(z) a.(z))))
  /\ LerpUnClamped a b t
     = Vector3_xyz (add a.(x) (mul (sub b.(x) a.(x)) t))
                   (add a.(y) (mul (sub b.(y) a.(y)) t))
                   (add a.(z) (mul (sub b.(z) a.(z)) t))
  /\ (ltb t pzero = false -> gtb t one = false ->
      Lerp a b t
      = Vector3_xyz (add a.(x) (mul (sub b.(x) a.(x)) t))
                    (add a.(y) (mul (sub b.(y) a.(y)) t))
                    (add a.(z) (mul (sub b.(z) a.(z)) t)))
  /\ (Lerp zero (ofZ3 2 4 6) (dec 5 1) = Some (ofZ3 1 2 3)
      /\ LerpUnClamped zero (ofZ3 2 4 6) (dec 5 1) = Some (ofZ3 1 2 3))
  /\ (valid t = true -> isnan t = false ->
      forall r, Lerp a b t = Some r -> finiteV r = true ->
      0 <= B2R (Mathf.Clamp01 t) <= 1
      /\ interpolates a b r (B2R (Mathf.Clamp01 t)))
  /\ (Rabs (B2R t) <= 1 ->
      forall r, LerpUnClamped a b t = Some r -> finiteV r = true ->
      interpolates a b r (B2R t))
  /\ (validV a = true -> validV b = true ->
      finiteV a = true -> finiteV b = true ->
      exact_difference b.(x) a.(x) ->
      exact_difference b.(y) a.(y) ->
      exact_difference b.(z) a.(z) ->
      exists r, Lerp a b one = Some r
                /\ eqV r b = true /\ op_eq r b = Some true)
  /\ (validV a = true -> validV b = true ->
      finiteV a = true -> finiteV b = true ->
      boundedV 16 a -> boundedV 16 b ->
      exists r, Lerp a b one = Some r
                /\ finiteV r = true /\ op_eq r b = Some true).
Proof.
  split; [reflexivity|].
  split; [intros H;
          now rewrite Interpolation.Lerp_LerpUnClamped,
            Interpolation.Clamp01_below|].
  split; [intros H;
          now rewrite Interpolation.Lerp_LerpUnClamped,
            Interpolation.Clamp01_above|].
  split; [intros H0 H1;
          now rewrite Interpolation.Lerp_LerpUnClamped,
            Interpolation.Clamp01_inside|].
  split; [apply Interpolation.Clamp01_range|].
  split; [split; reflexivity|].
  split; [apply Interpolation.Lerp_0|].
  split; [apply Interpolation.Lerp_1|].
  split; [reflexivity|].
  split; [intros H0 H1;
          now rewrite Interpolation.Lerp_LerpUnClamped,
            Interpolation.Clamp01_inside|].
  split; [split; reflexivity|].
  split.
  { intros V N r Hr Fr. destruct (Clamp01_value t V N) as [_ I].
    split; [assumption|].
    rewrite Interpolation.Lerp_LerpUnClamped in Hr.
    apply (LerpUnClamped_accuracy a b r (Mathf.Clamp01 t));
      [apply Rabs_le; lra|assumption|assumption]. }
  split; [intros HT r Hr Fr; now apply (LerpUnClamped_accuracy a b r t)|].
  split; [apply Lerp_1_exact | apply Lerp_1_small].
Qed.

Lemma bpow_m23 : bpow (-23) = / 8388608.
Proof. exact (bpow_neg_IZR 23 ltac:(lia)). Qed.

(** The fields of [(1, 2, 3)] and of [(4, 5, 6)] are below 16. *)
Lemma small_integers :
  boundedV 16 (ofZ3 1 2 3) /\ boundedV 16 (ofZ3 4 5 6).
Proof.
  unfold boundedV, ofZ3. cbn [x y z].
  change (of_Z 1) with (S754_finite false 8388608 (-23)).
  change (of_Z 2) with (S754_finite false 8388608 (-22)).
  change (of_Z 3) with (S754_finite false 12582912 (-22)).
  change (of_Z 4) with (S754_finite false 8388608 (-21)).
  change (of_Z 5) with (S754_finite false 10485760 (-21)).
  change (of_Z 6) with (S754_finite false 12582912 (-21)).
  rewrite !B2R_abs_finite, bpow_m23, bpow_m22, bpow_m21.
  repeat split; lra.
Qed.

(** The theorem of claim C7 halfway between [(0, 0, 0)] and [(2, 4, 6)],
    and at [t = 1] between [(1, 2, 3)] and [(4, 5, 6)]. *)
Lemma Lerp_clamps_witness :
  (0 <= B2R (Mathf.Clamp01 (dec 5 1)) <= 1
   /\ interpolates zero (ofZ3 2 4 6) (ofZ3 1 2 3)
        (B2R (Mathf.Clamp01 (dec 5 1))))
  /\ exists r, Lerp (ofZ3 1 2 3) (ofZ3 4 5 6) one = Some r
               /\ finiteV r = true
               /\ op_eq r (ofZ3 4 5 6) = Some true.
Proof.
  split.
  - destruct (Lerp_clamps zero (ofZ3 2 4 6) (dec 5 1))
      as (_ & _ & _ & _ & _ & _ & _ & _ & _ & _ & _ & H & _).
    apply H; reflexivity.
  - destruct (Lerp_clamps (ofZ3 1 2 3) (ofZ3 4 5 6) one)
      as (_ & _ & _ & _ & _ & _ & _ & _ & _ & _ & _ & _ & _ & _ & H).
    apply H; try reflexivity; apply small_integers.
Defined.

End ExactTerms.
